(** * NLU engine: training/caching orchestrator, extraction pipeline and
      CRF feature pairing

    A shallow embedding of
    - [modules/nlu/src/backend/engine2/featurizer2.ts] ([getFeatPairs]) and
    - [modules/nlu/src/backend/engine.ts] ([ScopedEngine]: [trainOrLoad],
      [computeModelHash], [extract] and the pipeline stages),
    together with the properties the specification states about them.

    Conventions.  A JavaScript value that may be [undefined] is an [option];
    an object used as a dictionary is a [gmap] or, where the order of the
    keys matters, an association list; a number is a [Z] (the counts,
    boosts and timestamps the modelled code computes with are integers) or,
    for a confidence, a [Q]; an [async] method is cut at its [await]s into
    atomic steps, and what it does to its collaborators is recorded in a log
    of calls. *)

From Stdlib Require Import ZArith QArith_base List Bool Ascii String Lia.
From stdpp Require Import base tactics option list sorting strings pretty gmap.

#[global] Set Warnings "-register-all".

Local Open Scope Z_scope.
Local Open Scope string_scope.
Local Open Scope list_scope.

(** ** JavaScript helpers shared by the modules *)

(** [a || b] on two possibly-undefined objects: an object is always truthy. *)
Definition js_or {A} (a b : option A) : option A :=
  match a with
  | Some _ => a
  | None => b
  end.

(** Truthiness of a possibly-undefined object. *)
Definition truthy_obj {A} (a : option A) : bool :=
  match a with
  | Some _ => true
  | None => false
  end.

(** [arr.filter(_.identity)] on an array of possibly-undefined objects. *)
Fixpoint filter_identity {A} (l : list (option A)) : list A :=
  match l with
  | [] => []
  | Some x :: l' => x :: filter_identity l'
  | None :: l' => filter_identity l'
  end.

(** * featurizer2.ts *)

Module Featurizer.

(** [type FeatureValue = string | number | boolean] *)
Inductive FeatureValue :=
| VString (s : string)
| VNumber (n : Z)
| VBoolean (b : bool).

(** [interface CRFFeature { name; value; boost? }].  [value] is read with
    [_.get(feat, 'value', 'null')], so a feature whose value is [undefined]
    (as [getSpaceFeat(undefined)] builds) is modelled too. *)
Record CRFFeature := mkFeature {
  name : string;
  value : option FeatureValue;
  boost : option Z
}.

(** String conversion inside a template literal. *)
Definition toString (v : FeatureValue) : string :=
  match v with
  | VString s => s
  | VNumber n => pretty n
  | VBoolean true => "true"
  | VBoolean false => "false"
  end.

(** [_.get(feat, 'value', 'null')] *)
Definition valueOf (feat : option CRFFeature) : FeatureValue :=
  match feat with
  | Some f => match value f with Some v => v | None => VString "null" end
  | None => VString "null"
  end.

(** [_.get(feat, 'boost', 1)] *)
Definition boostOf (feat : option CRFFeature) : Z :=
  match feat with
  | Some f => match boost f with Some b => b | None => 1 end
  | None => 1
  end.

(** The callback of [featNames.map(...)]. *)
Definition pairOf (feats0 feats1 : list CRFFeature) (targetFeat : string)
  : option CRFFeature :=
  let f0 := find (fun f => String.eqb (name f) targetFeat) feats0 in
  let f1 := find (fun f => String.eqb (name f) targetFeat) feats1 in
  if truthy_obj (js_or f0 f1) then
    Some {| name := targetFeat;
            value := Some (VString (toString (valueOf f0) +:+ "|" +:+ toString (valueOf f1)));
            boost := Some (Z.max (boostOf f0) (boostOf f1)) |}
  else None.

Definition getFeatPairs (feats0 feats1 : list CRFFeature) (featNames : list string)
  : list CRFFeature :=
  filter_identity (map (pairOf feats0 feats1) featNames).

(** The neighbour of a boosted word: [word] is on both sides, [num] on the
    right only, [space] on the left only and [alpha] on neither. *)
Example getFeatPairs_neighbours :
  getFeatPairs
    [ mkFeature "word" (Some (VString "book")) (Some 3);
      mkFeature "space" (Some (VBoolean true)) None ]
    [ mkFeature "word" (Some (VString "a")) None;
      mkFeature "num" (Some (VNumber 0)) None ]
    ["word"; "num"; "alpha"; "space"]
  = [ mkFeature "word" (Some (VString "book|a")) (Some 3);
      mkFeature "num" (Some (VString "null|0")) (Some 1);
      mkFeature "space" (Some (VString "true|null")) (Some 1) ].
Proof. vm_compute. reflexivity. Qed.

(** *** The specification's reading of the pairing

    A side is "present" for a name when the set holds a feature of that
    name; the side's feature is then the first one of that name. *)

Definition present (n : string) (feats : list CRFFeature) : Prop :=
  n ∈ name <$> feats.

#[local] Instance present_dec n feats : Decision (present n feats).
Proof. unfold present. apply _. Defined.

Fixpoint sideFeature (n : string) (feats : list CRFFeature) : option CRFFeature :=
  match feats with
  | [] => None
  | f :: feats' => if decide (name f = n) then Some f else sideFeature n feats'
  end.

(** The value of a side as text, the sentinel standing for an absent side. *)
Definition sideValue (n : string) (feats : list CRFFeature) : string :=
  match sideFeature n feats with
  | None => "null"
  | Some f => match value f with
              | Some v => toString v
              | None => "null"
              end
  end.

(** The boost of a side, an absent or boost-less side counting as 1. *)
Definition sideBoost (n : string) (feats : list CRFFeature) : Z :=
  match sideFeature n feats with
  | None => 1
  | Some f => match boost f with
              | Some b => b
              | None => 1
              end
  end.

Definition combined (feats0 feats1 : list CRFFeature) (n : string) : CRFFeature :=
  {| name := n;
     value := Some (VString (sideValue n feats0 +:+ "|" +:+ sideValue n feats1));
     boost := Some (Z.max (sideBoost n feats0) (sideBoost n feats1)) |}.

Lemma find_sideFeature n feats :
  find (fun f => String.eqb (name f) n) feats = sideFeature n feats.
Proof.
  induction feats as [|f feats IH]; simpl; [done|].
  destruct (String.eqb_spec (name f) n); case_decide; congruence.
Qed.

Lemma sideFeature_None n feats : sideFeature n feats = None ↔ ¬ present n feats.
Proof.
  unfold present. induction feats as [|f feats IH]; simpl.
  - split; [intros _ H; inversion H | done].
  - case_decide as Hn.
    + split; [done | intros H; destruct H; rewrite <- Hn; left].
    + rewrite IH. split.
      * intros H1 H2. apply elem_of_cons in H2 as [H2 | H2]; [congruence | done].
      * intros H1 H2. apply H1. by right.
Qed.

Lemma pairOf_present feats0 feats1 n :
  present n feats0 ∨ present n feats1 →
  pairOf feats0 feats1 n = Some (combined feats0 feats1 n).
Proof.
  intros Hp. unfold pairOf, combined, sideValue, sideBoost, valueOf, boostOf.
  rewrite !find_sideFeature.
  destruct (sideFeature n feats0) as [f0|] eqn:E0;
    destruct (sideFeature n feats1) as [f1|] eqn:E1; simpl;
    repeat case_match; try done.
  apply sideFeature_None in E0, E1. tauto.
Qed.

Lemma pairOf_absent feats0 feats1 n :
  ¬ (present n feats0 ∨ present n feats1) → pairOf feats0 feats1 n = None.
Proof.
  intros Hp. unfold pairOf. rewrite !find_sideFeature.
  assert (sideFeature n feats0 = None) as -> by (apply sideFeature_None; tauto).
  assert (sideFeature n feats1 = None) as -> by (apply sideFeature_None; tauto).
  done.
Qed.

(** C10. [getFeatPairs] yields, in the order of [featNames], exactly one
    combined feature for each listed name held by at least one of the two
    sets and nothing for a name held by neither; the feature carries the
    name, the text [left|right] of the two sides' values with ["null"] for
    an absent side, and the larger of the two sides' boosts, an absent or
    boost-less side counting as 1. *)
Theorem getFeatPairs_combines (feats0 feats1 : list CRFFeature) (featNames : list string) :
  getFeatPairs feats0 feats1 featNames
  = combined feats0 feats1
      <$> filter (fun n => present n feats0 ∨ present n feats1) featNames.
Proof.
  unfold getFeatPairs. induction featNames as [|n ns IH]; [done|].
  simpl. destruct (decide (present n feats0 ∨ present n feats1)) as [Hp|Hp].
  - rewrite filter_cons_True by done. rewrite pairOf_present by done.
    simpl. by rewrite IH.
  - rewrite filter_cons_False by done. rewrite pairOf_absent by done.
    by rewrite IH.
Qed.

(** ** Entity features *)

(** [ExtractedEntity] and [UtteranceToken] of [engine2], as far as
    [getEntitiesFeats] reads them. *)
Record ExtractedEntity := mkEntity {
  type : string
}.

Record UtteranceToken := mkToken {
  entities : list ExtractedEntity
}.

(** [_.intersectionWith(xs, ys)] with no comparator: the values of [xs]
    that are in [ys], each once, in the order of [xs]. *)
Definition intersectionWith (xs ys : list string) : list string :=
  fold_left
    (fun result x =>
       if bool_decide (x ∈ result) then result
       else if bool_decide (x ∈ ys) then result ++ [x]
       else result)
    xs [].

Definition getEntitiesFeats (token : UtteranceToken) (allowedEntities : list string)
    (isPredict : bool) : list CRFFeature :=
  let boost := if isPredict then 3 else 1 in
  let ents := intersectionWith (type <$> entities token) allowedEntities in
  (fun entity => {| name := "entity"; value := Some (VString entity); boost := Some boost |})
    <$> (match ents with [] => ["none"] | _ :: _ => ents end).

Lemma intersectionWith_from_spec (xs ys result : list string) :
  NoDup result →
  (∀ x, x ∈ result → x ∈ ys) →
  let r := fold_left
             (fun result x =>
                if bool_decide (x ∈ result) then result
                else if bool_decide (x ∈ ys) then result ++ [x]
                else result)
             xs result in
  NoDup r ∧ ∀ x, x ∈ r ↔ x ∈ result ∨ (x ∈ xs ∧ x ∈ ys).
Proof.
  revert result. induction xs as [|y xs IH]; intros result Hn Hin; simpl.
  - split; [done|]. intros x. rewrite elem_of_nil. tauto.
  - case_bool_decide as Hy.
    + destruct (IH result Hn Hin) as [Hn' Hm]. split; [done|].
      intros x. rewrite Hm, elem_of_cons. split; [tauto|].
      intros [?|[[->|?] ?]]; auto.
    + case_bool_decide as Hy'.
      * destruct (IH (result ++ [y])) as [Hn' Hm].
        { apply NoDup_app. split_and!; [done| |apply NoDup_singleton].
          intros x Hx Hx'. apply list_elem_of_singleton in Hx'. by subst. }
        { intros x. rewrite elem_of_app, list_elem_of_singleton. intros [?| ->]; auto. }
        split; [done|]. intros x.
        rewrite Hm, elem_of_app, list_elem_of_singleton, elem_of_cons. split.
        -- intros [[?| ->]|[? ?]]; auto.
        -- intros [?|[[->|?] ?]]; auto.
      * destruct (IH result Hn Hin) as [Hn' Hm]. split; [done|].
        intros x. rewrite Hm, elem_of_cons. split; [tauto|].
        intros [?|[[->|?] ?]]; auto. by destruct Hy'.
Qed.

(** X1.  [getEntitiesFeats] never comes back empty-handed.  Every feature it
    gives is named ["entity"] and boosted 3 at prediction and 1 at
    training; its values are the types of the token's entities that are
    allowed, each once, or the one value ["none"] when no entity of the
    token is allowed. *)
Theorem getEntitiesFeats_spec (token : UtteranceToken) (allowedEntities : list string)
    (isPredict : bool) :
  ∃ kept,
    getEntitiesFeats token allowedEntities isPredict
    = (fun entity => {| name := "entity"; value := Some (VString entity);
                        boost := Some (if isPredict then 3 else 1) |}) <$> kept
    ∧ kept ≠ []
    ∧ NoDup kept
    ∧ ((∃ t, t ∈ (type <$> entities token) ∧ t ∈ allowedEntities)
       → ∀ t, t ∈ kept ↔ t ∈ (type <$> entities token) ∧ t ∈ allowedEntities)
    ∧ ((¬ ∃ t, t ∈ (type <$> entities token) ∧ t ∈ allowedEntities) → kept = ["none"]).
Proof.
  destruct (intersectionWith_from_spec (type <$> entities token) allowedEntities [])
    as [Hn Hm]; [constructor|by intros x Hx; apply elem_of_nil in Hx|].
  simpl in Hn, Hm. fold (intersectionWith (type <$> entities token) allowedEntities) in Hn, Hm.
  unfold getEntitiesFeats.
  destruct (intersectionWith (type <$> entities token) allowedEntities) as [|t ts] eqn:E.
  - exists ["none"]. split_and!; [done|done|apply NoDup_singleton| |done].
    intros (t & Ht). assert (t ∈ @nil string) as H by (apply Hm; tauto).
    by apply elem_of_nil in H.
  - exists (t :: ts). split_and!; [done|done|done| |].
    + intros _ x. rewrite Hm, elem_of_nil. tauto.
    + intros Hno. destruct Hno. exists t.
      assert (t ∈ t :: ts) as H by left. apply Hm in H as [H|H]; [|done].
      by apply elem_of_nil in H.
Qed.

(** ** The attribute written for CRFsuite *)

(** [${feat.value}] *)
Definition shown (v : option FeatureValue) : string :=
  match v with
  | Some v => toString v
  | None => "undefined"
  end.

(** [feat.boost || 1] *)
Definition weightOf (feat : CRFFeature) : Z :=
  match boost feat with
  | Some b => if Z.eqb b 0 then 1 else b
  | None => 1
  end.

Definition featToCRFsuiteAttr (prefix : string) (feat : CRFFeature) : string :=
  prefix +:+ name feat +:+ "=" +:+ shown (value feat) +:+ ":" +:+ pretty (weightOf feat).

Lemma append_inv_head (a b c : string) : a +:+ b = a +:+ c → b = c.
Proof.
  induction a as [|x a IH]; [done|].
  change (String x a +:+ b) with (String x (a +:+ b)).
  change (String x a +:+ c) with (String x (a +:+ c)).
  intros [= H]. by apply IH.
Qed.

(** X2.  Of two features of the same name and value, the attributes differ
    exactly when the weights [boost || 1] do; the weight written is never
    0, so a boost of 0 is written like a boost of 1 or none. *)
Theorem featToCRFsuiteAttr_weight (prefix : string) (f g : CRFFeature) :
  name f = name g →
  value f = value g →
  weightOf f ≠ 0
  ∧ (featToCRFsuiteAttr prefix f = featToCRFsuiteAttr prefix g ↔ weightOf f = weightOf g)
  ∧ (boost f = Some 0 → boost g = None →
     featToCRFsuiteAttr prefix f = featToCRFsuiteAttr prefix g).
Proof.
  intros Hn Hv. unfold featToCRFsuiteAttr. rewrite Hn, Hv. split_and!.
  - unfold weightOf. destruct (boost f) as [b|]; [|done].
    destruct (Z.eqb_spec b 0); [done|done].
  - split.
    + intros H. do 5 apply append_inv_head in H. by apply (inj pretty) in H.
    + by intros ->.
  - intros Hf Hg. unfold weightOf. by rewrite Hf, Hg.
Qed.

(** A word boosted 0 and the same word without boost. *)
Lemma featToCRFsuiteAttr_weight_witness :
  name (mkFeature "word" (Some (VString "a")) (Some 0))
  = name (mkFeature "word" (Some (VString "a")) None)
  ∧ value (mkFeature "word" (Some (VString "a")) (Some 0))
    = value (mkFeature "word" (Some (VString "a")) None)
  ∧ weightOf (mkFeature "word" (Some (VString "a")) (Some 0)) ≠ 0
  ∧ (featToCRFsuiteAttr "w[0]" (mkFeature "word" (Some (VString "a")) (Some 0))
     = featToCRFsuiteAttr "w[0]" (mkFeature "word" (Some (VString "a")) None)
     ↔ weightOf (mkFeature "word" (Some (VString "a")) (Some 0))
       = weightOf (mkFeature "word" (Some (VString "a")) None))
  ∧ (boost (mkFeature "word" (Some (VString "a")) (Some 0)) = Some 0 →
     boost (mkFeature "word" (Some (VString "a")) None) = None →
     featToCRFsuiteAttr "w[0]" (mkFeature "word" (Some (VString "a")) (Some 0))
     = featToCRFsuiteAttr "w[0]" (mkFeature "word" (Some (VString "a")) None)).
Proof.
  split; [reflexivity|]. split; [reflexivity|].
  apply (featToCRFsuiteAttr_weight "w[0]" (mkFeature "word" (Some (VString "a")) (Some 0))
           (mkFeature "word" (Some (VString "a")) None)); reflexivity.
Defined.

Example featToCRFsuiteAttr_boosted :
  featToCRFsuiteAttr "w[0]" (mkFeature "word" (Some (VString "book")) (Some 3))
  = "w[0]word=book:3".
Proof. vm_compute. reflexivity. Qed.

End Featurizer.

(** * JSON values and [JSON.stringify]

    Intent definitions reach the engine as plain JavaScript objects read
    from JSON files.  [computeModelHash] serialises them with
    [JSON.stringify], which walks an object's own keys in the order
    [Object.keys] gives them, so objects are association lists here.  The
    engine only ever uses language codes and field names as keys, never
    integer-like ones (which JavaScript would list first). *)

Module Json.

(** A JavaScript value of the JSON kind.  The members of an object are kept
    in the order in which [Object.keys] lists them. *)
Inductive value :=
| JNull
| JBool (b : bool)
| JNumber (n : Z)
| JString (s : string)
| JArray (elems : list value)
| JObject (members : list (string * value)).

Definition text := list ascii.

Definition lit (s : string) : text := list_ascii_of_string s.

Definition dquote : ascii := "034"%char.

Definition hex_digit (x : N) : ascii :=
  nth (N.to_nat x) (lit "0123456789abcdef") "0"%char.

(** [QuoteJSONString]: the escape of one character. *)
Definition escape (c : ascii) : text :=
  let n := N_of_ascii c in
  if Ascii.eqb c dquote then ["\"%char; dquote]
  else if Ascii.eqb c "\"%char then ["\"%char; "\"%char]
  else if N.eqb n 8 then lit "\b"
  else if N.eqb n 12 then lit "\f"
  else if N.eqb n 10 then lit "\n"
  else if N.eqb n 13 then lit "\r"
  else if N.eqb n 9 then lit "\t"
  else if N.ltb n 32 then (lit "\u00" ++ [hex_digit (N.div n 16); hex_digit (N.modulo n 16)])
  else [c].

Definition quote (s : string) : text :=
  (dquote :: flat_map escape (lit s) ++ [dquote]).

(** [parts.join(sep)] *)
Definition join (sep : text) (parts : list text) : text :=
  match parts with
  | [] => []
  | p :: ps => (p ++ flat_map (app sep) ps)
  end.

Fixpoint print (v : value) : text :=
  match v with
  | JNull => lit "null"
  | JBool true => lit "true"
  | JBool false => lit "false"
  | JNumber n => lit (pretty n)
  | JString s => quote s
  | JArray elems => ("["%char :: join [","%char] (print <$> elems) ++ ["]"%char])
  | JObject members =>
      ("{"%char
         :: join [","%char] ((fun m => quote (fst m) ++ ":"%char :: print (snd m)) <$> members)
         ++ ["}"%char])
  end.

(** [JSON.stringify(v)] *)
Definition stringify (v : value) : string := string_of_list_ascii (print v).

(** [v[k]] *)
Definition prop (k : string) (v : value) : option value :=
  match v with
  | JObject members => snd <$> find (fun m => String.eqb (fst m) k) members
  | _ => None
  end.


(** *** [JSON.stringify] loses nothing

    The text of a value determines the value: [print] is self-delimiting
    once what follows a value is a separator or a closing bracket. *)

Lemma value_ind' (P : value → Prop) :
  P JNull → (∀ b, P (JBool b)) → (∀ n, P (JNumber n)) → (∀ s, P (JString s)) →
  (∀ elems, Forall P elems → P (JArray elems)) →
  (∀ members, Forall (fun m => P (snd m)) members → P (JObject members)) →
  ∀ v, P v.
Proof.
  intros Hnull Hbool Hnum Hstr Harr Hobj.
  fix IH 1. intros [ | b | n | s | elems | members ].
  - exact Hnull.
  - apply Hbool.
  - apply Hnum.
  - apply Hstr.
  - apply Harr. induction elems as [|v elems IHl]; constructor; [apply IH | exact IHl].
  - apply Hobj. induction members as [|[k v] members IHl]; constructor;
      [apply IH | exact IHl].
Qed.

Definition all_ascii : list ascii := ascii_of_nat <$> seq 0 256.

Lemma forall_ascii (P : ascii → bool) :
  forallb P all_ascii = true → ∀ c, P c = true.
Proof.
  intros H c. rewrite forallb_forall in H. apply H.
  rewrite <- (ascii_nat_embedding c). unfold all_ascii.
  apply in_map, in_seq. pose proof (nat_ascii_bounded c). lia.
Qed.

Fixpoint is_prefix (a b : text) : bool :=
  match a, b with
  | [], _ => true
  | x :: a', y :: b' => Ascii.eqb x y && is_prefix a' b'
  | _ :: _, [] => false
  end.

Lemma app_eq_is_prefix (a b x y : text) :
  (a ++ x = b ++ y) → is_prefix a b = true ∨ is_prefix b a = true.
Proof.
  revert b. induction a as [|c a IH]; intros [|d b] E; simpl; auto.
  simpl in E. injection E as -> E. rewrite Ascii.eqb_refl. simpl. eauto.
Qed.

Lemma escape_prefix_free c1 c2 : is_prefix (escape c1) (escape c2) = true → c1 = c2.
Proof.
  intros H. apply Ascii.eqb_eq. revert H.
  generalize (forall_ascii
    (fun c1 => forallb (fun c2 => implb (is_prefix (escape c1) (escape c2)) (Ascii.eqb c1 c2))
                 all_ascii) ltac:(vm_compute; reflexivity) c1).
  intros H. rewrite forallb_forall in H. specialize (H c2).
  intros Hp. rewrite Hp in H. apply H.
  rewrite <- (ascii_nat_embedding c2). unfold all_ascii.
  apply in_map, in_seq. pose proof (nat_ascii_bounded c2). lia.
Qed.

Lemma escape_head c : ∃ h t, escape c = h :: t ∧ h ≠ dquote.
Proof.
  generalize (forall_ascii
    (fun c => match escape c with
              | h :: _ => negb (Ascii.eqb h dquote)
              | [] => false
              end) ltac:(vm_compute; reflexivity) c).
  destruct (escape c) as [|h t]; [discriminate|].
  intros H. exists h, t. split; [done|]. intros ->. by rewrite Ascii.eqb_refl in H.
Qed.

Lemma escaped_inj (l1 l2 r1 r2 : text) :
  (flat_map escape l1 ++ dquote :: r1 = flat_map escape l2 ++ dquote :: r2) →
  l1 = l2 ∧ r1 = r2.
Proof.
  revert l2. induction l1 as [|c1 l1 IH]; intros [|c2 l2] E; simpl in E.
  - by injection E.
  - destruct (escape_head c2) as (h & t & Hc & Hh). rewrite Hc in E.
    simpl in E. injection E as E _. congruence.
  - destruct (escape_head c1) as (h & t & Hc & Hh). rewrite Hc in E.
    simpl in E. injection E as E _. congruence.
  - rewrite <- !app_assoc in E.
    assert (c1 = c2) as ->.
    { destruct (app_eq_is_prefix _ _ _ _ E) as [H|H];
        apply escape_prefix_free in H; congruence. }
    apply app_inv_head in E. destruct (IH _ E) as [-> ->]. done.
Qed.

Lemma lit_inj s1 s2 : lit s1 = lit s2 → s1 = s2.
Proof.
  intros E. rewrite <- (string_of_list_ascii_of_string s1),
    <- (string_of_list_ascii_of_string s2). unfold lit in E. by rewrite E.
Qed.

Lemma quote_inj (s1 s2 : string) (r1 r2 : text) :
  (quote s1 ++ r1 = quote s2 ++ r2) → s1 = s2 ∧ r1 = r2.
Proof.
  unfold quote. simpl. rewrite <- !app_assoc. simpl. intros [= E].
  apply escaped_inj in E as [E ->]. split; [by apply lit_inj|done].
Qed.

(** Characters of a number, and texts that cannot continue one. *)
Definition numeric (c : ascii) : bool :=
  let n := N_of_ascii c in
  (N.leb 48 n && N.leb n 57) || N.eqb n 45.

Definition stops (r : text) : Prop :=
  match r with
  | [] => True
  | c :: _ => numeric c = false
  end.

Lemma numeric_span (a b r1 r2 : text) :
  Forall (fun c => numeric c = true) a → Forall (fun c => numeric c = true) b →
  stops r1 → stops r2 → (a ++ r1 = b ++ r2) → a = b ∧ r1 = r2.
Proof.
  intros Ha. revert b. induction Ha as [|c a Hc Ha IH]; intros b Hb S1 S2 E.
  - destruct Hb as [|d b Hd Hb]; [done|]. simpl in E. subst r1.
    simpl in S1. congruence.
  - destruct Hb as [|d b Hd Hb]; simpl in E.
    + subst r2. simpl in S2. congruence.
    + injection E as -> E. destruct (IH b Hb S1 S2 E) as [-> ->]. done.
Qed.

Lemma pretty_N_char_numeric x : numeric (pretty_N_char x) = true.
Proof. unfold pretty_N_char. by repeat case_match. Qed.

Lemma pretty_N_go_text x : ∀ s, ∃ t,
  lit (pretty_N_go x s) = (t ++ lit s)
  ∧ Forall (fun c => numeric c = true) t
  ∧ ((0 < x)%N → t ≠ []).
Proof.
  induction (N.lt_wf_0 x) as [x _ IH]. intros s.
  assert (x = 0 ∨ 0 < x)%N as [->|Hx] by lia.
  - exists []. rewrite pretty_N_go_0. split_and!; [done|constructor|lia].
  - rewrite pretty_N_go_step by done.
    destruct (IH (x `div` 10)%N (N.div_lt x 10 Hx eq_refl)
                (String (pretty_N_char (x `mod` 10)) s)) as (t & Et & Ft & _).
    exists (t ++ [pretty_N_char (x `mod` 10)%N]).
    rewrite Et. simpl. rewrite <- app_assoc. split_and!; [done| |].
    + apply Forall_app. split; [done|]. constructor; [|constructor].
      apply pretty_N_char_numeric.
    + intros _. by destruct t.
Qed.

Lemma pretty_Z_text (n : Z) : ∃ c t,
  lit (pretty n) = c :: t ∧ Forall (fun c => numeric c = true) (c :: t).
Proof.
  assert (∀ p : positive, ∃ c t, lit (pretty (Npos p)) = c :: t
            ∧ Forall (fun c => numeric c = true) (c :: t)) as Hpos.
  { intros p. unfold pretty, pretty_N. rewrite decide_False by done.
    destruct (pretty_N_go_text (Npos p) "") as (t & Et & Ft & Hne).
    simpl in Et. rewrite app_nil_r in Et. rewrite Et.
    destruct t as [|c t]; [by destruct Hne|]. eauto. }
  destruct n as [|p|p].
  - exists "0"%char, []. split; [done|]. by repeat constructor.
  - apply Hpos.
  - destruct (Hpos p) as (c & t & E & F).
    exists "-"%char, (c :: t). split; [|by constructor].
    change (lit (pretty (Z.neg p))) with ("-"%char :: lit (pretty (Npos p))).
    by rewrite E.
Qed.

(** What may follow a value inside an array or an object, or at the end. *)
Definition closed (r : text) : Prop :=
  match r with
  | [] => True
  | c :: _ => c = ","%char ∨ c = "]"%char ∨ c = "}"%char
  end.

Lemma closed_stops r : closed r → stops r.
Proof. destruct r as [|c r]; [done|]. simpl. by intros [->|[->| ->]]. Qed.

(** The first character of a value's text tells its kind. *)
Definition opens (v : value) (c : ascii) : Prop :=
  match v with
  | JNull => c = "n"%char
  | JBool b => c = if b then "t"%char else "f"%char
  | JNumber _ => numeric c = true
  | JString _ => c = dquote
  | JArray _ => c = "["%char
  | JObject _ => c = "{"%char
  end.

Lemma print_opens v : ∃ c t, print v = c :: t ∧ opens v c.
Proof.
  destruct v as [ | [] | n | s | elems | members ]; simpl; eauto.
  destruct (pretty_Z_text n) as (c & t & E & F). exists c, t.
  split; [done|]. by inversion F.
Qed.

Lemma opens_kind v1 v2 c : opens v1 c → opens v2 c →
  match v1, v2 with
  | JNull, JNull | JBool _, JBool _ | JNumber _, JNumber _
  | JString _, JString _ | JArray _, JArray _ | JObject _, JObject _ => True
  | _, _ => False
  end.
Proof.
  destruct v1 as [ | [] | | | | ], v2 as [ | [] | | | | ]; simpl;
    intros H1 H2; subst; try done; try discriminate.
Qed.

Definition decodes {A} (pr : A → text) (a1 : A) : Prop :=
  ∀ a2 r1 r2, closed r1 → closed r2 →
    (pr a1 ++ r1 = pr a2 ++ r2) → a1 = a2 ∧ r1 = r2.

Section Sequences.
Context {A : Type} (pr : A → text) (close : ascii).
Hypothesis close_bracket : close = "]"%char ∨ close = "}"%char.
Hypothesis pr_head : ∀ a, ∃ c t, pr a = c :: t ∧ c ≠ close.

Lemma closed_tail (l : list A) r :
  closed (flat_map (app [","%char]) (pr <$> l) ++ close :: r).
Proof. destruct l; simpl; tauto. Qed.

Lemma tail_inj (l1 : list A) : Forall (decodes pr) l1 → ∀ l2 r1 r2,
  (flat_map (app [","%char]) (pr <$> l1) ++ close :: r1
   = flat_map (app [","%char]) (pr <$> l2) ++ close :: r2) →
  l1 = l2 ∧ r1 = r2.
Proof.
  induction 1 as [|a1 l1 Ha _ IH]; intros [|a2 l2] r1 r2 E; simpl in E.
  - by injection E.
  - injection E as E _. destruct close_bracket; subst; discriminate.
  - injection E as E _. destruct close_bracket; subst; discriminate.
  - injection E as E. rewrite <- !app_assoc in E.
    apply Ha in E as [-> E]; [|apply closed_tail..].
    apply IH in E as [-> ->]. done.
Qed.

Lemma join_inj (l1 : list A) : Forall (decodes pr) l1 → ∀ l2 r1 r2,
  (join [","%char] (pr <$> l1) ++ close :: r1
   = join [","%char] (pr <$> l2) ++ close :: r2) →
  l1 = l2 ∧ r1 = r2.
Proof.
  intros H l2 r1 r2 E. destruct H as [|a1 l1 Ha Hl], l2 as [|a2 l2]; simpl in E.
  - by injection E.
  - destruct (pr_head a2) as (c & t & Hc & Hne). rewrite Hc in E.
    simpl in E. injection E as E _. congruence.
  - destruct (pr_head a1) as (c & t & Hc & Hne). rewrite Hc in E.
    simpl in E. injection E as E _. congruence.
  - rewrite <- !app_assoc in E.
    apply Ha in E as [-> E]; [|apply closed_tail..].
    apply (tail_inj _ Hl) in E as [-> ->]. done.
Qed.
End Sequences.

Definition print_member (m : string * value) : text :=
  (quote (fst m) ++ ":"%char :: print (snd m)).

Lemma member_decodes k1 v1 : decodes print v1 → decodes print_member (k1, v1).
Proof.
  intros Hv [k2 v2] r1 r2 C1 C2 E. unfold print_member in E. cbn [fst snd] in E.
  rewrite <- !app_assoc in E. apply quote_inj in E as [-> E].
  simpl in E. injection E as E. apply Hv in E as [-> ->]; done.
Qed.

Lemma print_decodes v : decodes print v.
Proof.
  induction v as [ | b1 | n1 | s1 | l1 IH | m1 IH ] using value_ind';
    intros v2 r1 r2 C1 C2 E.
  all: assert (Hk := E);
    destruct (print_opens v2) as (c2 & t2 & E2 & O2); rewrite E2 in Hk.
  all: match type of Hk with (print ?v ++ _ = _) =>
         destruct (print_opens v) as (c1 & t1 & E1 & O1); rewrite E1 in Hk end.
  all: simpl in Hk; injection Hk as -> _;
    pose proof (opens_kind _ _ _ O1 O2) as K; destruct v2; try done; clear K.
  - simpl in E. injection E as ->. done.
  - destruct b1, b; simpl in E; try discriminate; injection E as ->; done.
  - simpl in E. destruct (pretty_Z_text n1) as (? & ? & X1 & F1).
    destruct (pretty_Z_text n) as (? & ? & X2 & F2).
    rewrite X1, X2 in E. rewrite <- X1 in F1. rewrite <- X2 in F2.
    rewrite <- X1, <- X2 in E.
    apply numeric_span in E as [E ->]; auto using closed_stops.
    apply lit_inj in E. apply (inj pretty) in E. by subst.
  - simpl in E. apply quote_inj in E as [-> ->]. done.
  - simpl in E. injection E as E. rewrite <- !app_assoc in E. simpl in E.
    apply join_inj in E as [-> ->]; auto.
    intros a. destruct (print_opens a) as (c & t & Ec & Oc).
    exists c, t. split; [done|]. intros ->. by destruct a as [ | [] | | | | ].
  - simpl in E. injection E as E. rewrite <- !app_assoc in E. simpl in E.
    apply (join_inj print_member) in E as [-> ->]; auto.
    + intros [k v]. exists dquote. eexists. split; [done|]. done.
    + eapply Forall_impl; [exact IH|]. intros [k v] Hv. by apply member_decodes.
Qed.

Lemma stringify_inj v1 v2 : stringify v1 = stringify v2 → v1 = v2.
Proof.
  unfold stringify. intros E.
  assert (print v1 = print v2) as E'.
  { rewrite <- (list_ascii_of_string_of_list_ascii (print v1)),
      <- (list_ascii_of_string_of_list_ascii (print v2)). by rewrite E. }
  destruct (print_decodes v1 v2 [] []) as [-> _]; simpl; auto.
  by rewrite !app_nil_r.
Qed.

End Json.

(** * Node's [crypto.createHash('md5')]

    [computeModelHash] digests with Node's MD5.  The digest is embedded
    from RFC 1321 so that hashes of concrete intent sets can be computed:
    32-bit words are [Z]s kept below [2^32] by masking. *)

Module MD5.

Definition mask32 : Z := 0xffffffff.

Definition add32 (x y : Z) : Z := Z.land (x + y) mask32.

Definition not32 (x : Z) : Z := Z.lxor x mask32.

Definition rotl32 (x c : Z) : Z :=
  Z.land (Z.lor (Z.shiftl x c) (Z.shiftr x (32 - c))) mask32.

(** [K[i] = floor(2^32 * abs(sin(i + 1)))] *)
Definition K : list Z :=
  [ 0xd76aa478; 0xe8c7b756; 0x242070db; 0xc1bdceee;
    0xf57c0faf; 0x4787c62a; 0xa8304613; 0xfd469501;
    0x698098d8; 0x8b44f7af; 0xffff5bb1; 0x895cd7be;
    0x6b901122; 0xfd987193; 0xa679438e; 0x49b40821;
    0xf61e2562; 0xc040b340; 0x265e5a51; 0xe9b6c7aa;
    0xd62f105d; 0x02441453; 0xd8a1e681; 0xe7d3fbc8;
    0x21e1cde6; 0xc33707d6; 0xf4d50d87; 0x455a14ed;
    0xa9e3e905; 0xfcefa3f8; 0x676f02d9; 0x8d2a4c8a;
    0xfffa3942; 0x8771f681; 0x6d9d6122; 0xfde5380c;
    0xa4beea44; 0x4bdecfa9; 0xf6bb4b60; 0xbebfbc70;
    0x289b7ec6; 0xeaa127fa; 0xd4ef3085; 0x04881d05;
    0xd9d4d039; 0xe6db99e5; 0x1fa27cf8; 0xc4ac5665;
    0xf4292244; 0x432aff97; 0xab9423a7; 0xfc93a039;
    0x655b59c3; 0x8f0ccc92; 0xffeff47d; 0x85845dd1;
    0x6fa87e4f; 0xfe2ce6e0; 0xa3014314; 0x4e0811a1;
    0xf7537e82; 0xbd3af235; 0x2ad7d2bb; 0xeb86d391 ].

(** Per-round left-rotation amounts. *)
Definition shifts : list Z :=
  [ 7; 12; 17; 22; 7; 12; 17; 22; 7; 12; 17; 22; 7; 12; 17; 22;
    5; 9; 14; 20; 5; 9; 14; 20; 5; 9; 14; 20; 5; 9; 14; 20;
    4; 11; 16; 23; 4; 11; 16; 23; 4; 11; 16; 23; 4; 11; 16; 23;
    6; 10; 15; 21; 6; 10; 15; 21; 6; 10; 15; 21; 6; 10; 15; 21 ].

(** The four chaining words. *)
Record regs := mkRegs { rA : Z; rB : Z; rC : Z; rD : Z }.

Definition init : regs :=
  {| rA := 0x67452301; rB := 0xefcdab89; rC := 0x98badcfe; rD := 0x10325476 |}.

(** One of the 64 operations on a block [M] of sixteen words. *)
Definition operation (M : list Z) (r : regs) (i : nat) : regs :=
  let '(f, g) :=
    match Nat.div i 16 with
    | 0%nat => (Z.lor (Z.land (rB r) (rC r)) (Z.land (not32 (rB r)) (rD r)), i)
    | 1%nat => (Z.lor (Z.land (rD r) (rB r)) (Z.land (not32 (rD r)) (rC r)),
                Nat.modulo (5 * i + 1) 16)
    | 2%nat => (Z.lxor (rB r) (Z.lxor (rC r) (rD r)), Nat.modulo (3 * i + 5) 16)
    | _ => (Z.lxor (rC r) (Z.lor (rB r) (not32 (rD r))), Nat.modulo (7 * i) 16)
    end in
  let f' := add32 (add32 (add32 f (rA r)) (nth i K 0)) (nth g M 0) in
  {| rA := rD r;
     rB := add32 (rB r) (rotl32 f' (nth i shifts 0));
     rC := rB r;
     rD := rC r |}.

Definition compress (r : regs) (M : list Z) : regs :=
  let r' := fold_left (operation M) (seq 0 64) r in
  {| rA := add32 (rA r) (rA r'); rB := add32 (rB r) (rB r');
     rC := add32 (rC r) (rC r'); rD := add32 (rD r) (rD r') |}.

(** Little-endian bytes of a word, and back. *)
Fixpoint le_bytes (n : nat) (x : Z) : list Z :=
  match n with
  | O => []
  | S n' => Z.land x 0xff :: le_bytes n' (Z.shiftr x 8)
  end.

Fixpoint le_word (bs : list Z) : Z :=
  match bs with
  | [] => 0
  | b :: bs' => Z.lor b (Z.shiftl (le_word bs') 8)
  end.

(** Cut a list into consecutive pieces of [n] elements. *)
Fixpoint chunks {A} (fuel n : nat) (l : list A) : list (list A) :=
  match fuel, l with
  | O, _ | _, [] => []
  | S fuel', _ => firstn n l :: chunks fuel' n (skipn n l)
  end.

(** The message, a 1 bit, zeros up to 56 mod 64, then the bit length. *)
Definition pad (msg : list Z) : list Z :=
  let len := Z.of_nat (length msg) in
  msg ++ [0x80] ++ repeat 0 (Z.to_nat ((55 - len) mod 64)) ++ le_bytes 8 (8 * len).

Definition digest_regs (msg : list Z) : regs :=
  let bytes := pad msg in
  let blocks := chunks (length bytes) 16 (le_word <$> chunks (length bytes) 4 bytes) in
  fold_left compress blocks init.

Definition hex_digit (x : Z) : ascii :=
  nth (Z.to_nat x) (list_ascii_of_string "0123456789abcdef") "0"%char.

Definition hex_byte (b : Z) : list ascii :=
  [hex_digit (Z.shiftr b 4); hex_digit (Z.land b 0xf)].

Definition bytes_of_string (s : string) : list Z :=
  (fun c => Z.of_N (N_of_ascii c)) <$> list_ascii_of_string s.

(** [crypto.createHash('md5').update(s).digest('hex')] *)
Definition md5_hex (s : string) : string :=
  let r := digest_regs (bytes_of_string s) in
  string_of_list_ascii
    (flat_map hex_byte
       (le_bytes 4 (rA r) ++ le_bytes 4 (rB r) ++ le_bytes 4 (rC r) ++ le_bytes 4 (rD r))).

(** The test suite of RFC 1321, and messages that span two blocks. *)
Example md5_empty : md5_hex "" = "d41d8cd98f00b204e9800998ecf8427e".
Proof. vm_compute. reflexivity. Qed.

Example md5_a : md5_hex "a" = "0cc175b9c0f1b6a831c399e269772661".
Proof. vm_compute. reflexivity. Qed.

Example md5_abc : md5_hex "abc" = "900150983cd24fb0d6963f7d28e17f72".
Proof. vm_compute. reflexivity. Qed.

Example md5_message_digest :
  md5_hex "message digest" = "f96b697d7cb7938d525a2f31aaf161d0".
Proof. vm_compute. reflexivity. Qed.

Example md5_56 :
  md5_hex "aaaaaaaaaaaaaaaaaaaaaaaaaaaaaaaaaaaaaaaaaaaaaaaaaaaaaaaa"
  = "3b0c8ac703f828b04c6c197006d17218".
Proof. vm_compute. reflexivity. Qed.

End MD5.

(** * engine.ts: [ScopedEngine] *)

Module ScopedEngine.
Import Json.

(** ** Exceptions and effects

    A computation either completes normally or throws; an effectful one
    also threads a state (the log of calls made to collaborators, the
    Model Store, the engine's own fields). *)

Inductive completion (A : Type) :=
| Normal (a : A)
| Thrown (e : string).
Arguments Normal {A} a.
Arguments Thrown {A} e.

Definition Eff (S A : Type) : Type := S → completion A * S.

Definition ret {S A} (a : A) : Eff S A := fun s => (Normal a, s).

Definition throw {S A} (e : string) : Eff S A := fun s => (Thrown e, s).

Definition bind {S A B} (m : Eff S A) (k : A → Eff S B) : Eff S B :=
  fun s => match m s with
           | (Normal a, s') => k a s'
           | (Thrown e, s') => (Thrown e, s')
           end.

(** [try { m } catch (e) { handler(e) }] *)
Definition try_catch {S A} (m : Eff S A) (handler : string → Eff S A) : Eff S A :=
  fun s => match m s with
           | (Normal a, s') => (Normal a, s')
           | (Thrown e, s') => handler e s'
           end.

(** Lift the outcome of a call that leaves the state alone. *)
Definition lift {S A} (c : completion A) : Eff S A := fun s => (c, s).

Definition modify {S} (f : S → S) : Eff S unit := fun s => (Normal tt, f s).

Definition get_state {S} : Eff S S := fun s => (Normal s, s).

Notation "x <- m ;; k" := (bind m (fun x => k))
  (at level 100, m at next level, right associativity).
Notation "m ;;; k" := (bind m (fun _ => k))
  (at level 100, right associativity).

Lemma bind_normal {S A B} (m : Eff S A) (k : A → Eff S B) s a s' :
  m s = (Normal a, s') → bind m k s = k a s'.
Proof. unfold bind. by intros ->. Qed.

Lemma bind_thrown {S A B} (m : Eff S A) (k : A → Eff S B) s e s' :
  m s = (Thrown e, s') → bind m k s = (Thrown e, s').
Proof. unfold bind. by intros ->. Qed.

Lemma bind_thrown_inv {S A B} (m : Eff S A) (k : A → Eff S B) s e s' :
  bind m k s = (Thrown e, s') →
  m s = (Thrown e, s') ∨ ∃ a s1, m s = (Normal a, s1) ∧ k a s1 = (Thrown e, s').
Proof.
  unfold bind. destruct (m s) as [[a|e1] s1].
  - intros H. right. by exists a, s1.
  - intros [= -> ->]. by left.
Qed.

(** [for (const x of xs) { body(x) }] *)
Fixpoint for_of {S A} (xs : list A) (body : A → Eff S unit) : Eff S unit :=
  match xs with
  | [] => ret tt
  | x :: xs' => body x ;;; for_of xs' body
  end.

(** ** [computeModelHash] *)

(** [crypto.createHash('md5').update(JSON.stringify(intents)).digest('hex')] *)
Definition computeModelHash (intents : list value) : string :=
  MD5.md5_hex (stringify (JArray intents)).

(** Two values with the same content, the keys of objects possibly listed
    in another order. *)
Inductive reordered : value → value → Prop :=
| reordered_refl v : reordered v v
| reordered_array l1 l2 :
    Forall2 reordered l1 l2 → reordered (JArray l1) (JArray l2)
| reordered_object m1 m2 m3 :
    Forall2 (fun a b => fst a = fst b ∧ reordered (snd a) (snd b)) m1 m2 →
    Permutation m2 m3 →
    reordered (JObject m1) (JObject m3).

(** One intent, the same intent written with [utterances] before [name],
    and the intent with one utterance edited. *)
Definition greet : value :=
  JObject [ ("name", JString "greet");
            ("utterances", JObject [("en", JArray [JString "hi"; JString "hello"])]);
            ("slots", JArray []);
            ("contexts", JArray [JString "global"]) ].

Definition greet_reordered : value :=
  JObject [ ("utterances", JObject [("en", JArray [JString "hi"; JString "hello"])]);
            ("name", JString "greet");
            ("slots", JArray []);
            ("contexts", JArray [JString "global"]) ].

Definition greet_edited : value :=
  JObject [ ("name", JString "greet");
            ("utterances", JObject [("en", JArray [JString "hi"; JString "hello!"])]);
            ("slots", JArray []);
            ("contexts", JArray [JString "global"]) ].

Example computeModelHash_greet :
  computeModelHash [greet] = "41232c3035dffc68baf6654b05a81d1d".
Proof. vm_compute. reflexivity. Qed.

Example computeModelHash_greet_reordered :
  computeModelHash [greet_reordered] = "1beb9794d4a0ae3489d26f196f0eab5d".
Proof. vm_compute. reflexivity. Qed.

Example computeModelHash_greet_edited :
  computeModelHash [greet_edited] = "212e2e214b9f9aff996cf2dffa31b935".
Proof. vm_compute. reflexivity. Qed.

Example computeModelHash_no_intent :
  computeModelHash [] = "d751713988987e9331980363e24189ce".
Proof. vm_compute. reflexivity. Qed.

(** C2, as the code has it.  The digest is the MD5 of the serialised
    intents and nothing else, so it is the same on every call; and two
    sets of intents serialise to the same text only when they are the same
    values, keys in the same order: any change of an utterance, a slot or a
    context changes the text that is digested. *)
Theorem computeModelHash_of_text (intents1 intents2 : list value) :
  computeModelHash intents1 = MD5.md5_hex (stringify (JArray intents1))
  ∧ (stringify (JArray intents1) = stringify (JArray intents2) ↔ intents1 = intents2).
Proof.
  split; [done|]. split.
  - intros E. apply stringify_inj in E. by injection E.
  - by intros ->.
Qed.

(** C2 fails as stated: the digest follows the order of the keys. *)
Lemma computeModelHash_key_order :
  Forall2 reordered [greet] [greet_reordered]
  ∧ computeModelHash [greet] ≠ computeModelHash [greet_reordered].
Proof.
  split.
  - constructor; [|constructor].
    eapply reordered_object; [|apply perm_swap].
    repeat (constructor; [split; [done|apply reordered_refl]|]). constructor.
  - rewrite computeModelHash_greet, computeModelHash_greet_reordered. discriminate.
Qed.

(** ** Data of the engine *)

(** [Model] of [typings]: [meta] and the payload, which the engine only
    hands over to the learners. *)
Record ModelMeta := mkMeta {
  context : string;
  created_on : Z;
  hash : string;
  type : string;
  scope : string
}.

Record Model := mkModel {
  meta : ModelMeta;
  model : value
}.

(** [sdk.NLU.Intent] *)
Module NLU.
Record Intent := mkIntent {
  name : string;
  confidence : Q;
  context : string
}.
End NLU.

(** [new ExactMatcher(trainingSet)].  A training sequence is an object the
    engine passes along without looking inside. *)
Record ExactMatcher := mkExactMatcher {
  trainingSet : list value
}.

(** The fields of [ScopedEngine] the modelled methods read or write.  The
    classifiers and slot extractors are created in the constructor for
    each configured language, so [intentClassifiers[l]] and
    [slotExtractors[l]] exist exactly for [l] in [languages]. *)
Record Engine := mkEngine {
  languages : list string;
  defaultLanguage : string;
  confidenceTreshold : Q;
  _preloaded : bool;
  _currentModelHash : option string;
  _exactIntentMatchers : gmap string ExactMatcher;
  _isSyncing : bool;
  _isSyncingTwice : bool
}.

Definition set_isSyncing (b : bool) (e : Engine) : Engine :=
  {| languages := languages e; defaultLanguage := defaultLanguage e;
     confidenceTreshold := confidenceTreshold e;
     _preloaded := _preloaded e; _currentModelHash := _currentModelHash e;
     _exactIntentMatchers := _exactIntentMatchers e;
     _isSyncing := b; _isSyncingTwice := _isSyncingTwice e |}.

Definition set_isSyncingTwice (b : bool) (e : Engine) : Engine :=
  {| languages := languages e; defaultLanguage := defaultLanguage e;
     confidenceTreshold := confidenceTreshold e;
     _preloaded := _preloaded e; _currentModelHash := _currentModelHash e;
     _exactIntentMatchers := _exactIntentMatchers e;
     _isSyncing := _isSyncing e; _isSyncingTwice := b |}.

Definition set_exactIntentMatcher (lang : string) (m : ExactMatcher) (e : Engine) : Engine :=
  {| languages := languages e; defaultLanguage := defaultLanguage e;
     confidenceTreshold := confidenceTreshold e;
     _preloaded := _preloaded e; _currentModelHash := _currentModelHash e;
     _exactIntentMatchers := <[lang := m]> (_exactIntentMatchers e);
     _isSyncing := _isSyncing e; _isSyncingTwice := _isSyncingTwice e |}.

(** [this._currentModelHash = modelHash; this._preloaded = true] *)
Definition set_synced (modelHash : string) (e : Engine) : Engine :=
  {| languages := languages e; defaultLanguage := defaultLanguage e;
     confidenceTreshold := confidenceTreshold e;
     _preloaded := true; _currentModelHash := Some modelHash;
     _exactIntentMatchers := _exactIntentMatchers e;
     _isSyncing := _isSyncing e; _isSyncingTwice := _isSyncingTwice e |}.

(** What the engine asks of its collaborators, in the order it asks. *)
Inductive Call :=
| LogDebug (msg : string)
| LogWarn (msg : string)
| LogError (msg : string)
| GetIntents
| ModelExists (modelHash lang : string)
| GetModelsFromHash (modelHash lang : string)
| PersistModels (models : list Model) (lang : string)
| ClassifierTrain (lang : string) (intents : list value) (modelHash : string)
| ClassifierLoad (lang : string) (models : list Model)
| ClassifierPredict (lang : string) (tokens : list string) (contexts : list string)
| TaggerTrain (lang : string) (sequences : list value)
| TaggerLoad (lang : string) (sequences : list value) (languageModel crf : value)
| TaggerExtract (lang : string) (text : string) (intentDef : value)
    (entities : list value) (tokens : list string)
| Identify (text : string)
| ExactMatch (lang : string) (text : string) (contexts : list string)
| GetIntent (intentName : string).

(** ** [init]: the confidence threshold *)

(** [this.config.confidenceTreshold]: a finite number, an infinity, or
    something [isNaN] rejects ([NaN], [undefined]). *)
Inductive Configured :=
| NotANumber
| Finite (q : Q)
| Infinity (positive : bool).

(** Lines 99-103: the threshold [init] leaves on the engine. *)
Definition init_confidenceTreshold (configured : Configured) : Q :=
  match configured with
  | NotANumber => 7 # 10
  | Infinity _ => 7 # 10
  | Finite q =>
      if Qlt_le_dec q 0 then 7 # 10
      else if Qlt_le_dec 1 q then 7 # 10
      else q
  end.

(** X3.  Whatever is configured, [init] leaves a threshold between 0 and 1 on
    the engine: the configured number when it is one in that range, 0.7
    otherwise. *)
Theorem init_confidenceTreshold_in_range (configured : Configured) :
  let t := init_confidenceTreshold configured in
  (0 <= t)%Q ∧ (t <= 1)%Q
  ∧ (configured = Finite t ∨ (t = 7 # 10 ∧ ∀ q, configured = Finite q → (q < 0)%Q ∨ (1 < q)%Q)).
Proof.
  destruct configured as [|q|positive]; simpl.
  - split_and!; [done..|]. right. split; [done|]. intros q [=].
  - destruct (Qlt_le_dec q 0) as [Hlt|Hle].
    + split_and!; [done..|]. right. split; [done|]. intros q' [= <-]. by left.
    + destruct (Qlt_le_dec 1 q) as [Hlt'|Hle'].
      * split_and!; [done..|]. right. split; [done|]. intros q' [= <-]. by right.
      * split_and!; [done..|]. by left.
  - split_and!; [done..|]. right. split; [done|]. intros q [=].
Qed.

(** [export const MIN_NB_UTTERANCES = 3] *)
Definition MIN_NB_UTTERANCES : nat := 3.

(** [intent.utterances] of an [IntentDefinition]: an object that maps a
    language to an array of strings. *)
Definition utterances (intent : value) : list (string * value) :=
  match prop "utterances" intent with
  | Some (JObject members) => members
  | _ => []
  end.

(** [intent.utterances[lang] || []] *)
Definition utterances_in (lang : string) (intent : value) : list value :=
  match prop lang (JObject (utterances intent)) with
  | Some (JArray us) => us
  | _ => []
  end.

(** [_.uniq]: the first occurrence of each element, in order. *)
Definition uniq (l : list string) : list string :=
  fold_left (fun acc x => if decide (x ∈ acc) then acc else acc ++ [x]) l [].

(** [getTrainingLanguages] *)
Definition getTrainingLanguages (intents : list value) : list string :=
  uniq (flat_map
          (fun intent =>
             List.filter
               (fun lang => Nat.leb MIN_NB_UTTERANCES (length (utterances_in lang intent)))
               (fst <$> utterances intent))
          intents).

(** [_.orderBy(models, m => m.meta.created_on, 'desc')], a stable sort. *)
Fixpoint insert_desc (m : Model) (sorted : list Model) : list Model :=
  match sorted with
  | [] => [m]
  | m' :: rest =>
      if Z.ltb (created_on (meta m)) (created_on (meta m'))
      then m' :: insert_desc m rest
      else m :: sorted
  end.

Definition orderBy_created_on_desc (models : list Model) : list Model :=
  fold_right insert_desc [] models.

(** [_.uniqBy(models, key)]: the first model of each key. *)
Definition uniqBy (key : Model → string) (models : list Model) : list Model :=
  fold_left
    (fun acc m => if decide (key m ∈ key <$> acc) then acc else acc ++ [m])
    models [].

Definition model_key (m : Model) : string :=
  hash (meta m) +:+ " " +:+ type (meta m) +:+ " " +:+ context (meta m).

(** A string between double quotes, as the error messages have it. *)
Definition in_quotes (s : string) : string :=
  String dquote (s +:+ String dquote "").

(** ** Which languages are trained, and which models are loaded *)

Lemma uniq_from_spec (l acc : list string) :
  NoDup acc →
  let u := fold_left (fun acc x => if decide (x ∈ acc) then acc else acc ++ [x]) l acc in
  NoDup u ∧ ∀ x, x ∈ u ↔ x ∈ acc ∨ x ∈ l.
Proof.
  revert acc. induction l as [|y l IH]; intros acc Hacc; simpl.
  - split; [done|]. intros x. rewrite elem_of_nil. tauto.
  - destruct (decide (y ∈ acc)) as [Hy|Hy].
    + destruct (IH acc Hacc) as [Hn Hm]. split; [done|].
      intros x. rewrite Hm, elem_of_cons. split; [tauto|].
      intros [?|[->|?]]; tauto.
    + destruct (IH (acc ++ [y])) as [Hn Hm].
      { apply NoDup_app. split_and!; [done| |apply NoDup_singleton].
        intros x Hx Hx'. apply list_elem_of_singleton in Hx'. by subst. }
      split; [done|]. intros x.
      rewrite Hm, elem_of_app, list_elem_of_singleton, elem_of_cons. tauto.
Qed.

Lemma uniq_NoDup l : NoDup (uniq l).
Proof. apply (uniq_from_spec l []). constructor. Qed.

Lemma elem_of_uniq l x : x ∈ uniq l ↔ x ∈ l.
Proof.
  destruct (uniq_from_spec l [] (NoDup_nil_2)) as [_ H]. unfold uniq. rewrite H.
  rewrite elem_of_nil. tauto.
Qed.

(** X4.  The languages [loadModels] goes through: each once, and exactly the
    languages for which some intent lists at least [MIN_NB_UTTERANCES]
    utterances. *)
Theorem getTrainingLanguages_spec (intents : list value) :
  NoDup (getTrainingLanguages intents)
  ∧ ∀ lang,
      lang ∈ getTrainingLanguages intents
      ↔ ∃ intent,
          intent ∈ intents
          ∧ lang ∈ (fst <$> utterances intent)
          ∧ (MIN_NB_UTTERANCES ≤ length (utterances_in lang intent))%nat.
Proof.
  split; [apply uniq_NoDup|]. intros lang. unfold getTrainingLanguages.
  rewrite elem_of_uniq, list_elem_of_In, in_flat_map. split.
  - intros (intent & Hi & Hl). apply filter_In in Hl as [Hl Hn].
    exists intent. rewrite !list_elem_of_In. split_and!; [done|done|].
    by apply Nat.leb_le.
  - intros (intent & Hi & Hl & Hn). exists intent. rewrite <- list_elem_of_In.
    split; [done|]. apply filter_In. rewrite <- list_elem_of_In.
    split; [done|]. by apply Nat.leb_le.
Qed.

(** Newest first. *)
Definition newer_or_same (a b : Model) : Prop :=
  (created_on (meta b) ≤ created_on (meta a))%Z.

Lemma insert_desc_perm m sorted : insert_desc m sorted ≡ₚ m :: sorted.
Proof.
  induction sorted as [|m' rest IH]; simpl; [done|].
  case_match; [|done]. rewrite IH. apply perm_swap.
Qed.

Lemma orderBy_created_on_desc_perm models : orderBy_created_on_desc models ≡ₚ models.
Proof.
  induction models as [|m models IH]; simpl; [done|].
  rewrite insert_desc_perm. by rewrite IH.
Qed.

Lemma insert_desc_sorted m sorted :
  StronglySorted newer_or_same sorted → StronglySorted newer_or_same (insert_desc m sorted).
Proof.
  induction 1 as [|m' rest Hs IH Hall]; simpl.
  - repeat constructor.
  - destruct (Z.ltb_spec (created_on (meta m)) (created_on (meta m'))) as [Hlt|Hge].
    + constructor; [done|]. rewrite insert_desc_perm. constructor; [|done].
      unfold newer_or_same. lia.
    + constructor; [by constructor|]. constructor; [done|].
      eapply Forall_impl; [exact Hall|]. unfold newer_or_same. intros; simpl in *. lia.
Qed.

Lemma orderBy_created_on_desc_sorted models :
  StronglySorted newer_or_same (orderBy_created_on_desc models).
Proof.
  induction models as [|m models IH]; simpl; [constructor|].
  by apply insert_desc_sorted.
Qed.

(** [uniqBy] on a list sorted newest first keeps, for each key, a model no
    older than any other model of that key. *)
Lemma uniqBy_from_spec (key : Model → string) (rest acc processed : list Model) :
  StronglySorted newer_or_same (processed ++ rest) →
  NoDup (key <$> acc) →
  (∀ m, m ∈ acc → m ∈ processed) →
  (∀ m', m' ∈ processed → ∃ m, m ∈ acc ∧ key m = key m' ∧ newer_or_same m m') →
  let u := fold_left
             (fun acc m => if decide (key m ∈ key <$> acc) then acc else acc ++ [m])
             rest acc in
  NoDup (key <$> u)
  ∧ (∀ m, m ∈ u → m ∈ processed ++ rest)
  ∧ (∀ m', m' ∈ processed ++ rest → ∃ m, m ∈ u ∧ key m = key m' ∧ newer_or_same m m').
Proof.
  revert acc processed. induction rest as [|x rest IH]; intros acc processed Hs Hn Hsub Hrep.
  - simpl. rewrite app_nil_r. done.
  - simpl. replace (processed ++ x :: rest) with ((processed ++ [x]) ++ rest) in *
      by (by rewrite <- app_assoc).
    assert (∀ m, m ∈ processed → newer_or_same m x) as Hx.
    { intros m Hm. apply StronglySorted_app_1_l in Hs.
      eapply StronglySorted_app_1_elem_of; [exact Hs|done|].
      by apply list_elem_of_singleton. }
    destruct (decide (key x ∈ key <$> acc)) as [Hk|Hk].
    + apply IH; [done|done| |].
      * intros m Hm. rewrite elem_of_app. left. by apply Hsub.
      * intros m'. rewrite elem_of_app, list_elem_of_singleton. intros [Hm'| ->]; [by apply Hrep|].
        apply list_elem_of_fmap in Hk as (m & Hkm & Hm). exists m. split_and!; [done|done|].
        apply Hx. by apply Hsub.
    + apply IH; [done| | |].
      * rewrite fmap_app. apply NoDup_app. split_and!; [done| |apply NoDup_singleton].
        intros k Hk1 Hk2. simpl in Hk2. apply list_elem_of_singleton in Hk2. by subst.
      * intros m. rewrite !elem_of_app. intros [Hm|Hm]; [left; by apply Hsub|by right].
      * intros m'. rewrite elem_of_app, list_elem_of_singleton. intros [Hm'| ->].
        -- destruct (Hrep m' Hm') as (m & Hm & Hkm & Hnew). exists m.
           rewrite elem_of_app. tauto.
        -- exists x. rewrite elem_of_app, list_elem_of_singleton.
           split_and!; [by right|done|]. unfold newer_or_same. lia.
Qed.

Lemma same_key_same_model (key : Model → string) (u : list Model) m1 m2 :
  NoDup (key <$> u) → m1 ∈ u → m2 ∈ u → key m1 = key m2 → m1 = m2.
Proof.
  induction u as [|x u IH]; simpl; intros Hn H1 H2 Hk; [by apply elem_of_nil in H1|].
  apply NoDup_cons in Hn as [Hx Hn].
  apply elem_of_cons in H1 as [->|H1], H2 as [->|H2]; [done| | |by apply IH].
  - destruct Hx. rewrite Hk. by apply list_elem_of_fmap_2.
  - destruct Hx. rewrite <- Hk. by apply list_elem_of_fmap_2.
Qed.

(** ** The training/caching orchestrator: [trainOrLoad] *)

(** A promise as [Array.prototype.every] sees it. *)
Inductive Promise (A : Type) :=
| Settles (c : completion A).
Arguments Settles {A} c.

(** [_.identity] under [every]: a promise is an object, so it is truthy
    whatever it settles to. *)
Definition truthy_promise {A} (p : Promise A) : bool := true.

Section Orchestrator.

(** The Model Store and the intent source ([Storage]), the learners
    ([SVMClassifier], [CRFExtractor]), the training-sequence generator,
    the three [MODEL_TYPES] and the reading of [Date.now()] in
    [_makeModel] are outside the engine: they are parameters. *)
Context {Store : Type}.
Variable storage_getIntents : Store → completion (list value).
Variable storage_modelExists : Store → string → string → completion bool.
Variable storage_getModelsFromHash : Store → string → string → completion (list Model).
Variable storage_persistModels : Store → list Model → string → completion Store.
Variable classifier_train : string → list value → string → completion (list Model).
Variable classifier_load : string → list Model → completion unit.
Variable tagger_train : string → list value → completion (option value * option value).
Variable tagger_load : string → list value → value → value → completion unit.
Variable generateTrainingSequence : value → string → option value → option value → completion value.
Variable MODEL_TYPES_INTENT : list string.
Variable MODEL_TYPES_SLOT_LANG MODEL_TYPES_SLOT_CRF : string.
Variable now : Z.

(** The engine, the store behind [this.storage] and the calls made. *)
Record World := mkWorld {
  engine : Engine;
  store : Store;
  log : list Call
}.

Definition on_engine (f : Engine → Engine) (w : World) : World :=
  {| engine := f (engine w); store := store w; log := log w |}.

Definition set_store (st : Store) (w : World) : World :=
  {| engine := engine w; store := st; log := log w |}.

Definition call (c : Call) : Eff World unit :=
  modify (fun w => {| engine := engine w; store := store w; log := log w ++ [c] |}).

(** [Promise.all(...)] over the sequences of one intent, then of all. *)
Fixpoint all_of {A B} (f : A → completion B) (xs : list A) : completion (list B) :=
  match xs with
  | [] => Normal []
  | x :: xs' =>
      match f x with
      | Thrown e => Thrown e
      | Normal y =>
          match all_of f xs' with
          | Thrown e => Thrown e
          | Normal ys => Normal (y :: ys)
          end
      end
  end.

(** [generateTrainingSequenceFromIntent(lang)(intent)] *)
Definition generateTrainingSequenceFromIntent (lang : string) (intent : value)
  : completion (list value) :=
  all_of (fun utterance =>
            generateTrainingSequence utterance lang (prop "slots" intent) (prop "name" intent))
         (utterances_in lang intent).

(** [getTrainingSets]: the sequences of every intent, flattened. *)
Definition getTrainingSets (intentDefs : list value) (lang : string)
  : completion (list value) :=
  match all_of (generateTrainingSequenceFromIntent lang) intentDefs with
  | Thrown e => Thrown e
  | Normal seqs => Normal (concat seqs)
  end.

Definition is_intent_model (m : Model) : bool :=
  bool_decide (type (meta m) ∈ MODEL_TYPES_INTENT).

Definition has_type (t : string) (m : Model) : bool :=
  String.eqb (type (meta m)) t.

(** The body of the loop of [loadModels] for one language.  The
    classifier and the tagger of a language exist when the engine is
    configured for it (the constructor makes them for [this.languages]);
    for another language [this.intentClassifiers[lang]] is [undefined]
    and the call of its [load] throws, after the exact matcher was set. *)
Definition loadModels_lang (intents : list value) (modelHash lang : string)
  : Eff World unit :=
  call (GetModelsFromHash modelHash lang) ;;;
  w <- get_state ;;
  models <- lift (storage_getModelsFromHash (store w) modelHash lang) ;;
  let intentModels :=
    uniqBy model_key (orderBy_created_on_desc (List.filter is_intent_model models)) in
  let skipgramModel := find (has_type MODEL_TYPES_SLOT_LANG) models in
  let crfModel := find (has_type MODEL_TYPES_SLOT_CRF) models in
  match skipgramModel, crfModel, intentModels with
  | None, _, _ =>
      throw ("Could not find skipgram model for slot tagging. Hash = "
             +:+ in_quotes modelHash)
  | Some _, None, _ =>
      throw ("Could not find CRF model for slot tagging. Hash = " +:+ in_quotes modelHash)
  | Some _, Some _, [] =>
      throw ("Could not find intent models. Hash = " +:+ in_quotes modelHash)
  | Some skipgram, Some crf, _ :: _ =>
      trainingSet <- lift (getTrainingSets intents lang) ;;
      modify (on_engine (set_exactIntentMatcher lang (mkExactMatcher trainingSet))) ;;;
      if bool_decide (lang ∈ languages (engine w)) then
        call (ClassifierLoad lang intentModels) ;;;
        lift (classifier_load lang intentModels) ;;;
        call (TaggerLoad lang trainingSet (model skipgram) (model crf)) ;;;
        lift (tagger_load lang trainingSet (model skipgram) (model crf))
      else throw "TypeError: Cannot read property 'load' of undefined"
  end.

Definition loadModels (intents : list value) (modelHash : string) : Eff World unit :=
  call (LogDebug ("Restoring models '" +:+ modelHash +:+ "' from storage")) ;;;
  for_of (getTrainingLanguages intents) (loadModels_lang intents modelHash) ;;;
  call (LogDebug ("Done restoring models '" +:+ modelHash +:+ "' from storage")).

Definition _makeModel (ctx modelHash : string) (payload : value) (ty : string) : Model :=
  {| meta := {| context := ctx; created_on := now; hash := modelHash;
                type := ty; scope := "bot" |};
     model := payload |}.

Definition _trainSlotTagger (intentDefs : list value) (modelHash lang : string)
  : Eff World (list Model) :=
  call (LogDebug "Training slot tagger") ;;;
  try_catch
    (trainingSet <- lift (getTrainingSets intentDefs lang) ;;
     call (TaggerTrain lang trainingSet) ;;;
     trained <- lift (tagger_train lang trainingSet) ;;
     call (LogDebug "Done training slot tagger") ;;;
     ret (match trained with
          | (Some language, Some crf) =>
              [ _makeModel "global" modelHash language MODEL_TYPES_SLOT_LANG;
                _makeModel "global" modelHash crf MODEL_TYPES_SLOT_CRF ]
          | _ => []
          end))
    (fun err =>
       call (LogError "Error training slot tagger") ;;;
       throw "Unable to train model").

(** The body of the loop of [trainModels]: one language, whose failure
    is logged and goes no further. *)
Definition trainModels_lang (intentDefs : list value) (modelHash lang : string)
  : Eff World unit :=
  try_catch
    (let trainableIntents :=
       List.filter
         (fun i => Nat.leb MIN_NB_UTTERANCES (length (utterances_in lang i))) intentDefs in
     match trainableIntents with
     | [] => ret tt
     | _ :: _ =>
         call (ClassifierTrain lang trainableIntents modelHash) ;;;
         ctx_intent_models <- lift (classifier_train lang trainableIntents modelHash) ;;
         slotTaggerModels <- _trainSlotTagger trainableIntents modelHash lang ;;
         call (PersistModels (slotTaggerModels ++ ctx_intent_models) lang) ;;;
         w <- get_state ;;
         st <- lift (storage_persistModels (store w)
                       (slotTaggerModels ++ ctx_intent_models) lang) ;;
         modify (set_store st)
     end)
    (fun err => call (LogError "Error training NLU model")).

Definition trainModels (intentDefs : list value) (modelHash : string) : Eff World unit :=
  w <- get_state ;;
  for_of (languages (engine w)) (trainModels_lang intentDefs modelHash).

(** [this.languages.map(async lang => await this.storage.modelExists(modelHash, lang))]:
    the store is asked once per language, and the array holds the
    promises of the answers. *)
Fixpoint modelExists_promises (modelHash : string) (langs : list string)
  : Eff World (list (Promise bool)) :=
  match langs with
  | [] => ret []
  | lang :: langs' =>
      call (ModelExists modelHash lang) ;;;
      w <- get_state ;;
      ps <- modelExists_promises modelHash langs' ;;
      ret (Settles (storage_modelExists (store w) modelHash lang) :: ps)
  end.

(** The [try] block of [trainOrLoad] after [this._isSyncing = true]. *)
Definition sync (forceRetrain : bool) : Eff World unit :=
  call GetIntents ;;;
  w <- get_state ;;
  intents <- lift (storage_getIntents (store w)) ;;
  let modelHash := computeModelHash intents in
  promises <- modelExists_promises modelHash (languages (engine w)) ;;
  let modelsExists := forallb truthy_promise promises in
  loaded <-
    (if negb forceRetrain && modelsExists
     then try_catch
            (loadModels intents modelHash ;;; ret true)
            (fun e => call (LogWarn "Could not load models from storage") ;;; ret false)
     else ret false) ;;
  (if negb loaded
   then call (LogDebug "Retraining model") ;;;
        trainModels intents modelHash ;;;
        call (LogDebug "Reloading models") ;;;
        loadModels intents modelHash
   else ret tt) ;;;
  modify (on_engine (set_synced modelHash)).

(** The [try]/[catch] of [trainOrLoad]: whatever [sync] throws is logged. *)
Definition sync_caught (forceRetrain : bool) : Eff World unit :=
  try_catch (sync forceRetrain) (fun e => call (LogError "Could not sync model")).

(** *** [trainOrLoad] among concurrent callers

    The method is cut where it yields.  [Invoke] is a call of
    [trainOrLoad]: it runs up to the early [return] or up to the first
    [await].  [Settle] is the rest of the cycle in flight, from the
    first [await] through the [finally] block.  The cycle only yields
    to other calls of [trainOrLoad], which touch no more than
    [_isSyncingTwice], a field the cycle reads in [finally] only; so
    the rest of the cycle is taken as one step. *)
Inductive event :=
| Invoke (forceRetrain : bool)
| Settle.

(** What callers see: a cycle starting with the given [forceRetrain], or
    the promise of a call being fulfilled with a value ([None] is
    [undefined]). *)
Inductive observation :=
| Started (forceRetrain : bool)
| Returned (v : option string).

(** The world and the argument of the cycle in flight, if any. *)
Record Running := mkRunning {
  world : World;
  in_flight : option bool
}.

(** Lines 130-136: the early return, or the start of a cycle. *)
Definition enter (forceRetrain : bool) (r : Running) : Running * list observation :=
  if _isSyncing (engine (world r))
  then ({| world := on_engine (set_isSyncingTwice true) (world r);
           in_flight := in_flight r |},
        [Returned None])
  else ({| world := on_engine (set_isSyncing true) (world r);
           in_flight := Some forceRetrain |},
        [Started forceRetrain]).

(** Lines 137-174: the cycle, its [catch], its [finally], and the final
    [return] when [finally] did not return first.  The nested
    [this.trainOrLoad()] starts the follow-up cycle, whose promise the
    caller of the first cycle now waits for. *)
Definition settle (forceRetrain : bool) (r : Running) : Running * list observation :=
  let w1 := snd (sync_caught forceRetrain (world r)) in
  let w2 := on_engine (set_isSyncing false) w1 in
  if _isSyncingTwice (engine w2)
  then enter false {| world := on_engine (set_isSyncingTwice false) w2;
                      in_flight := None |}
  else ({| world := w2; in_flight := None |},
        [Returned (_currentModelHash (engine w2))]).

Definition step (r : Running) (ev : event) : option (Running * list observation) :=
  match ev with
  | Invoke forceRetrain => Some (enter forceRetrain r)
  | Settle =>
      match in_flight r with
      | Some forceRetrain => Some (settle forceRetrain r)
      | None => None
      end
  end.

Fixpoint run (r : Running) (evs : list event) : option (Running * list observation) :=
  match evs with
  | [] => Some (r, [])
  | ev :: evs' =>
      match step r ev with
      | None => None
      | Some (r', obs) =>
          match run r' evs' with
          | None => None
          | Some (r'', obs') => Some (r'', obs ++ obs')
          end
      end
  end.

Definition is_start (o : observation) : bool :=
  match o with
  | Started _ => true
  | Returned _ => false
  end.

(** The number of sync cycles started. *)
Definition cycles (obs : list observation) : nat :=
  length (List.filter is_start obs).

(** *** What a cycle leaves alone

    Nothing the cycle does between its first [await] and its [finally]
    writes [_isSyncing] or [_isSyncingTwice]; and before its last two
    assignments it writes neither [_currentModelHash] nor [_preloaded]. *)

Definition flags (e : Engine) : bool * bool :=
  (_isSyncing e, _isSyncingTwice e).

Definition current (e : Engine) : option string * bool :=
  (_currentModelHash e, _preloaded e).

(** [m] leaves a view of the engine as it found it. *)
Definition keeps {X A} (view : Engine → X) (m : Eff World A) : Prop :=
  ∀ w, view (engine (snd (m w))) = view (engine w).

(** [m] leaves the view as it found it when it throws. *)
Definition keeps_when_thrown {X A} (view : Engine → X) (m : Eff World A) : Prop :=
  ∀ w e w', m w = (Thrown e, w') → view (engine w') = view (engine w).

Section Frame.
Context {X : Type} (view : Engine → X).
Hypothesis view_matcher : ∀ lang m e, view (set_exactIntentMatcher lang m e) = view e.

Lemma keeps_ret {A} (a : A) : keeps view (ret a).
Proof. by intros w. Qed.

Lemma keeps_throw {A} e : keeps view (throw (A := A) e).
Proof. by intros w. Qed.

Lemma keeps_lift {A} (c : completion A) : keeps view (lift c).
Proof. by intros w. Qed.

Lemma keeps_get_state : keeps view get_state.
Proof. by intros w. Qed.

Lemma keeps_call c : keeps view (call c).
Proof. by intros w. Qed.

Lemma keeps_modify (f : World → World) :
  (∀ w, view (engine (f w)) = view (engine w)) → keeps view (modify f).
Proof. intros H w. apply H. Qed.

Lemma keeps_bind {A B} (m : Eff World A) (k : A → Eff World B) :
  keeps view m → (∀ a, keeps view (k a)) → keeps view (bind m k).
Proof.
  intros Hm Hk w. unfold bind. specialize (Hm w).
  destruct (m w) as [[a|e] w']; simpl in *; [|done].
  rewrite <- Hm. apply Hk.
Qed.

Lemma keeps_try_catch {A} (m : Eff World A) (h : string → Eff World A) :
  keeps view m → (∀ e, keeps view (h e)) → keeps view (try_catch m h).
Proof.
  intros Hm Hh w. unfold try_catch. specialize (Hm w).
  destruct (m w) as [[a|e] w']; simpl in *; [done|].
  rewrite <- Hm. apply Hh.
Qed.

Lemma keeps_for_of {A} (xs : list A) (body : A → Eff World unit) :
  (∀ x, keeps view (body x)) → keeps view (for_of xs body).
Proof.
  intros Hb. induction xs as [|x xs IH]; simpl; [apply keeps_ret|].
  apply keeps_bind; auto.
Qed.

Ltac keeps_step :=
  first
    [ apply keeps_ret | apply keeps_throw | apply keeps_lift | apply keeps_get_state
    | apply keeps_call | apply keeps_for_of | apply keeps_bind | apply keeps_try_catch
    | apply keeps_modify; intros ?; first [reflexivity | apply view_matcher]
    | lazymatch goal with |- ∀ _, _ => intro end
    | case_match ].

Lemma keeps_loadModels intents modelHash : keeps view (loadModels intents modelHash).
Proof. unfold loadModels, loadModels_lang. repeat keeps_step. Qed.

Lemma keeps_trainModels intentDefs modelHash : keeps view (trainModels intentDefs modelHash).
Proof. unfold trainModels, trainModels_lang, _trainSlotTagger. repeat keeps_step. Qed.

Lemma keeps_modelExists_promises modelHash langs :
  keeps view (modelExists_promises modelHash langs).
Proof. induction langs as [|lang langs IH]; simpl; repeat keeps_step. apply IH. Qed.

End Frame.

Ltac keeps_all :=
  repeat first
    [ apply keeps_loadModels | apply keeps_trainModels | apply keeps_modelExists_promises
    | apply keeps_ret | apply keeps_throw | apply keeps_lift | apply keeps_get_state
    | apply keeps_call | apply keeps_for_of | apply keeps_bind | apply keeps_try_catch
    | apply keeps_modify; intros ?; reflexivity
    | lazymatch goal with |- ∀ _, _ => intro end
    | case_match
    | done ].

Lemma keeps_sync_caught forceRetrain : keeps flags (sync_caught forceRetrain).
Proof. unfold sync_caught, sync. keeps_all. Qed.

(** The [catch] of [trainOrLoad] lets nothing through: the cycle always
    completes normally, which is why [settle] only looks at the world
    it leaves. *)
Lemma sync_caught_normal forceRetrain w :
  fst (sync_caught forceRetrain w) = Normal tt.
Proof.
  unfold sync_caught, try_catch.
  destruct (sync forceRetrain w) as [[[]|e] w']; done.
Qed.

(** *** Coalescing *)

(** No cycle in flight and no follow-up asked for. *)
Definition idle (r : Running) : Prop :=
  _isSyncing (engine (world r)) = false
  ∧ _isSyncingTwice (engine (world r)) = false
  ∧ in_flight r = None.

Lemma run_app r evs1 evs2 :
  run r (evs1 ++ evs2)
  = match run r evs1 with
    | None => None
    | Some (r', obs) =>
        match run r' evs2 with
        | None => None
        | Some (r'', obs') => Some (r'', obs ++ obs')
        end
    end.
Proof.
  revert r. induction evs1 as [|ev evs1 IH]; intros r; simpl.
  - by destruct (run r evs2) as [[??]|].
  - destruct (step r ev) as [[r1 o1]|]; [|done]. rewrite IH.
    destruct (run r1 evs1) as [[r2 o2]|]; [|done].
    destruct (run r2 evs2) as [[r3 o3]|]; [|done]. by rewrite app_assoc.
Qed.

(** Calls that find a cycle in flight: each returns [undefined] at once,
    and all they leave behind is the one flag. *)
Lemma run_invokes_in_flight r (calls : list bool) :
  _isSyncing (engine (world r)) = true →
  ∃ r', run r (Invoke <$> calls) = Some (r', replicate (length calls) (Returned None))
        ∧ _isSyncing (engine (world r')) = true
        ∧ in_flight r' = in_flight r
        ∧ _isSyncingTwice (engine (world r'))
          = match calls with [] => _isSyncingTwice (engine (world r)) | _ => true end.
Proof.
  revert r. induction calls as [|f calls IH]; intros r Hs.
  - simpl. eauto.
  - rewrite fmap_cons. cbn [run step length replicate]. unfold enter. rewrite Hs.
    destruct (IH {| world := on_engine (set_isSyncingTwice true) (world r);
                    in_flight := in_flight r |}) as (r' & -> & Hs' & Hf & Ht); [done|].
    exists r'. split_and!; [done|done|done|]. rewrite Ht. by destruct calls.
Qed.

Lemma no_start_in_returns n v :
  List.filter is_start (replicate n (Returned v)) = [].
Proof. induction n as [|n IHn]; simpl; auto. Qed.

Lemma settle_follow_up forceRetrain r :
  _isSyncingTwice (engine (world r)) = true →
  ∃ r', settle forceRetrain r = (r', [Started false])
        ∧ _isSyncing (engine (world r')) = true
        ∧ _isSyncingTwice (engine (world r')) = false
        ∧ in_flight r' = Some false.
Proof.
  intros Ht. unfold settle.
  assert (Ht' := keeps_sync_caught forceRetrain (world r)).
  injection Ht' as _ Ht'.
  simpl. rewrite Ht', Ht. unfold enter. simpl. eauto.
Qed.

Lemma settle_done forceRetrain r :
  _isSyncingTwice (engine (world r)) = false →
  ∃ r', settle forceRetrain r = (r', [Returned (_currentModelHash (engine (world r')))])
        ∧ idle r'.
Proof.
  intros Ht. unfold settle.
  assert (Ht' := keeps_sync_caught forceRetrain (world r)).
  injection Ht' as _ Ht'.
  simpl. rewrite Ht', Ht.
  exists {| world := on_engine (set_isSyncing false)
                       (snd (sync_caught forceRetrain (world r)));
            in_flight := None |}.
  split; [reflexivity|].
  split_and!; simpl; [done| |done]. by rewrite Ht'.
Qed.

(** C1. While a cycle is in flight, each further call of [trainOrLoad]
    returns at once ([undefined]) and starts nothing; together the calls
    cause one follow-up cycle, which starts when the cycle in flight
    completes.  With one call or with many, two cycles are started in
    all, and when the second completes nothing is left pending: the
    engine is idle and there is no cycle left to settle. *)
Theorem trainOrLoad_coalesces (r : Running) (first : bool) (calls : list bool) :
  idle r → calls ≠ [] →
  ∃ r' obs,
    run r (Invoke first :: (Invoke <$> calls) ++ [Settle; Settle]) = Some (r', obs)
    ∧ obs = Started first
            :: replicate (length calls) (Returned None)
            ++ [Started false; Returned (_currentModelHash (engine (world r')))]
    ∧ cycles obs = 2%nat
    ∧ idle r'
    ∧ step r' Settle = None.
Proof.
  intros (Hs & Ht & Hf) Hcalls.
  cbn [run step]. unfold enter at 1. rewrite Hs.
  set (r1 := {| world := on_engine (set_isSyncing true) (world r);
                in_flight := Some first |}).
  destruct (run_invokes_in_flight r1 calls) as (r2 & Hrun & Hs2 & Hf2 & Ht2); [done|].
  rewrite run_app, Hrun. cbn [run step]. rewrite Hf2. cbn [in_flight r1].
  destruct (settle_follow_up first r2) as (r3 & -> & Hs3 & Ht3 & Hf3).
  { rewrite Ht2. by destruct calls. }
  rewrite Hf3.
  destruct (settle_done false r3 Ht3) as (r4 & -> & Hidle).
  exists r4. eexists. split; [done|]. split_and!.
  - done.
  - unfold cycles. simpl. rewrite List.filter_app, length_app. simpl.
    by rewrite no_start_in_returns.
  - done.
  - destruct Hidle as (_ & _ & Hf4). simpl. by rewrite Hf4.
Qed.

(** *** When a cycle loads and when it trains *)

(** [modelsExists] is true whatever the store answered. *)
Lemma modelsExists_true (promises : list (Promise bool)) :
  forallb truthy_promise promises = true.
Proof. by induction promises. Qed.

Definition logged (cs : list Call) (w : World) : World :=
  {| engine := engine w; store := store w; log := log w ++ cs |}.

Lemma modelExists_promises_spec modelHash langs w :
  modelExists_promises modelHash langs w
  = (Normal ((fun lang => Settles (storage_modelExists (store w) modelHash lang)) <$> langs),
     logged (ModelExists modelHash <$> langs) w).
Proof.
  revert w. induction langs as [|lang langs IH]; intros w.
  - unfold logged. simpl. rewrite app_nil_r. by destruct w.
  - cbn [modelExists_promises]. unfold bind, call, modify, get_state, ret.
    rewrite IH. unfold logged. simpl. by rewrite <- app_assoc.
Qed.

(** What remains of the cycle once the intents are read and the store
    has been asked about each language. *)
Definition load_or_train (forceRetrain : bool) (intents : list value) : Eff World unit :=
  let modelHash := computeModelHash intents in
  loaded <-
    (if negb forceRetrain
     then try_catch
            (loadModels intents modelHash ;;; ret true)
            (fun e => call (LogWarn "Could not load models from storage") ;;; ret false)
     else ret false) ;;
  (if negb loaded
   then call (LogDebug "Retraining model") ;;;
        trainModels intents modelHash ;;;
        call (LogDebug "Reloading models") ;;;
        loadModels intents modelHash
   else ret tt) ;;;
  modify (on_engine (set_synced modelHash)).

(** The cycle asks the store whether the artifacts exist and then goes
    on without the answers: it tries to load exactly when [forceRetrain]
    is false. *)
Lemma sync_ignores_modelExists forceRetrain w intents :
  storage_getIntents (store w) = Normal intents →
  sync forceRetrain w
  = load_or_train forceRetrain intents
      (logged (GetIntents :: (ModelExists (computeModelHash intents)
                                <$> languages (engine w))) w).
Proof.
  intros Hi. unfold sync, load_or_train.
  unfold bind at 1. unfold call at 1, modify at 1.
  unfold bind at 1. unfold get_state at 1.
  unfold bind at 1. unfold lift at 1. cbn [store]. rewrite Hi.
  unfold bind at 1. rewrite modelExists_promises_spec.
  rewrite modelsExists_true, andb_true_r.
  unfold logged. cbn [engine store log]. by rewrite <- app_assoc.
Qed.

(** A failed load is not the end of the cycle: it is logged as a warning
    and the cycle retrains, then loads again. *)
Lemma load_failure_retrains intents e w w' :
  let modelHash := computeModelHash intents in
  loadModels intents modelHash w = (Thrown e, w') →
  load_or_train false intents w
  = ((call (LogDebug "Retraining model") ;;;
      trainModels intents modelHash ;;;
      call (LogDebug "Reloading models") ;;;
      loadModels intents modelHash) ;;;
     modify (on_engine (set_synced modelHash)))
      (logged [LogWarn "Could not load models from storage"] w').
Proof.
  intros modelHash Hl. unfold load_or_train. fold modelHash. cbn [negb].
  rewrite (bind_normal _ _ w false
             (logged [LogWarn "Could not load models from storage"] w')).
  - reflexivity.
  - unfold try_catch. erewrite bind_thrown by exact Hl. reflexivity.
Qed.

(** *** A cycle that fails leaves the last hash in place *)

Lemma keeps_at {X A} (view : Engine → X) (m : Eff World A) w c w' :
  keeps view m → m w = (c, w') → view (engine w') = view (engine w).
Proof. intros H E. specialize (H w). by rewrite E in H. Qed.

Lemma load_or_train_thrown forceRetrain intents w e w' :
  load_or_train forceRetrain intents w = (Thrown e, w') →
  current (engine w') = current (engine w).
Proof.
  unfold load_or_train. intros H.
  apply bind_thrown_inv in H as [H | (loaded & w1 & H1 & H)].
  { eapply keeps_at; [|exact H]. keeps_all. }
  assert (current (engine w1) = current (engine w)) as <-.
  { eapply keeps_at; [|exact H1]. keeps_all. }
  apply bind_thrown_inv in H as [H | (u & w2 & H2 & H)]; [|discriminate].
  eapply keeps_at; [|exact H]. keeps_all.
Qed.

Lemma sync_thrown forceRetrain w e w' :
  sync forceRetrain w = (Thrown e, w') →
  current (engine w') = current (engine w).
Proof.
  destruct (storage_getIntents (store w)) as [intents|e0] eqn:Hi.
  - rewrite (sync_ignores_modelExists _ _ _ Hi). intros H.
    by apply load_or_train_thrown in H.
  - unfold sync. unfold bind at 1. unfold call at 1, modify at 1.
    unfold bind at 1. unfold get_state at 1.
    unfold bind at 1. unfold lift at 1. cbn [store]. rewrite Hi.
    by intros [= _ <-].
Qed.

(** The call whose cycle fails returns the hash the engine had. *)
Lemma settle_failed forceRetrain r e w' :
  sync forceRetrain (world r) = (Thrown e, w') →
  _isSyncingTwice (engine (world r)) = false →
  snd (settle forceRetrain r) = [Returned (_currentModelHash (engine (world r)))].
Proof.
  intros Hs Ht. unfold settle.
  assert (Hf := keeps_sync_caught forceRetrain (world r)). injection Hf as _ Hf.
  cbn [engine on_engine _isSyncingTwice set_isSyncing]. rewrite Hf, Ht. cbn [snd].
  unfold sync_caught, try_catch. rewrite Hs. cbn [snd call modify engine].
  apply sync_thrown in Hs. injection Hs as Hs _. cbn [_currentModelHash set_isSyncing].
  by rewrite Hs.
Qed.

(** ** More of the orchestrator *)

(** The intent models [loadModels] hands to the classifier. *)
Definition intentModels (models : list Model) : list Model :=
  uniqBy model_key (orderBy_created_on_desc (List.filter is_intent_model models)).

(** X5.  Of the stored models of an intent type, [loadModels] keeps one for each
    (hash, type, context), and the one it keeps is no older than any other
    stored model of that key. *)
Theorem intentModels_newest (models : list Model) :
  NoDup (model_key <$> intentModels models)
  ∧ (∀ m, m ∈ intentModels models → m ∈ models ∧ is_intent_model m = true)
  ∧ (∀ m', m' ∈ models → is_intent_model m' = true →
       ∃ m, m ∈ intentModels models
            ∧ model_key m = model_key m'
            ∧ (created_on (meta m') ≤ created_on (meta m))%Z).
Proof.
  pose proof (orderBy_created_on_desc_sorted (List.filter is_intent_model models)) as Hs.
  pose proof (orderBy_created_on_desc_perm (List.filter is_intent_model models)) as Hp.
  destruct (uniqBy_from_spec model_key
              (orderBy_created_on_desc (List.filter is_intent_model models)) [] [])
    as (Hn & Hsub & Hrep); [done|constructor|done| |].
  { intros m' Hm'. by apply elem_of_nil in Hm'. }
  simpl in Hsub, Hrep. fold (uniqBy model_key) in Hn, Hsub, Hrep.
  fold (intentModels models) in Hn, Hsub, Hrep.
  split_and!; [done| |].
  - intros m Hm. apply Hsub in Hm. rewrite Hp in Hm.
    apply list_elem_of_In, filter_In in Hm as [Hm Hi]. by rewrite list_elem_of_In.
  - intros m' Hm' Hi. apply Hrep. rewrite Hp.
    apply list_elem_of_In, filter_In. by rewrite <- list_elem_of_In.
Qed.

(** *** What the steps of a cycle may do to the world *)

Section Respects.
Context (R : World → World → Prop).
Hypothesis R_refl : ∀ w, R w w.
Hypothesis R_trans : ∀ w1 w2 w3, R w1 w2 → R w2 w3 → R w1 w3.

(** [m] takes a world to a world related to it, however it completes. *)
Definition respects {A} (m : Eff World A) : Prop :=
  ∀ w, R w (snd (m w)).

Lemma respects_ret {A} (a : A) : respects (ret a).
Proof. intros w. apply R_refl. Qed.

Lemma respects_throw {A} e : respects (throw (A := A) e).
Proof. intros w. apply R_refl. Qed.

Lemma respects_lift {A} (c : completion A) : respects (lift c).
Proof. intros w. apply R_refl. Qed.

Lemma respects_get_state : respects get_state.
Proof. intros w. apply R_refl. Qed.

Lemma respects_modify (f : World → World) : (∀ w, R w (f w)) → respects (modify f).
Proof. intros H w. apply H. Qed.

Lemma respects_bind {A B} (m : Eff World A) (k : A → Eff World B) :
  respects m → (∀ a, respects (k a)) → respects (bind m k).
Proof.
  intros Hm Hk w. unfold bind. specialize (Hm w).
  destruct (m w) as [[a|e] w']; simpl in *; [|done].
  eapply R_trans; [exact Hm|apply Hk].
Qed.

Lemma respects_try_catch {A} (m : Eff World A) (h : string → Eff World A) :
  respects m → (∀ e, respects (h e)) → respects (try_catch m h).
Proof.
  intros Hm Hh w. unfold try_catch. specialize (Hm w).
  destruct (m w) as [[a|e] w']; simpl in *; [done|].
  eapply R_trans; [exact Hm|apply Hh].
Qed.

Lemma respects_for_of {A} (xs : list A) (body : A → Eff World unit) :
  (∀ x, respects (body x)) → respects (for_of xs body).
Proof.
  intros Hb. induction xs as [|x xs IH]; simpl; [apply respects_ret|].
  apply respects_bind; auto.
Qed.

End Respects.

(** The log grew by calls of one kind only. *)
Definition only_calls (allowed : Call → bool) (w w' : World) : Prop :=
  ∃ cs, log w' = log w ++ cs ∧ Forall (fun c => allowed c = true) cs.

Lemma only_calls_refl allowed w : only_calls allowed w w.
Proof. exists []. by rewrite app_nil_r. Qed.

Lemma only_calls_trans allowed w1 w2 w3 :
  only_calls allowed w1 w2 → only_calls allowed w2 w3 → only_calls allowed w1 w3.
Proof.
  intros (cs1 & E1 & F1) (cs2 & E2 & F2). exists (cs1 ++ cs2).
  rewrite E2, E1, app_assoc. split; [done|]. by apply Forall_app.
Qed.

Lemma only_calls_call (allowed : Call → bool) c w :
  allowed c = true → only_calls allowed w (snd (call c w)).
Proof. intros H. exists [c]. split; [done|]. by constructor. Qed.

(** The store and the engine are as they were. *)
Definition same_store (w w' : World) : Prop := store w' = store w.

Definition same_engine (w w' : World) : Prop := engine w' = engine w.

(** The calls of a load: the logger, the store's read, and the learners'
    [load]. *)
Definition loading_call (c : Call) : bool :=
  match c with
  | LogDebug _ | GetModelsFromHash _ _ | ClassifierLoad _ _ | TaggerLoad _ _ _ _ => true
  | _ => false
  end.

Definition loads_only (w w' : World) : Prop :=
  same_store w w' ∧ only_calls loading_call w w'.

Lemma loads_only_refl w : loads_only w w.
Proof. split; [done|apply only_calls_refl]. Qed.

Lemma loads_only_trans w1 w2 w3 : loads_only w1 w2 → loads_only w2 w3 → loads_only w1 w3.
Proof.
  intros [S1 C1] [S2 C2]. split; [unfold same_store in *; congruence|].
  by eapply only_calls_trans.
Qed.

Ltac respects_with refl trans side :=
  repeat first
    [ apply (respects_ret _ refl) | apply (respects_throw _ refl)
    | apply (respects_lift _ refl) | apply (respects_get_state _ refl)
    | apply (respects_for_of _ refl trans) | apply (respects_bind _ trans)
    | apply (respects_try_catch _ trans)
    | apply respects_modify; intros ?; side
    | lazymatch goal with |- ∀ _, _ => intro end
    | case_match ].

Lemma loadModels_loads_only (intents : list value) (modelHash : string) :
  respects loads_only (loadModels intents modelHash).
Proof.
  unfold loadModels, loadModels_lang, call.
  respects_with loads_only_refl loads_only_trans
    ltac:(split; [reflexivity | first [apply only_calls_refl | by apply only_calls_call]]).
Qed.


Lemma try_catch_normal (m : Eff World unit) (h : string → Eff World unit) w :
  (∀ e w, fst (h e w) = Normal tt) → fst (try_catch m h w) = Normal tt.
Proof.
  intros Hh. unfold try_catch. destruct (m w) as [[[]|e] w1]; [done|apply Hh].
Qed.

Lemma for_of_normal {A} (xs : list A) (body : A → Eff World unit) w :
  (∀ x w, fst (body x w) = Normal tt) → fst (for_of xs body w) = Normal tt.
Proof.
  intros Hb. revert w. induction xs as [|x xs IH]; intros w; simpl; [done|].
  unfold bind. specialize (Hb x w). destruct (body x w) as [[[]|e] w1]; simpl in Hb; [|done].
  apply IH.
Qed.

(** The calls of a training: the logger, the learners' [train] and the
    store's [persistModels]. *)
Definition training_call (c : Call) : bool :=
  match c with
  | LogDebug _ | LogError _ | ClassifierTrain _ _ _ | TaggerTrain _ _
  | PersistModels _ _ => true
  | _ => false
  end.

Definition trains_only (w w' : World) : Prop :=
  same_engine w w' ∧ only_calls training_call w w'.

Lemma trains_only_refl w : trains_only w w.
Proof. split; [done|apply only_calls_refl]. Qed.

Lemma trains_only_trans w1 w2 w3 : trains_only w1 w2 → trains_only w2 w3 → trains_only w1 w3.
Proof.
  intros [S1 C1] [S2 C2]. split; [unfold same_engine in *; congruence|].
  by eapply only_calls_trans.
Qed.

(** *** Training one language *)

(** The models [_trainSlotTagger] makes of what the tagger trained: the
    language model and the CRF model, or none when either is missing. *)
Definition slot_models (modelHash : string) (trained : option value * option value)
  : list Model :=
  match trained with
  | (Some language, Some crf) =>
      [ _makeModel "global" modelHash language MODEL_TYPES_SLOT_LANG;
        _makeModel "global" modelHash crf MODEL_TYPES_SLOT_CRF ]
  | _ => []
  end.

Lemma _trainSlotTagger_frame (intentDefs : list value) (modelHash lang : string)
    (w : World) :
  engine (snd (_trainSlotTagger intentDefs modelHash lang w)) = engine w
  ∧ store (snd (_trainSlotTagger intentDefs modelHash lang w)) = store w.
Proof.
  unfold _trainSlotTagger, try_catch, bind, call, modify, lift, ret, throw. simpl.
  destruct (getTrainingSets intentDefs lang) as [trainingSet|e]; simpl; [|done].
  by destruct (tagger_train lang trainingSet) as [trained|e].
Qed.

Lemma _trainSlotTagger_normal_inv (intentDefs : list value) (modelHash lang : string)
    (w w' : World) (models : list Model) :
  _trainSlotTagger intentDefs modelHash lang w = (Normal models, w') →
  ∃ trainingSet trained,
    getTrainingSets intentDefs lang = Normal trainingSet
    ∧ tagger_train lang trainingSet = Normal trained
    ∧ models = slot_models modelHash trained.
Proof.
  unfold _trainSlotTagger, try_catch, bind, call, modify, lift, ret, throw. simpl.
  destruct (getTrainingSets intentDefs lang) as [trainingSet|e]; simpl; [|done].
  destruct (tagger_train lang trainingSet) as [trained|e] eqn:Ht; simpl; [|done].
  intros [= <- <-]. exists trainingSet, trained. split_and!; [done..|].
  by destruct trained as [[language|] [crf|]].
Qed.

(** X8.  [_trainSlotTagger] touches neither the engine nor the store.  It
    returns the two slot models, or none, when the training sequences
    could be built and the tagger trained; when either failed it logs
    "Error training slot tagger" and throws "Unable to train model",
    whatever the failure was. *)
Theorem _trainSlotTagger_outcome (intentDefs : list value) (modelHash lang : string)
    (w : World) :
  let r := _trainSlotTagger intentDefs modelHash lang w in
  engine (snd r) = engine w
  ∧ store (snd r) = store w
  ∧ ((∃ trainingSet trained,
        getTrainingSets intentDefs lang = Normal trainingSet
        ∧ tagger_train lang trainingSet = Normal trained
        ∧ fst r = Normal (slot_models modelHash trained)
        ∧ log (snd r)
          = log w ++ [LogDebug "Training slot tagger"; TaggerTrain lang trainingSet;
                      LogDebug "Done training slot tagger"])
     ∨ ((∃ e, getTrainingSets intentDefs lang = Thrown e
              ∨ ∃ trainingSet,
                  getTrainingSets intentDefs lang = Normal trainingSet
                  ∧ tagger_train lang trainingSet = Thrown e)
        ∧ fst r = Thrown "Unable to train model"
        ∧ last (log (snd r)) = Some (LogError "Error training slot tagger"))).
Proof.
  unfold _trainSlotTagger, try_catch, bind, call, modify, lift, ret, throw. simpl.
  destruct (getTrainingSets intentDefs lang) as [trainingSet|e] eqn:Hs; simpl.
  - destruct (tagger_train lang trainingSet) as [trained|e] eqn:Ht; simpl.
    + split_and!; [done..|]. left. exists trainingSet, trained.
      split_and!; [done..| |by rewrite <- !app_assoc].
      by destruct trained as [[language|] [crf|]].
    + split_and!; [done..|]. right. split_and!; [|done|by rewrite last_snoc].
      exists e. right. by exists trainingSet.
  - split_and!; [done..|]. right. split_and!; [|done|by rewrite last_snoc].
    exists e. by left.
Qed.

(** X9.  One turn of the loop of [trainModels] persists all the models of the
    language or none: the store is as it was, or it is what
    [persistModels] made of it when given the slot models followed by the
    intent models, all trained in this turn.  The turn completes either
    way and leaves the engine alone. *)
Theorem trainModels_lang_all_or_nothing (intentDefs : list value) (modelHash lang : string)
    (w : World) :
  let r := trainModels_lang intentDefs modelHash lang w in
  let trainableIntents :=
    List.filter (fun i => Nat.leb MIN_NB_UTTERANCES (length (utterances_in lang i)))
      intentDefs in
  fst r = Normal tt
  ∧ engine (snd r) = engine w
  ∧ (store (snd r) = store w
     ∨ ∃ ctx_intent_models trainingSet trained,
         trainableIntents ≠ []
         ∧ classifier_train lang trainableIntents modelHash = Normal ctx_intent_models
         ∧ getTrainingSets trainableIntents lang = Normal trainingSet
         ∧ tagger_train lang trainingSet = Normal trained
         ∧ storage_persistModels (store w)
             (slot_models modelHash trained ++ ctx_intent_models) lang
           = Normal (store (snd r))).
Proof.
  intros r trainableIntents.
  assert (r = trainModels_lang intentDefs modelHash lang w) as Hr by done.
  clearbody r. unfold trainModels_lang, try_catch in Hr.
  fold trainableIntents in Hr.
  destruct trainableIntents as [|i trainable]; [subst r; by auto|].
  unfold bind at 1 in Hr. unfold call at 1, modify at 1 in Hr.
  unfold bind at 1 in Hr. unfold lift at 1 in Hr.
  destruct (classifier_train lang (i :: trainable) modelHash) as [ctx_intent_models|e] eqn:Hc;
    [|subst r; by auto].
  unfold bind at 1 in Hr.
  match type of Hr with context [_trainSlotTagger ?a ?b ?c ?w1] =>
    pose proof (_trainSlotTagger_frame a b c w1) as (He & Hst);
    destruct (_trainSlotTagger a b c w1) as [[slotTaggerModels|e] w2] eqn:Ht
  end; cbn [fst snd engine store] in *;
    [|subst r; unfold call, modify; cbn [fst snd engine store]; rewrite He, Hst; by auto].
  apply _trainSlotTagger_normal_inv in Ht as (trainingSet & trained & Hs & Htr & ->).
  unfold bind, call, modify, get_state, lift in Hr. cbn [store] in Hr.
  destruct (storage_persistModels (store w2) _ lang) as [st|e] eqn:Hp;
    subst r; cbn [fst snd engine store set_store].
  - rewrite He. split_and!; [done..|]. right.
    exists ctx_intent_models, trainingSet, trained. rewrite <- Hst, Hp. by split_and!.
  - rewrite He, Hst. auto.
Qed.

Lemma trainModels_completes (intentDefs : list value) (modelHash : string) (w : World) :
  fst (trainModels intentDefs modelHash w) = Normal tt.
Proof.
  unfold trainModels, bind, get_state. apply for_of_normal.
  intros lang w1. unfold trainModels_lang. by apply try_catch_normal.
Qed.

Lemma trainModels_trains_only (intentDefs : list value) (modelHash : string) :
  respects trains_only (trainModels intentDefs modelHash).
Proof.
  unfold trainModels, trainModels_lang, _trainSlotTagger, call.
  respects_with trains_only_refl trains_only_trans
    ltac:(split; [reflexivity | first [apply only_calls_refl | by apply only_calls_call]]).
Qed.

(** X10.  [trainModels] never throws, whatever the learners and the store do:
    the failure of a language is logged and the loop goes on.  It writes no
    field of the engine and loads nothing. *)
Theorem trainModels_never_throws (intentDefs : list value) (modelHash : string) (w : World) :
  ∃ w',
    trainModels intentDefs modelHash w = (Normal tt, w')
    ∧ engine w' = engine w
    ∧ ∃ cs, log w' = log w ++ cs ∧ Forall (fun c => training_call c = true) cs.
Proof.
  pose proof (trainModels_completes intentDefs modelHash w) as Hn.
  pose proof (trainModels_trains_only intentDefs modelHash w) as Hr.
  destruct (trainModels intentDefs modelHash w) as [c w'].
  simpl in *. subst c. exists w'. destruct Hr as [He Hc]. by split_and!.
Qed.

(** *** What a load that completes has done *)

Lemma bind_normal_inv {S A B} (m : Eff S A) (k : A → Eff S B) s b s' :
  bind m k s = (Normal b, s') →
  ∃ a s1, m s = (Normal a, s1) ∧ k a s1 = (Normal b, s').
Proof.
  unfold bind. destruct (m s) as [[a|e] s1]; [|discriminate].
  intros H. by exists a, s1.
Qed.

(** The store holds the slot language model, the CRF model and at least
    one intent model. *)
Definition has_artifacts (models : list Model) : Prop :=
  is_Some (find (has_type MODEL_TYPES_SLOT_LANG) models)
  ∧ is_Some (find (has_type MODEL_TYPES_SLOT_CRF) models)
  ∧ intentModels models ≠ [].

Lemma loadModels_lang_normal intents modelHash lang w w' :
  loadModels_lang intents modelHash lang w = (Normal tt, w') →
  ∃ models ts,
    storage_getModelsFromHash (store w) modelHash lang = Normal models
    ∧ has_artifacts models
    ∧ getTrainingSets intents lang = Normal ts
    ∧ store w' = store w
    ∧ engine w' = set_exactIntentMatcher lang (mkExactMatcher ts) (engine w).
Proof.
  unfold loadModels_lang, bind, call, modify, get_state, lift, throw. cbn [store].
  destruct (storage_getModelsFromHash (store w) modelHash lang) as [models|e] eqn:Hm;
    [|discriminate].
  fold (intentModels models). unfold has_artifacts.
  destruct (find (has_type MODEL_TYPES_SLOT_LANG) models) as [skipgram|] eqn:Hsk;
    [|discriminate].
  destruct (find (has_type MODEL_TYPES_SLOT_CRF) models) as [crf|] eqn:Hcrf;
    [|discriminate].
  destruct (intentModels models) as [|im ims] eqn:Hi; [discriminate|].
  destruct (getTrainingSets intents lang) as [ts|e]; [|discriminate].
  cbn [engine]. destruct (bool_decide (lang ∈ languages (engine w))); [|discriminate].
  destruct (classifier_load lang (im :: ims)) as [[]|e]; [|discriminate].
  destruct (tagger_load lang ts (model skipgram) (model crf)) as [[]|e]; [|discriminate].
  intros [= <-]. exists models, ts. rewrite Hsk, Hcrf, Hi. by split_and!.
Qed.

Lemma for_of_loadModels_lang intents modelHash langs : ∀ w w',
  for_of langs (loadModels_lang intents modelHash) w = (Normal tt, w') →
  store w' = store w
  ∧ (∀ lang, lang ∈ langs →
       ∃ models ts,
         storage_getModelsFromHash (store w) modelHash lang = Normal models
         ∧ has_artifacts models
         ∧ getTrainingSets intents lang = Normal ts
         ∧ _exactIntentMatchers (engine w') !! lang = Some (mkExactMatcher ts))
  ∧ (∀ lang ts,
       getTrainingSets intents lang = Normal ts →
       _exactIntentMatchers (engine w) !! lang = Some (mkExactMatcher ts) →
       _exactIntentMatchers (engine w') !! lang = Some (mkExactMatcher ts))
  ∧ (∀ lang, lang ∉ langs →
       _exactIntentMatchers (engine w') !! lang = _exactIntentMatchers (engine w) !! lang).
Proof.
  induction langs as [|l ls IH]; intros w w'; simpl.
  - intros [= <-]. split_and!; [done| |done|done].
    intros lang H. by apply elem_of_nil in H.
  - intros H. apply bind_normal_inv in H as ([] & wa & Hl & Hrest).
    apply loadModels_lang_normal in Hl as (models & ts & Hm & Ha & Hts & Hsa & Hea).
    apply IH in Hrest as (Hs & Hin & Hstable & Hout).
    assert (_exactIntentMatchers (engine wa) !! l = Some (mkExactMatcher ts)) as Hla.
    { rewrite Hea. simpl. apply lookup_insert_eq. }
    split_and!.
    + congruence.
    + intros lang Hlang. apply elem_of_cons in Hlang as [->|Hlang].
      * exists models, ts. split_and!; [done|done|done|]. by apply Hstable.
      * destruct (Hin lang Hlang) as (ms & ts' & ? & ? & ? & ?).
        exists ms, ts'. rewrite <- Hsa. by split_and!.
    + intros lang ts' Hts' Hw. apply Hstable; [done|]. rewrite Hea. simpl.
      destruct (decide (l = lang)) as [->|Hne].
      * rewrite lookup_insert_eq. congruence.
      * by rewrite lookup_insert_ne.
    + intros lang Hlang. apply not_elem_of_cons in Hlang as [Hne Hlang].
      rewrite (Hout lang Hlang), Hea. simpl. by rewrite lookup_insert_ne.
Qed.

(** X7.  When [loadModels] completes, the Model Store is as it was and held,
    for every training language, the slot language model, the CRF model
    and an intent model; the engine has an exact matcher for each of these
    languages, built from the language's training set, and the matchers of
    the other languages are untouched. *)
Theorem loadModels_normal (intents : list value) (modelHash : string) (w w' : World) :
  loadModels intents modelHash w = (Normal tt, w') →
  store w' = store w
  ∧ (∀ lang, lang ∈ getTrainingLanguages intents →
       ∃ models ts,
         storage_getModelsFromHash (store w) modelHash lang = Normal models
         ∧ has_artifacts models
         ∧ getTrainingSets intents lang = Normal ts
         ∧ _exactIntentMatchers (engine w') !! lang = Some (mkExactMatcher ts))
  ∧ (∀ lang, lang ∉ getTrainingLanguages intents →
       _exactIntentMatchers (engine w') !! lang = _exactIntentMatchers (engine w) !! lang).
Proof.
  unfold loadModels. intros H.
  apply bind_normal_inv in H as ([] & w0 & H0 & H).
  apply bind_normal_inv in H as ([] & w1 & H1 & H2).
  injection H0 as <-. injection H2 as <-.
  apply for_of_loadModels_lang in H1 as (Hs & Hin & _ & Hout).
  split_and!; [done| |done]. exact Hin.
Qed.

(** *** What a cycle that completes has done *)

Lemma load_or_train_normal forceRetrain intents w w' :
  load_or_train forceRetrain intents w = (Normal tt, w') →
  ∃ wl w'',
    loadModels intents (computeModelHash intents) wl = (Normal tt, w'')
    ∧ w' = on_engine (set_synced (computeModelHash intents)) w''.
Proof.
  unfold load_or_train. intros H.
  apply bind_normal_inv in H as (loaded & w1 & H1 & H).
  apply bind_normal_inv in H as ([] & w2 & H2 & H3).
  injection H3 as <-. destruct loaded; cbn [negb] in H2.
  - injection H2 as <-. destruct forceRetrain; cbn [negb] in H1; [discriminate|].
    unfold try_catch in H1.
    destruct ((loadModels intents (computeModelHash intents) ;;; ret true) w)
      as [[b|e] wa] eqn:Hl.
    + injection H1 as -> ->. apply bind_normal_inv in Hl as ([] & wb & Hl & Hr).
      injection Hr as <-. by exists w, wb.
    + discriminate.
  - apply bind_normal_inv in H2 as ([] & wa & _ & H2).
    apply bind_normal_inv in H2 as ([] & wb & _ & H2).
    apply bind_normal_inv in H2 as ([] & wc & _ & H2).
    by exists wc, w2.
Qed.

(** X11.  When the [try] block of [trainOrLoad] completes, the engine is primed
    with the hash of the intents it read, the store it leaves holds the
    three kinds of artifact for every training language, and the engine
    has an exact matcher for each of them. *)
Theorem sync_normal (forceRetrain : bool) (intents : list value) (w w' : World) :
  storage_getIntents (store w) = Normal intents →
  sync forceRetrain w = (Normal tt, w') →
  _preloaded (engine w') = true
  ∧ _currentModelHash (engine w') = Some (computeModelHash intents)
  ∧ ∀ lang, lang ∈ getTrainingLanguages intents →
      ∃ models ts,
        storage_getModelsFromHash (store w') (computeModelHash intents) lang = Normal models
        ∧ has_artifacts models
        ∧ getTrainingSets intents lang = Normal ts
        ∧ _exactIntentMatchers (engine w') !! lang = Some (mkExactMatcher ts).
Proof.
  intros Hi H. rewrite (sync_ignores_modelExists _ _ _ Hi) in H.
  apply load_or_train_normal in H as (wl & w'' & Hl & ->).
  split_and!; [done|done|].
  unfold loadModels in Hl.
  apply bind_normal_inv in Hl as ([] & w0 & H0 & Hl).
  apply bind_normal_inv in Hl as ([] & w1 & H1 & H2).
  injection H0 as <-. injection H2 as <-.
  apply for_of_loadModels_lang in H1 as (Hs & Hin & _ & _).
  intros lang Hlang. destruct (Hin lang Hlang) as (models & ts & ? & ? & ? & ?).
  exists models, ts. cbn [store engine on_engine _exactIntentMatchers set_synced].
  rewrite Hs. by split_and!.
Qed.

(** *** [checkSyncNeeded] *)

(** What [intents.length && a && b] comes to: the number when it is 0, a
    boolean otherwise. *)
Inductive number_or_boolean :=
| JsNumber (n : nat)
| JsBoolean (b : bool).

Definition truthy (v : number_or_boolean) : bool :=
  match v with
  | JsNumber n => negb (Nat.eqb n 0)
  | JsBoolean b => b
  end.

Definition checkSyncNeeded : Eff World number_or_boolean :=
  call GetIntents ;;;
  w <- get_state ;;
  intents <- lift (storage_getIntents (store w)) ;;
  let modelHash := computeModelHash intents in
  ret (match length intents with
       | O => JsNumber 0
       | S _ =>
           JsBoolean (negb (bool_decide (_currentModelHash (engine w) = Some modelHash))
                      && negb (_isSyncing (engine w)))
       end).

(** X12.  [checkSyncNeeded] asks for no sync while a cycle is in flight, nor
    when there is no intent at all (it then answers the number 0, also on
    an engine that never synced), nor when the engine's hash is the hash
    of the stored intents. *)
Theorem checkSyncNeeded_quiet (intents : list value) (w : World) :
  storage_getIntents (store w) = Normal intents →
  _isSyncing (engine w) = true
  ∨ intents = []
  ∨ _currentModelHash (engine w) = Some (computeModelHash intents) →
  ∃ answer,
    checkSyncNeeded w = (Normal answer, logged [GetIntents] w)
    ∧ truthy answer = false
    ∧ (intents = [] → answer = JsNumber 0).
Proof.
  intros Hi Hq. unfold checkSyncNeeded, bind, call, modify, get_state, lift, ret.
  cbn [store engine]. rewrite Hi. eexists. split; [reflexivity|].
  destruct intents as [|i intents]; [done|]. cbn [length truthy].
  split; [|done]. destruct Hq as [->|[?| ->]]; [apply andb_false_r|done|].
  by rewrite bool_decide_eq_true_2.
Qed.

(** X13.  A cycle that completes settles the question: as long as the intents
    are the ones the cycle read, [checkSyncNeeded] asks for no sync. *)
Theorem sync_then_checkSyncNeeded (forceRetrain : bool) (intents : list value)
    (w w' : World) :
  storage_getIntents (store w) = Normal intents →
  sync forceRetrain w = (Normal tt, w') →
  storage_getIntents (store w') = Normal intents →
  ∃ answer,
    checkSyncNeeded w' = (Normal answer, logged [GetIntents] w')
    ∧ truthy answer = false.
Proof.
  intros Hi Hs Hi'. rewrite (sync_ignores_modelExists _ _ _ Hi) in Hs.
  apply load_or_train_normal in Hs as (wl & w'' & _ & ->).
  unfold checkSyncNeeded, bind, call, modify, get_state, lift, ret.
  cbn [store engine] in *. rewrite Hi'. eexists. split; [reflexivity|].
  destruct intents as [|i intents]; [done|]. cbn [length truthy].
  cbn [on_engine engine set_synced _currentModelHash].
  by rewrite bool_decide_eq_true_2.
Qed.

(** *** A cycle that fails *)

(** X14.  When the [try] block throws, the [catch] logs the error and the call
    completes; [_currentModelHash] and [_preloaded] are what they were, so
    the engine goes on with the models of its last good cycle. *)
Theorem sync_caught_failure (forceRetrain : bool) (e : string) (w w1 : World) :
  sync forceRetrain w = (Thrown e, w1) →
  sync_caught forceRetrain w = (Normal tt, logged [LogError "Could not sync model"] w1)
  ∧ _currentModelHash (engine w1) = _currentModelHash (engine w)
  ∧ _preloaded (engine w1) = _preloaded (engine w).
Proof.
  intros Hs. split.
  - unfold sync_caught, try_catch. by rewrite Hs.
  - apply sync_thrown in Hs. by injection Hs.
Qed.

(** *** A forced cycle *)

(** X15.  With [forceRetrain] set, the cycle does not look at the stored models
    before it has retrained: after reading the intents and asking the
    store about each language it logs "Retraining model", makes training
    calls only, logs "Reloading models", and only then loads. *)
Theorem sync_forced_retrains_first (intents : list value) (w : World) :
  storage_getIntents (store w) = Normal intents →
  ∃ trained loaded,
    log (snd (sync true w))
    = log w
      ++ GetIntents :: (ModelExists (computeModelHash intents) <$> languages (engine w))
      ++ LogDebug "Retraining model" :: trained
      ++ LogDebug "Reloading models" :: loaded
    ∧ Forall (fun c => training_call c = true) trained
    ∧ Forall (fun c => loading_call c = true) loaded.
Proof.
  intros Hi. rewrite (sync_ignores_modelExists _ _ _ Hi).
  set (w0 := logged _ w). unfold load_or_train. cbn [negb].
  unfold bind at 1. unfold ret at 1. cbn [negb].
  unfold bind at 1. unfold bind at 1. unfold call at 1, modify at 1.
  set (w1 := mkWorld _ _ _).
  unfold bind at 1.
  pose proof (trainModels_completes intents (computeModelHash intents) w1) as Hn.
  destruct (trainModels_trains_only intents (computeModelHash intents) w1)
    as (_ & trained & Ht & Ftrained).
  destruct (trainModels intents (computeModelHash intents) w1) as [c w2].
  cbn [fst snd] in Hn, Ht. subst c.
  unfold bind at 1. unfold call at 1, modify at 1.
  set (w3 := mkWorld _ _ _).
  destruct (loadModels_loads_only intents (computeModelHash intents) w3)
    as (_ & loaded & Hl & Floaded).
  exists trained, loaded. split; [|done].
  assert (log (snd (loadModels intents (computeModelHash intents) w3))
          = log w ++ GetIntents
              :: (ModelExists (computeModelHash intents) <$> languages (engine w))
              ++ LogDebug "Retraining model" :: trained
              ++ LogDebug "Reloading models" :: loaded) as <-.
  { rewrite Hl. unfold w3. cbn [log]. rewrite Ht. unfold w1, w0, logged. cbn [log].
    rewrite <- !app_assoc. simpl. by rewrite <- ?app_assoc. }
  destruct (loadModels intents (computeModelHash intents) w3) as [[[]|e] w4]; done.
Qed.

(** *** No intent at all *)

Lemma for_of_skip {A} (xs : list A) (body : A → Eff World unit) w :
  (∀ x w, body x w = (Normal tt, w)) → for_of xs body w = (Normal tt, w).
Proof.
  intros Hb. induction xs as [|x xs IH]; simpl; [done|].
  unfold bind. by rewrite Hb.
Qed.

(** X16.  With no intent in the store a cycle completes without asking a learner
    or the store for anything but the intents and the existence of
    models: the engine is primed with the hash of the empty list, has read
    no model and trained none. *)
Theorem sync_no_intent (forceRetrain : bool) (w : World) :
  storage_getIntents (store w) = Normal [] →
  let modelHash := computeModelHash [] in
  sync forceRetrain w
  = (Normal tt,
     {| engine := set_synced modelHash (engine w);
        store := store w;
        log := log w
               ++ GetIntents :: (ModelExists modelHash <$> languages (engine w))
               ++ (if forceRetrain
                   then [LogDebug "Retraining model"; LogDebug "Reloading models"]
                   else [])
               ++ [ LogDebug ("Restoring models '" +:+ modelHash +:+ "' from storage");
                    LogDebug ("Done restoring models '" +:+ modelHash +:+ "' from storage") ]
     |}).
Proof.
  intros Hi modelHash. rewrite (sync_ignores_modelExists _ _ _ Hi). fold modelHash.
  assert (∀ w, trainModels [] modelHash w = (Normal tt, w)) as Htrain.
  { intros w1. unfold trainModels, bind, get_state. by apply for_of_skip. }
  unfold load_or_train. fold modelHash. destruct forceRetrain; cbn [negb].
  - unfold bind at 1. unfold ret at 1. cbn [negb].
    unfold bind at 1. unfold bind at 1. unfold call at 1, modify at 1.
    unfold bind at 1. rewrite Htrain.
    unfold loadModels, bind, call, modify, ret, logged. simpl.
    by rewrite <- ?app_assoc.
  - unfold loadModels, try_catch, bind, call, modify, ret, logged. simpl.
    by rewrite <- ?app_assoc.
Qed.

(** *** Any interleaving of calls and completions *)

(** A cycle is in flight exactly when [_isSyncing] is set, and a follow-up
    is only asked for while one is. *)
Definition consistent (r : Running) : Prop :=
  (_isSyncing (engine (world r)) = true ↔ is_Some (in_flight r))
  ∧ (_isSyncingTwice (engine (world r)) = true → _isSyncing (engine (world r)) = true).

Definition is_invoke (ev : event) : bool :=
  match ev with
  | Invoke _ => true
  | Settle => false
  end.

Definition invokes (evs : list event) : nat := length (List.filter is_invoke evs).

Definition settles (evs : list event) : nat :=
  length (List.filter (fun ev => negb (is_invoke ev)) evs).

Definition one_if (b : bool) : nat := if b then 1%nat else 0%nat.

Definition syncing (r : Running) : bool := _isSyncing (engine (world r)).

Definition pending (r : Running) : bool := _isSyncingTwice (engine (world r)).

Lemma cycles_app obs1 obs2 : cycles (obs1 ++ obs2) = (cycles obs1 + cycles obs2)%nat.
Proof. unfold cycles. by rewrite List.filter_app, length_app. Qed.

Lemma step_counts r ev r' obs :
  consistent r → step r ev = Some (r', obs) →
  consistent r'
  ∧ (cycles obs + one_if (syncing r) = settles [ev] + one_if (syncing r'))%nat
  ∧ (cycles obs + one_if (pending r') ≤ invokes [ev] + one_if (pending r))%nat.
Proof.
  intros [Hc1 Hc2]. unfold syncing, pending in *. destruct ev as [f|]; simpl.
  - intros [= H]. unfold enter in H.
    destruct (_isSyncing (engine (world r))) eqn:Hs; injection H as <- <-; simpl.
    + rewrite Hs. split_and!; [split; simpl; [by rewrite Hs|done]|done|].
      destruct (_isSyncingTwice (engine (world r))); simpl; lia.
    + assert (_isSyncingTwice (engine (world r)) = false) as Ht.
      { destruct (_isSyncingTwice (engine (world r))); [|done]. by specialize (Hc2 eq_refl). }
      rewrite Ht. split_and!; [split; simpl; [done|done]|done|done].
  - destruct (in_flight r) as [f|] eqn:Hf; [|discriminate]. intros [= H].
    assert (_isSyncing (engine (world r)) = true) as Hs by (by apply Hc1).
    rewrite Hs. unfold settle in H.
    assert (Hk := keeps_sync_caught f (world r)). injection Hk as _ Hk.
    cbn [engine on_engine _isSyncingTwice set_isSyncing] in H. rewrite Hk in H.
    destruct (_isSyncingTwice (engine (world r))) eqn:Ht.
    + unfold enter in H. simpl in H. injection H as <- <-. simpl.
      split_and!; [split; simpl; [done|done]|done|done].
    + injection H as <- <-. simpl. rewrite Hk.
      split_and!; [split; simpl; [|by rewrite Hk]|done|done].
      split; [done|]. intros [? ?]. done.
Qed.

Lemma run_counts evs : ∀ r r' obs,
  consistent r → run r evs = Some (r', obs) →
  consistent r'
  ∧ (cycles obs + one_if (syncing r) = settles evs + one_if (syncing r'))%nat
  ∧ (cycles obs + one_if (pending r') ≤ invokes evs + one_if (pending r))%nat.
Proof.
  induction evs as [|ev evs IH]; intros r r' obs Hc; simpl.
  - intros [= <- <-]. split_and!; [done|done|]. unfold invokes. simpl. lia.
  - destruct (step r ev) as [[r1 o1]|] eqn:Hstep; [|discriminate].
    destruct (run r1 evs) as [[r2 o2]|] eqn:Hrun; [|discriminate].
    intros [= <- <-].
    destruct (step_counts _ _ _ _ Hc Hstep) as (Hc1 & Hs1 & Hi1).
    destruct (IH _ _ _ Hc1 Hrun) as (Hc2 & Hs2 & Hi2).
    split; [done|]. rewrite cycles_app.
    change (ev :: evs) with ([ev] ++ evs).
    unfold settles, invokes in *. rewrite !List.filter_app, !length_app. lia.
Qed.

(** X17.  However the calls of [trainOrLoad] and the completions of its cycles
    interleave, from an idle engine: every cycle started has completed,
    but for the one in flight if there is one, so that no two cycles
    overlap; [_isSyncing] tells whether a cycle is in flight; and the
    cycles started, with the follow-up still asked for, never outnumber
    the calls made. *)
Theorem trainOrLoad_never_overlaps (r r' : Running) (evs : list event)
    (obs : list observation) :
  idle r →
  run r evs = Some (r', obs) →
  consistent r'
  ∧ cycles obs = (settles evs + one_if (syncing r'))%nat
  ∧ (cycles obs + one_if (pending r') ≤ invokes evs)%nat.
Proof.
  intros (Hs & Ht & Hf) Hrun.
  destruct (run_counts evs r r' obs) as (Hc & H1 & H2); [|done|].
  { split; [|by rewrite Ht]. rewrite Hs, Hf. split; [done|]. by intros [? ?]. }
  unfold syncing, pending in *. rewrite Hs in H1. rewrite Ht in H2. simpl in *.
  split_and!; [done|lia|lia].
Qed.

End Orchestrator.

(** ** The extraction pipeline *)

(** [NLUStructure] of [typings], the record the stages pass along.  The
    language identifier may answer [undefined], and [intent] is unset
    until the intent stage has run. *)
Record NLUStructure := mkNLUStructure {
  rawText : string;
  lowerText : string;
  sanitizedText : string;
  detectedLanguage : option string;
  language : string;
  includedContexts : list string;
  tokens : list string;
  entities : list value;
  intent : option NLU.Intent;
  intents : list NLU.Intent;
  slots : value
}.

(** [ds.detectedLanguage = detected; ds.language = lang] *)
Definition set_language (detected : option string) (lang : string) (ds : NLUStructure)
  : NLUStructure :=
  {| rawText := rawText ds; lowerText := lowerText ds; sanitizedText := sanitizedText ds;
     detectedLanguage := detected; language := lang;
     includedContexts := includedContexts ds; tokens := tokens ds;
     entities := entities ds; intent := intent ds; intents := intents ds;
     slots := slots ds |}.

(** [ds.includedContexts = contexts; ds.intents = ranked; ds.intent = selected] *)
Definition set_intents (contexts : list string) (ranked : list NLU.Intent)
    (selected : NLU.Intent) (ds : NLUStructure) : NLUStructure :=
  {| rawText := rawText ds; lowerText := lowerText ds; sanitizedText := sanitizedText ds;
     detectedLanguage := detectedLanguage ds; language := language ds;
     includedContexts := contexts; tokens := tokens ds;
     entities := entities ds; intent := Some selected; intents := ranked;
     slots := slots ds |}.

(** [ds.slots = extracted] *)
Definition set_slots (extracted : value) (ds : NLUStructure) : NLUStructure :=
  {| rawText := rawText ds; lowerText := lowerText ds; sanitizedText := sanitizedText ds;
     detectedLanguage := detectedLanguage ds; language := language ds;
     includedContexts := includedContexts ds; tokens := tokens ds;
     entities := entities ds; intent := intent ds; intents := intents ds;
     slots := extracted |}.

Definition tell (c : Call) : Eff (list Call) unit := modify (fun l => l ++ [c]).

(** [${lang}] for a string that may be [undefined]. *)
Definition show_lang (lang : option string) : string :=
  match lang with
  | Some l => l
  | None => "undefined"
  end.

(** [!lang || lang === 'n/a' || !this.languages.includes(lang)] *)
Definition unsupported (e : Engine) (lang : option string) : bool :=
  match lang with
  | None => true
  | Some l =>
      String.eqb l "" || String.eqb l "n/a" || negb (bool_decide (l ∈ languages e))
  end.

Section Pipeline.

(** The language identifier, the exact matcher's lookup, the classifier,
    the tie-break of [pipelines/intents/utils], the intent source and
    the sequence tagger are outside the engine: they are parameters. *)
Variable identify : string → completion (option string).
Variable exactMatch : ExactMatcher → string → list string → completion (option NLU.Intent).
Variable classifier_predict : string → list string → list string → completion (list NLU.Intent).
Variable findMostConfidentIntentMeanStd : list NLU.Intent → Q → NLU.Intent.
Variable storage_getIntent : string → completion value.
Variable tagger_extract :
  string → string → value → list value → list string → completion value.

Definition _detectLang (e : Engine) (ds : NLUStructure) : Eff (list Call) NLUStructure :=
  tell (Identify (rawText ds)) ;;;
  lang <- lift (identify (rawText ds)) ;;
  if unsupported e lang
  then tell (LogDebug ("Detected language (" +:+ show_lang lang
                       +:+ ") is not supported, fallback to " +:+ defaultLanguage e)) ;;;
       ret (set_language lang (defaultLanguage e) ds)
  else ret (set_language lang (show_lang lang) ds).

(** [exactMatcher && exactMatcher.exactMatch(...)]: no matcher, no call. *)
Definition exactIntent_of (e : Engine) (ds : NLUStructure)
  : Eff (list Call) (option NLU.Intent) :=
  match _exactIntentMatchers e !! language ds with
  | None => ret None
  | Some exactMatcher =>
      tell (ExactMatch (language ds) (sanitizedText ds) (includedContexts ds)) ;;;
      lift (exactMatch exactMatcher (sanitizedText ds) (includedContexts ds))
  end.

(** The [matches] function attached to the selected intent is left out:
    it is a closure over the intent's name and holds no data. *)
Definition _extractIntents (e : Engine) (ds : NLUStructure)
  : Eff (list Call) NLUStructure :=
  exactIntent <- exactIntent_of e ds ;;
  match exactIntent with
  | Some x => ret (set_intents (includedContexts ds) [x] x ds)
  | None =>
      if bool_decide (language ds ∈ languages e)
      then tell (ClassifierPredict (language ds) (tokens ds) (includedContexts ds)) ;;;
           ranked <- lift (classifier_predict (language ds) (tokens ds)
                             (includedContexts ds)) ;;
           let selected := findMostConfidentIntentMeanStd ranked (confidenceTreshold e) in
           ret (set_intents (uniq (NLU.context <$> ranked)) ranked selected ds)
      else throw "TypeError: Cannot read property 'predict' of undefined"
  end.

Definition _extractSlots (e : Engine) (ds : NLUStructure) : Eff (list Call) NLUStructure :=
  match intent ds with
  | None => throw "TypeError: Cannot read property 'name' of undefined"
  | Some selected =>
      if String.eqb (NLU.name selected) "none"
      then ret ds
      else
        tell (GetIntent (NLU.name selected)) ;;;
        intentDef <- lift (storage_getIntent (NLU.name selected)) ;;
        if bool_decide (language ds ∈ languages e)
        then tell (TaggerExtract (language ds) (lowerText ds) intentDef
                     (entities ds) (tokens ds)) ;;;
             extracted <- lift (tagger_extract (language ds) (lowerText ds) intentDef
                                  (entities ds) (tokens ds)) ;;
             ret (set_slots extracted ds)
        else throw "TypeError: Cannot read property 'extract' of undefined"
  end.

(** C7, as the code has it.  When the identifier answers, the stage
    completes normally and the language of the context is the detected
    language if that is a configured one, and the default language
    otherwise; nothing but a debug message is logged for the substitution.
    The language is a configured one whenever the default language is. *)
Theorem _detectLang_language (e : Engine) (ds : NLUStructure) (l : list Call)
    (lang : option string) :
  identify (rawText ds) = Normal lang →
  ∃ ds' l',
    _detectLang e ds l = (Normal ds', l ++ Identify (rawText ds) :: l')
    ∧ language ds' = (if unsupported e lang then defaultLanguage e else show_lang lang)
    ∧ (language ds' ∈ languages e ∨ language ds' = defaultLanguage e)
    ∧ (defaultLanguage e ∈ languages e → language ds' ∈ languages e)
    ∧ (∀ c, c ∈ l' → ∃ msg, c = LogDebug msg).
Proof.
  intros Hid. unfold _detectLang, bind, tell, modify, lift. rewrite Hid.
  destruct (unsupported e lang) eqn:Hu.
  - eexists _, [_]. unfold ret. rewrite <- app_assoc. split; [reflexivity|].
    split_and!; simpl; auto.
    intros c Hc. apply list_elem_of_singleton in Hc. eauto.
  - exists (set_language lang (show_lang lang) ds), []. unfold ret.
    split; [reflexivity|].
    assert (show_lang lang ∈ languages e) as Hin.
    { destruct lang as [lang|]; [|done]. simpl in *.
      apply orb_false_elim in Hu as [_ Hu]. apply negb_false_iff in Hu.
      by apply bool_decide_eq_true in Hu. }
    split_and!; simpl; auto. intros c Hc. inversion Hc.
Qed.

(** C4. When the matcher of the context's language finds the sanitized
    text among the training utterances, within the included contexts, the
    stage selects the intent it found, ranks that intent alone, and the
    only call it makes is the lookup: the classifier is not asked,
    whatever it would have answered. *)
Theorem _extractIntents_exact_match (e : Engine) (ds : NLUStructure) (l : list Call)
    (exactMatcher : ExactMatcher) (x : NLU.Intent) :
  _exactIntentMatchers e !! language ds = Some exactMatcher →
  exactMatch exactMatcher (sanitizedText ds) (includedContexts ds) = Normal (Some x) →
  ∃ ds',
    _extractIntents e ds l
    = (Normal ds', l ++ [ExactMatch (language ds) (sanitizedText ds) (includedContexts ds)])
    ∧ intent ds' = Some x
    ∧ intents ds' = [x]
    ∧ ds' = set_intents (includedContexts ds) [x] x ds.
Proof.
  intros Hm Hx. exists (set_intents (includedContexts ds) [x] x ds).
  split; [|by split_and!].
  unfold _extractIntents, exactIntent_of. rewrite Hm.
  unfold bind, tell, modify, lift. by rewrite Hx.
Qed.

(** C5. When the selected intent is ["none"], the slot stage hands the
    context back as it got it, [slots] included, and calls nobody:
    neither the intent source nor the tagger. *)
Theorem _extractSlots_none (e : Engine) (ds : NLUStructure) (l : list Call)
    (selected : NLU.Intent) :
  intent ds = Some selected →
  NLU.name selected = "none" →
  _extractSlots e ds l = (Normal ds, l).
Proof. intros Hi Hn. unfold _extractSlots. by rewrite Hi, Hn. Qed.

(** ** More of the stages *)

(** No exact match: the language has no matcher, or its matcher finds
    nothing. *)
Definition no_exact_match (e : Engine) (ds : NLUStructure) : Prop :=
  match _exactIntentMatchers e !! language ds with
  | None => True
  | Some exactMatcher =>
      exactMatch exactMatcher (sanitizedText ds) (includedContexts ds) = Normal None
  end.

(** The lookup is logged when there is a matcher to ask. *)
Definition looked_up (e : Engine) (ds : NLUStructure) : list Call :=
  match _exactIntentMatchers e !! language ds with
  | None => []
  | Some _ => [ExactMatch (language ds) (sanitizedText ds) (includedContexts ds)]
  end.

Lemma exactIntent_of_none e ds l :
  no_exact_match e ds → exactIntent_of e ds l = (Normal None, l ++ looked_up e ds).
Proof.
  unfold no_exact_match, exactIntent_of, looked_up.
  destruct (_exactIntentMatchers e !! language ds) as [m|].
  - intros H. unfold bind, tell, modify, lift. by rewrite H.
  - intros _. unfold ret. by rewrite app_nil_r.
Qed.

(** X18.  Without an exact match, in a configured language, the classifier
    decides: the ranked list is its answer, the selected intent is the
    tie-break's choice, and the included contexts of the context are
    replaced, whatever was asked for, by the contexts of the ranked
    intents, each once, in the order of their first appearance. *)
Theorem _extractIntents_classified (e : Engine) (ds : NLUStructure) (l : list Call)
    (ranked : list NLU.Intent) :
  no_exact_match e ds →
  language ds ∈ languages e →
  classifier_predict (language ds) (tokens ds) (includedContexts ds) = Normal ranked →
  ∃ ds',
    _extractIntents e ds l
    = (Normal ds',
       l ++ looked_up e ds
         ++ [ClassifierPredict (language ds) (tokens ds) (includedContexts ds)])
    ∧ intents ds' = ranked
    ∧ intent ds' = Some (findMostConfidentIntentMeanStd ranked (confidenceTreshold e))
    ∧ NoDup (includedContexts ds')
    ∧ (∀ c, c ∈ includedContexts ds' ↔ ∃ i, i ∈ ranked ∧ NLU.context i = c).
Proof.
  intros Hno Hlang Hp. eexists. split.
  - unfold _extractIntents.
    rewrite (bind_normal _ _ _ _ _ (exactIntent_of_none e ds l Hno)).
    rewrite bool_decide_eq_true_2 by done.
    unfold bind, tell, modify, lift, ret. rewrite Hp. by rewrite <- app_assoc.
  - cbn [intents intent includedContexts set_intents].
    split_and!; [done|done|apply uniq_NoDup|].
    intros c. rewrite elem_of_uniq, list_elem_of_fmap. split.
    + intros (i & -> & Hi). eauto.
    + intros (i & Hi & <-). eauto.
Qed.

(** X19.  In a language the engine is not configured for there is no classifier
    to ask: without an exact match the stage throws, having called nobody
    but the matcher. *)
Theorem _extractIntents_unconfigured (e : Engine) (ds : NLUStructure) (l : list Call) :
  no_exact_match e ds →
  language ds ∉ languages e →
  _extractIntents e ds l
  = (Thrown "TypeError: Cannot read property 'predict' of undefined", l ++ looked_up e ds).
Proof.
  intros Hno Hlang. unfold _extractIntents.
  rewrite (bind_normal _ _ _ _ _ (exactIntent_of_none e ds l Hno)).
  by rewrite bool_decide_eq_false_2.
Qed.

(** The fields a stage may write: the two languages for [_detectLang]; the
    included contexts and the intents for [_extractIntents]; the slots for
    [_extractSlots]. *)
Definition apart_from_language (ds ds' : NLUStructure) : Prop :=
  ds' = set_language (detectedLanguage ds') (language ds') ds.

Definition apart_from_intents (ds ds' : NLUStructure) : Prop :=
  ds' = ds ∨ ∃ selected, ds' = set_intents (includedContexts ds') (intents ds') selected ds.

Definition apart_from_slots (ds ds' : NLUStructure) : Prop :=
  ds' = set_slots (slots ds') ds.

Definition when_normal {A} (P : A → Prop) (c : completion A) : Prop :=
  match c with
  | Normal a => P a
  | Thrown _ => True
  end.

(** X20.  Each stage writes its own fields and no other: the raw text and what
    the earlier stages found are handed on as they came. *)
Theorem stages_keep_to_their_fields (e : Engine) (ds : NLUStructure) (l : list Call) :
  when_normal (apart_from_language ds) (fst (_detectLang e ds l))
  ∧ when_normal (apart_from_intents ds) (fst (_extractIntents e ds l))
  ∧ when_normal (apart_from_slots ds) (fst (_extractSlots e ds l)).
Proof.
  split_and!.
  - unfold _detectLang, bind, tell, modify, lift, ret.
    destruct (identify (rawText ds)) as [lang|err]; [|done].
    destruct (unsupported e lang); done.
  - unfold _extractIntents, exactIntent_of.
    destruct (_exactIntentMatchers e !! language ds) as [m|].
    + unfold bind, tell, modify, lift, ret, throw.
      destruct (exactMatch m (sanitizedText ds) (includedContexts ds)) as [[x|]|err];
        [right; by exists x| |done].
      destruct (bool_decide (language ds ∈ languages e)); [|done].
      destruct (classifier_predict _ _ _) as [ranked|err]; [|done].
      right. by eexists.
    + unfold bind, tell, modify, lift, ret, throw.
      destruct (bool_decide (language ds ∈ languages e)); [|done].
      destruct (classifier_predict _ _ _) as [ranked|err]; [|done].
      right. by eexists.
  - unfold _extractSlots, bind, tell, modify, lift, ret, throw.
    destruct (intent ds) as [selected|]; [|done].
    destruct (String.eqb (NLU.name selected) "none"); [by destruct ds|].
    destruct (storage_getIntent (NLU.name selected)) as [intentDef|err]; [|done].
    destruct (bool_decide (language ds ∈ languages e)); [|done].
    destruct (tagger_extract _ _ _ _ _) as [extracted|err]; done.
Qed.

End Pipeline.

(** ** [extract] *)

(** The object [extract] returns: the context of a successful run with
    [errored] and [ms] set on it, or the literal [{ errored: true }] with
    [ms] set on it. *)
Record EventUnderstanding := mkUnderstanding {
  understood : option NLUStructure;
  errored : bool;
  ms : option Z
}.

(** One call of [runner.run()].  The runner ([PipelineManager]) keeps the
    context it is working on to itself: when a stage throws, the promise
    is rejected with the error, an [Error] whose message is [message],
    and the context as far as the stages had filled it stays inside the
    runner.  (A rejection with a value that is no [Error], which
    bluebird-retry wraps in one, is not modelled.) *)
Inductive attempt :=
| Resolved (ds : NLUStructure)
| Rejected (message : string) (reached : NLUStructure).

(** [retryPolicy] *)
Definition interval : Z := 100.

Definition max_interval : Z := 500.

Definition timeout : Z := 5000.

Definition max_tries : nat := 3.

(** The readings of the clock during one call of [extract]: [Date.now()]
    at [const t0] and in the [finally] block ([t1]); in between, the
    readings bluebird-retry takes with [new Date().getTime()]: two when
    [retry] is called, for [giveup_time] and for [start], and one in the
    catch of each failed attempt, [caught_at k] for the attempt number
    [k].  Nothing is assumed of their order: the clock of the system may
    be set back at any time. *)
Record Clock := mkClock {
  t0 : Z;
  giveup_from : Z;
  start : Z;
  caught_at : nat → Z;
  t1 : Z
}.

(** [backoff(interval, options)] of bluebird-retry for a policy without
    [backoff]: [Math.min(interval, options.max_interval)]. *)
Definition backoff (i : Z) : Z := Z.min i max_interval.

(** The message of the error bluebird-retry rejects with:
    ['operation timed out after ' + (now - start) + ' ms, ' + tries +
    ' tries with error: ' + err.message]. *)
Definition timed_out (elapsed : Z) (tries : nat) (message : string) : string :=
  "operation timed out after " +:+ pretty elapsed +:+ " ms, " +:+ pretty tries
  +:+ " tries with error: " +:+ message.

(** [try_once] of bluebird-retry.  [runs k] is the outcome of the call
    number [k] of [func]; a failure is counted ([tries]), the interval
    goes through [backoff] from the second failure on, and the retry
    gives up when [tries === max_tries] or
    [now + interval >= giveup_time]; otherwise [func] is called again,
    after a delay.  [more] is [max_tries - tries], so that its last
    branch is never taken. *)
Fixpoint try_once (runs : nat → attempt) (clock : Clock) (more k : nat) (interval : Z)
  : completion NLUStructure :=
  match runs k with
  | Resolved ds => Normal ds
  | Rejected message _ =>
      let tries := S k in
      let interval := if Nat.ltb 1 tries then backoff interval else interval in
      let now := caught_at clock k in
      if Nat.eqb tries max_tries || Z.leb (giveup_from clock + timeout) (now + interval)
      then Thrown (timed_out (now - start clock) tries message)
      else match more with
           | S more' => try_once runs clock more' (S k) interval
           | O => Thrown (timed_out (now - start clock) tries message)
           end
  end.

(** [retry(() => runner.run(), this.retryPolicy)] of bluebird-retry: the
    promise is fulfilled with the value of the first call that resolves,
    or rejected with an [Error] whose message is the one thrown here. *)
Definition retry (runs : nat → attempt) (clock : Clock) : completion NLUStructure :=
  try_once runs clock (max_tries - 1) 0 interval.

(** A runner is made from the text and the contexts
    ([withPipeline(this._pipeline).initFromText(text, includedContexts)]);
    what its calls number 0, 1, 2, ... of [run()] come to is for the
    stages and their collaborators to decide. *)
Definition Runner : Type := string → list string → nat → attempt.

(** [extract], from [const t0 = Date.now()] on.  Before that the method
    awaits [trainOrLoad] when the engine is not primed, a promise that is
    always fulfilled ([sync_caught_normal]).  The error caught is the one
    [retry] rejects with; in the template it prints as its name and its
    message. *)
Definition extract (runner : Runner) (text : string) (includedContexts : list string)
    (clock : Clock) : Eff (list Call) EventUnderstanding :=
  let res := {| understood := None; errored := true; ms := None |} in
  res' <- try_catch
            (ds <- lift (retry (runner text includedContexts) clock) ;;
             ret {| understood := Some ds; errored := false; ms := None |})
            (fun error =>
               tell (LogError ("Could not extract whole NLU data, Error: " +:+ error)) ;;;
               ret res) ;;
  ret {| understood := understood res'; errored := errored res';
         ms := Some (t1 clock - t0 clock) |}.

(** The test bluebird-retry makes in the catch of the attempt number [k]:
    it was the last try allowed, or the next one would start, an interval
    later, at or past the time to give up.  The policy has no [backoff],
    so the interval stays at 100 ms. *)
Definition gives_up (clock : Clock) (k : nat) : bool :=
  Nat.eqb (S k) max_tries
  || Z.leb (giveup_from clock + timeout) (caught_at clock k + interval).

(** The attempts before number [k] were rejected, and each time the retry
    went on. *)
Definition tried_again (runs : nat → attempt) (clock : Clock) (k : nat) : Prop :=
  ∀ j, (j < k)%nat →
    (∃ message reached, runs j = Rejected message reached) ∧ gives_up clock j = false.

(** The attempt number [k] is the first to resolve, with [ds]. *)
Definition resolved_at (runs : nat → attempt) (clock : Clock) (k : nat)
    (ds : NLUStructure) : Prop :=
  tried_again runs clock k ∧ runs k = Resolved ds.

(** The retry gives up at the attempt number [k], rejected with
    [message]. *)
Definition gave_up_at (runs : nat → attempt) (clock : Clock) (k : nat)
    (message : string) : Prop :=
  tried_again runs clock k
  ∧ (∃ reached, runs k = Rejected message reached)
  ∧ gives_up clock k = true.

Lemma tried_again_bound runs clock k :
  tried_again runs clock k → (k < max_tries)%nat.
Proof.
  intros H. destruct (decide (k < max_tries)%nat) as [|Hk]; [done|].
  destruct (H 2%nat) as [_ Hg]; [unfold max_tries in Hk; lia|]. discriminate.
Qed.

Lemma gives_up_at_0 clock :
  gives_up clock 0 = Z.leb (giveup_from clock + timeout) (caught_at clock 0 + interval).
Proof. reflexivity. Qed.

Lemma gives_up_at_1 clock :
  gives_up clock 1 = Z.leb (giveup_from clock + timeout) (caught_at clock 1 + interval).
Proof. reflexivity. Qed.

Lemma retry_eq runs clock :
  retry runs clock
  = match runs 0%nat with
    | Resolved ds => Normal ds
    | Rejected m0 _ =>
        if gives_up clock 0
        then Thrown (timed_out (caught_at clock 0 - start clock) 1 m0)
        else match runs 1%nat with
             | Resolved ds => Normal ds
             | Rejected m1 _ =>
                 if gives_up clock 1
                 then Thrown (timed_out (caught_at clock 1 - start clock) 2 m1)
                 else match runs 2%nat with
                      | Resolved ds => Normal ds
                      | Rejected m2 _ =>
                          Thrown (timed_out (caught_at clock 2 - start clock) 3 m2)
                      end
             end
    end.
Proof.
  rewrite gives_up_at_0, gives_up_at_1. unfold retry. simpl.
  destruct (runs 0%nat); [done|]. destruct (Z.leb _ _); [done|].
  destruct (runs 1%nat); [done|]. destruct (Z.leb _ _); [done|].
  by destruct (runs 2%nat).
Qed.

Lemma retry_resolved runs clock k ds :
  resolved_at runs clock k ds → retry runs clock = Normal ds.
Proof.
  intros [Ht Hr]. pose proof (tried_again_bound _ _ _ Ht) as Hk. rewrite retry_eq.
  unfold max_tries in Hk.
  assert (k = 0 ∨ k = 1 ∨ k = 2)%nat as [->|[->| ->]] by lia.
  - by rewrite Hr.
  - destruct (Ht 0%nat) as [(m0 & r0 & ->) ->]; [lia|]. by rewrite Hr.
  - destruct (Ht 0%nat) as [(m0 & r0 & ->) ->]; [lia|].
    destruct (Ht 1%nat) as [(m1 & r1 & ->) ->]; [lia|]. by rewrite Hr.
Qed.

Lemma retry_gave_up runs clock k message :
  gave_up_at runs clock k message →
  retry runs clock = Thrown (timed_out (caught_at clock k - start clock) (S k) message).
Proof.
  intros (Ht & [reached Hr] & Hg). pose proof (tried_again_bound _ _ _ Ht) as Hk.
  rewrite retry_eq. unfold max_tries in Hk.
  assert (k = 0 ∨ k = 1 ∨ k = 2)%nat as [->|[->| ->]] by lia.
  - by rewrite Hr, Hg.
  - destruct (Ht 0%nat) as [(m0 & r0 & ->) ->]; [lia|]. by rewrite Hr, Hg.
  - destruct (Ht 0%nat) as [(m0 & r0 & ->) ->]; [lia|].
    destruct (Ht 1%nat) as [(m1 & r1 & ->) ->]; [lia|]. by rewrite Hr.
Qed.

Lemma tried_again_0 runs clock : tried_again runs clock 0.
Proof. intros j Hj. lia. Qed.

Lemma tried_again_S runs clock k message reached :
  tried_again runs clock k →
  runs k = Rejected message reached →
  gives_up clock k = false →
  tried_again runs clock (S k).
Proof.
  intros Ht Hr Hg j Hj. destruct (decide (j = k)) as [->|Hne].
  - split; [by eexists _, _|done].
  - apply Ht. lia.
Qed.

(** What [retry] comes to: the value of the first attempt that resolves,
    or the timeout error of the attempt at which it gives up. *)
Lemma retry_outcome runs clock :
  match retry runs clock with
  | Normal ds => ∃ k, resolved_at runs clock k ds
  | Thrown error =>
      ∃ k message,
        gave_up_at runs clock k message
        ∧ error = timed_out (caught_at clock k - start clock) (S k) message
  end.
Proof.
  rewrite retry_eq.
  pose proof (tried_again_0 runs clock) as T0.
  destruct (runs 0%nat) as [ds|m0 r0] eqn:H0; [by exists 0%nat|].
  destruct (gives_up clock 0) eqn:G0.
  { exists 0%nat, m0. split; [|done]. split_and!; [done|by exists r0|done]. }
  pose proof (tried_again_S _ _ _ _ _ T0 H0 G0) as T1.
  destruct (runs 1%nat) as [ds|m1 r1] eqn:H1; [by exists 1%nat|].
  destruct (gives_up clock 1) eqn:G1.
  { exists 1%nat, m1. split; [|done]. split_and!; [done|by exists r1|done]. }
  pose proof (tried_again_S _ _ _ _ _ T1 H1 G1) as T2.
  destruct (runs 2%nat) as [ds|m2 r2] eqn:H2; [by exists 2%nat|].
  exists 2%nat, m2. split; [|done]. split_and!; [done|by exists r2|done].
Qed.

Lemma resolved_not_gave_up runs clock k ds k' message :
  resolved_at runs clock k ds → gave_up_at runs clock k' message → False.
Proof.
  intros Hr Hg. apply retry_resolved in Hr. apply retry_gave_up in Hg. congruence.
Qed.

(** C3, as the code has it.  Whatever the attempts do and whatever the
    clock reads, [extract] returns a result and throws nothing; [ms] is
    set to the difference of the two readings of [Date.now()]; the result
    is marked as errored exactly when the retry gave up, after the third
    failure or after a failure too close to the timeout, and otherwise it
    is the context of the first attempt that resolved. *)
Theorem extract_always_returns (runner : Runner) (text : string)
    (includedContexts : list string) (clock : Clock) (l : list Call) :
  ∃ res l',
    extract runner text includedContexts clock l = (Normal res, l')
    ∧ ms res = Some (t1 clock - t0 clock)
    ∧ (errored res = true
       ↔ ∃ k message, gave_up_at (runner text includedContexts) clock k message)
    ∧ (errored res = false
       ↔ ∃ k ds, resolved_at (runner text includedContexts) clock k ds
                 ∧ understood res = Some ds).
Proof.
  unfold extract, bind, try_catch, lift.
  set (runs := runner text includedContexts).
  pose proof (retry_outcome runs clock) as Ho.
  destruct (retry runs clock) as [ds|error] eqn:Hr.
  - destruct Ho as [k Hk]. eexists _, _. split; [reflexivity|]. simpl.
    split_and!; [done| |].
    + split; [done|]. intros (k' & message & Hg).
      destruct (resolved_not_gave_up _ _ _ _ _ _ Hk Hg).
    + split; [|done]. intros _. by exists k, ds.
  - destruct Ho as (k & message & Hg & ->). eexists _, _. split; [reflexivity|]. simpl.
    split_and!; [done| |].
    + split; [|done]. intros _. by exists k, message.
    + split; [done|]. by intros (k' & ds & _ & ?).
Qed.

(** C8, as the code has it.  When the retry gives up, the result is the
    literal the method started from: [errored] is true, [ms] is the
    difference of the two readings of the clock, the timeout error of
    bluebird-retry is logged, and no field of the extraction context is
    on the result. *)
Theorem extract_all_attempts_fail (runner : Runner) (text : string)
    (includedContexts : list string) (clock : Clock) (l : list Call) (k : nat)
    (message : string) :
  gave_up_at (runner text includedContexts) clock k message →
  extract runner text includedContexts clock l
  = (Normal {| understood := None; errored := true; ms := Some (t1 clock - t0 clock) |},
     l ++ [LogError ("Could not extract whole NLU data, Error: "
                     +:+ timed_out (caught_at clock k - start clock) (S k) message)]).
Proof.
  intros H. apply retry_gave_up in H.
  unfold extract, bind, try_catch, lift. by rewrite H.
Qed.

(** X21.  The runs before the first one that resolves leave no trace,
    provided the retry went on after each of them: the result is the
    context of that run, not marked as errored, and nothing is logged for
    the rejected ones. *)
Theorem extract_first_success (runner : Runner) (text : string)
    (includedContexts : list string) (clock : Clock) (l : list Call) (k : nat)
    (ds : NLUStructure) :
  runner text includedContexts k = Resolved ds →
  (∀ j, (j < k)%nat →
     (∃ message reached, runner text includedContexts j = Rejected message reached)
     ∧ gives_up clock j = false) →
  extract runner text includedContexts clock l
  = (Normal {| understood := Some ds; errored := false; ms := Some (t1 clock - t0 clock) |},
     l).
Proof.
  intros Hr Hbefore.
  assert (retry (runner text includedContexts) clock = Normal ds) as H
    by (by apply (retry_resolved _ _ k)).
  unfold extract, bind, try_catch, lift. by rewrite H.
Qed.

(** ** A bot with one intent

    Concrete collaborators, to run the engine on: a store that keeps the
    artifacts it is given, learners that always succeed, and one intent
    with three English utterances. *)

Definition greeting : value :=
  JObject [ ("name", JString "greet");
            ("utterances",
             JObject [("en", JArray [JString "hi"; JString "hello"; JString "hey"])]);
            ("slots", JArray []);
            ("contexts", JArray [JString "global"]) ].

Definition shelf : Type := list (string * string * Model).

Definition on_shelf (modelHash lang : string) (entry : string * string * Model) : bool :=
  String.eqb (fst (fst entry)) modelHash && String.eqb (snd (fst entry)) lang.

Definition shelf_getIntents (st : shelf) : completion (list value) :=
  Normal [greeting].

Definition shelf_modelExists (st : shelf) (modelHash lang : string) : completion bool :=
  Normal (existsb (on_shelf modelHash lang) st).

Definition shelf_getModelsFromHash (st : shelf) (modelHash lang : string)
  : completion (list Model) :=
  Normal (snd <$> List.filter (on_shelf modelHash lang) st).

Definition shelf_persistModels (st : shelf) (models : list Model) (lang : string)
  : completion shelf :=
  Normal (st ++ ((fun m => (hash (meta m), lang, m)) <$> models)).

Definition svm_train (lang : string) (intents : list value) (modelHash : string)
  : completion (list Model) :=
  Normal [ {| meta := {| context := "global"; created_on := 1; hash := modelHash;
                         type := "intent-l1"; scope := "bot" |};
              model := JString "svm" |} ].

Definition svm_load (lang : string) (models : list Model) : completion unit := Normal tt.

Definition crf_train (lang : string) (sequences : list value)
  : completion (option value * option value) :=
  Normal (Some (JString "skipgram"), Some (JString "crf")).

Definition crf_load (lang : string) (sequences : list value) (languageModel crf : value)
  : completion unit := Normal tt.

Definition sequence_of (utterance : value) (lang : string) (slots name : option value)
  : completion value := Normal utterance.

Definition INTENT_TYPES : list string := ["intent-l0"; "intent-l1"; "intent-tfidf"; "vocab"].

(** The engine as the constructor leaves it. *)
Definition fresh : Engine :=
  {| languages := ["en"]; defaultLanguage := "en"; confidenceTreshold := 7 # 10;
     _preloaded := false; _currentModelHash := None; _exactIntentMatchers := ∅;
     _isSyncing := false; _isSyncingTwice := false |}.

Definition at_rest : Running (Store := shelf) :=
  {| world := {| engine := fresh; store := []; log := [] |}; in_flight := None |}.

Definition bot_sync (forceRetrain : bool) : Eff (World (Store := shelf)) unit :=
  sync_caught shelf_getIntents shelf_modelExists shelf_getModelsFromHash
    shelf_persistModels svm_train svm_load crf_train crf_load sequence_of
    INTENT_TYPES "slot-language-model" "slot-crf" 2 forceRetrain.

Definition bot_step := step shelf_getIntents shelf_modelExists shelf_getModelsFromHash
    shelf_persistModels svm_train svm_load crf_train crf_load sequence_of
    INTENT_TYPES "slot-language-model" "slot-crf" 2.

Definition bot_run := run shelf_getIntents shelf_modelExists shelf_getModelsFromHash
    shelf_persistModels svm_train svm_load crf_train crf_load sequence_of
    INTENT_TYPES "slot-language-model" "slot-crf" 2.

Example computeModelHash_greeting :
  computeModelHash [greeting] = "84d64cc30d3d6723ed3f9870dbb7e081".
Proof. vm_compute. reflexivity. Qed.

(** Three calls while the first cycle is in flight: what the callers see. *)
Example bot_three_calls :
  snd <$> bot_run at_rest
            (Invoke false :: (Invoke <$> [true; false; false]) ++ [Settle; Settle])
  = Some [ Started false; Returned None; Returned None; Returned None;
           Started false; Returned (Some "84d64cc30d3d6723ed3f9870dbb7e081") ].
Proof. vm_compute. reflexivity. Qed.

(** Three calls during the first cycle of a fresh engine. *)
Lemma trainOrLoad_coalesces_witness :
  idle at_rest
  ∧ [true; false; false] ≠ []
  ∧ ∃ r' obs,
      bot_run at_rest (Invoke false :: (Invoke <$> [true; false; false]) ++ [Settle; Settle])
      = Some (r', obs)
      ∧ obs = Started false
              :: replicate (length [true; false; false]) (Returned None)
              ++ [Started false; Returned (_currentModelHash (engine (world r')))]
      ∧ cycles obs = 2%nat
      ∧ idle r'
      ∧ bot_step r' Settle = None.
Proof.
  split; [repeat split; reflexivity|]. split; [discriminate|].
  unfold bot_run, bot_step.
  apply (trainOrLoad_coalesces shelf_getIntents shelf_modelExists shelf_getModelsFromHash
           shelf_persistModels svm_train svm_load crf_train crf_load sequence_of
           INTENT_TYPES "slot-language-model" "slot-crf" 2 at_rest false
           [true; false; false]);
    [repeat split; reflexivity | discriminate].
Defined.

(** C9 at a call that finds a cycle in flight: the engine holds a current
    hash, and the call returns [undefined]. *)
Theorem trainOrLoad_in_flight_returns_undefined :
  let busy : Running (Store := shelf) :=
    {| world := {| engine := set_isSyncing true
                               (set_synced "84d64cc30d3d6723ed3f9870dbb7e081" fresh);
                   store := []; log := [] |};
       in_flight := Some false |} in
  _currentModelHash (engine (world busy)) = Some "84d64cc30d3d6723ed3f9870dbb7e081"
  ∧ snd (enter false busy) = [Returned None]
  ∧ _currentModelHash (engine (world (fst (enter false busy))))
    = Some "84d64cc30d3d6723ed3f9870dbb7e081".
Proof. repeat split; reflexivity. Qed.

(** C6 on an empty store: the store answers that no artifact exists for
    the hash, and the cycle, not forced to retrain, goes to load all the
    same; the load fails and the cycle retrains. *)
Theorem sync_loads_without_artifacts :
  let w : World (Store := shelf) := {| engine := fresh; store := []; log := [] |} in
  let modelHash := computeModelHash [greeting] in
  shelf_modelExists (store w) modelHash "en" = Normal false
  ∧ firstn 6 (log (snd (bot_sync false w)))
    = [ GetIntents;
        ModelExists modelHash "en";
        LogDebug ("Restoring models '" +:+ modelHash +:+ "' from storage");
        GetModelsFromHash modelHash "en";
        LogWarn "Could not load models from storage";
        LogDebug "Retraining model" ].
Proof. vm_compute. split; reflexivity. Qed.

(** *** The bot's cycles *)

Definition bot_try (forceRetrain : bool) : Eff (World (Store := shelf)) unit :=
  sync shelf_getIntents shelf_modelExists shelf_getModelsFromHash
    shelf_persistModels svm_train svm_load crf_train crf_load sequence_of
    INTENT_TYPES "slot-language-model" "slot-crf" 2 forceRetrain.

Definition bot_loadModels : list value → string → Eff (World (Store := shelf)) unit :=
  loadModels shelf_getModelsFromHash svm_load crf_load sequence_of
    INTENT_TYPES "slot-language-model" "slot-crf".

(** The bot before its first cycle, and after it. *)
Definition newborn : World (Store := shelf) :=
  {| engine := fresh; store := []; log := [] |}.

Definition trained : World (Store := shelf) := snd (bot_try false newborn).

Definition reloaded : World (Store := shelf) :=
  snd (bot_loadModels [greeting] (computeModelHash [greeting]) trained).

(** Loading again what the first cycle left on the shelf. *)
Lemma loadModels_normal_witness :
  bot_loadModels [greeting] (computeModelHash [greeting]) trained = (Normal tt, reloaded)
  ∧ store reloaded = store trained
  ∧ (∀ lang, lang ∈ getTrainingLanguages [greeting] →
       ∃ models ts,
         shelf_getModelsFromHash (store trained) (computeModelHash [greeting]) lang
         = Normal models
         ∧ has_artifacts INTENT_TYPES "slot-language-model" "slot-crf" models
         ∧ getTrainingSets sequence_of [greeting] lang = Normal ts
         ∧ _exactIntentMatchers (engine reloaded) !! lang = Some (mkExactMatcher ts))
  ∧ (∀ lang, lang ∉ getTrainingLanguages [greeting] →
       _exactIntentMatchers (engine reloaded) !! lang
       = _exactIntentMatchers (engine trained) !! lang).
Proof.
  assert (bot_loadModels [greeting] (computeModelHash [greeting]) trained
          = (Normal tt, reloaded)) as H by (vm_compute; reflexivity).
  split; [exact H|].
  exact (loadModels_normal shelf_getModelsFromHash svm_load crf_load sequence_of
           INTENT_TYPES "slot-language-model" "slot-crf"
           [greeting] (computeModelHash [greeting]) trained reloaded H).
Defined.

(** The first cycle of the bot. *)
Lemma sync_normal_witness :
  shelf_getIntents (store newborn) = Normal [greeting]
  ∧ bot_try false newborn = (Normal tt, trained)
  ∧ _preloaded (engine trained) = true
  ∧ _currentModelHash (engine trained) = Some (computeModelHash [greeting])
  ∧ ∀ lang, lang ∈ getTrainingLanguages [greeting] →
      ∃ models ts,
        shelf_getModelsFromHash (store trained) (computeModelHash [greeting]) lang
        = Normal models
        ∧ has_artifacts INTENT_TYPES "slot-language-model" "slot-crf" models
        ∧ getTrainingSets sequence_of [greeting] lang = Normal ts
        ∧ _exactIntentMatchers (engine trained) !! lang = Some (mkExactMatcher ts).
Proof.
  assert (bot_try false newborn = (Normal tt, trained)) as H by (vm_compute; reflexivity).
  split; [reflexivity|]. split; [exact H|].
  exact (sync_normal shelf_getIntents shelf_modelExists shelf_getModelsFromHash
           shelf_persistModels svm_train svm_load crf_train crf_load sequence_of
           INTENT_TYPES "slot-language-model" "slot-crf" 2 false [greeting]
           newborn trained eq_refl H).
Defined.

(** The timer finds the bot in sync after its first cycle. *)
Lemma checkSyncNeeded_quiet_witness :
  shelf_getIntents (store trained) = Normal [greeting]
  ∧ (_isSyncing (engine trained) = true
     ∨ [greeting] = []
     ∨ _currentModelHash (engine trained) = Some (computeModelHash [greeting]))
  ∧ ∃ answer,
      checkSyncNeeded shelf_getIntents trained = (Normal answer, logged [GetIntents] trained)
      ∧ truthy answer = false
      ∧ ([greeting] = [] → answer = JsNumber 0).
Proof.
  assert (_isSyncing (engine trained) = true
          ∨ [greeting] = []
          ∨ _currentModelHash (engine trained) = Some (computeModelHash [greeting])) as H
    by (right; right; vm_compute; reflexivity).
  split; [reflexivity|]. split; [exact H|].
  exact (checkSyncNeeded_quiet shelf_getIntents [greeting] trained eq_refl H).
Defined.

Lemma sync_then_checkSyncNeeded_witness :
  shelf_getIntents (store newborn) = Normal [greeting]
  ∧ bot_try false newborn = (Normal tt, trained)
  ∧ shelf_getIntents (store trained) = Normal [greeting]
  ∧ ∃ answer,
      checkSyncNeeded shelf_getIntents trained = (Normal answer, logged [GetIntents] trained)
      ∧ truthy answer = false.
Proof.
  assert (bot_try false newborn = (Normal tt, trained)) as H by (vm_compute; reflexivity).
  split; [reflexivity|]. split; [exact H|]. split; [reflexivity|].
  exact (sync_then_checkSyncNeeded shelf_getIntents shelf_modelExists
           shelf_getModelsFromHash shelf_persistModels svm_train svm_load crf_train
           crf_load sequence_of INTENT_TYPES "slot-language-model" "slot-crf" 2 false
           [greeting] newborn trained eq_refl H eq_refl).
Defined.

(** A store that cannot be read. *)
Definition unreadable (st : shelf) : completion (list value) := Thrown "ghost unavailable".

(** A cycle of the trained bot that cannot read its intents. *)
Lemma sync_caught_failure_witness :
  sync unreadable shelf_modelExists shelf_getModelsFromHash
    shelf_persistModels svm_train svm_load crf_train crf_load sequence_of
    INTENT_TYPES "slot-language-model" "slot-crf" 2 false trained
  = (Thrown "ghost unavailable", logged [GetIntents] trained)
  ∧ sync_caught unreadable shelf_modelExists shelf_getModelsFromHash
      shelf_persistModels svm_train svm_load crf_train crf_load sequence_of
      INTENT_TYPES "slot-language-model" "slot-crf" 2 false trained
    = (Normal tt, logged [LogError "Could not sync model"] (logged [GetIntents] trained))
  ∧ _currentModelHash (engine (logged [GetIntents] trained))
    = _currentModelHash (engine trained)
  ∧ _preloaded (engine (logged [GetIntents] trained)) = _preloaded (engine trained).
Proof.
  assert (sync unreadable shelf_modelExists shelf_getModelsFromHash
            shelf_persistModels svm_train svm_load crf_train crf_load sequence_of
            INTENT_TYPES "slot-language-model" "slot-crf" 2 false trained
          = (Thrown "ghost unavailable", logged [GetIntents] trained)) as H
    by reflexivity.
  split; [exact H|].
  exact (sync_caught_failure unreadable shelf_modelExists shelf_getModelsFromHash
           shelf_persistModels svm_train svm_load crf_train crf_load sequence_of
           INTENT_TYPES "slot-language-model" "slot-crf" 2 false "ghost unavailable"
           trained (logged [GetIntents] trained) H).
Defined.

(** A forced cycle of the bot. *)
Lemma sync_forced_retrains_first_witness :
  shelf_getIntents (store newborn) = Normal [greeting]
  ∧ ∃ training loading,
      log (snd (bot_try true newborn))
      = log newborn
        ++ GetIntents
           :: (ModelExists (computeModelHash [greeting]) <$> languages (engine newborn))
        ++ LogDebug "Retraining model" :: training
        ++ LogDebug "Reloading models" :: loading
      ∧ Forall (fun c => training_call c = true) training
      ∧ Forall (fun c => loading_call c = true) loading.
Proof.
  split; [reflexivity|].
  exact (sync_forced_retrains_first shelf_getIntents shelf_modelExists
           shelf_getModelsFromHash shelf_persistModels svm_train svm_load crf_train
           crf_load sequence_of INTENT_TYPES "slot-language-model" "slot-crf" 2
           [greeting] newborn eq_refl).
Defined.

(** A bot without intents. *)
Definition no_intents (st : shelf) : completion (list value) := Normal [].

Lemma sync_no_intent_witness :
  no_intents (store newborn) = Normal []
  ∧ sync no_intents shelf_modelExists shelf_getModelsFromHash
      shelf_persistModels svm_train svm_load crf_train crf_load sequence_of
      INTENT_TYPES "slot-language-model" "slot-crf" 2 false newborn
    = (Normal tt,
       {| engine := set_synced (computeModelHash []) (engine newborn);
          store := store newborn;
          log := log newborn
                 ++ GetIntents
                    :: (ModelExists (computeModelHash []) <$> languages (engine newborn))
                 ++ []
                 ++ [LogDebug ("Restoring models '" +:+ computeModelHash []
                               +:+ "' from storage");
                     LogDebug ("Done restoring models '" +:+ computeModelHash []
                               +:+ "' from storage")] |}).
Proof.
  split; [reflexivity|].
  exact (sync_no_intent no_intents shelf_modelExists shelf_getModelsFromHash
           shelf_persistModels svm_train svm_load crf_train crf_load sequence_of
           INTENT_TYPES "slot-language-model" "slot-crf" 2 false newborn eq_refl).
Defined.

(** Two calls and the end of the first cycle: the follow-up cycle is in
    flight. *)
Definition two_calls : list event := [Invoke false; Invoke true; Settle].

Definition after_two_calls : Running (Store := shelf) :=
  from_option fst at_rest (bot_run at_rest two_calls).

Definition seen_of_two_calls : list observation :=
  from_option snd [] (bot_run at_rest two_calls).

Lemma trainOrLoad_never_overlaps_witness :
  idle at_rest
  ∧ bot_run at_rest two_calls = Some (after_two_calls, seen_of_two_calls)
  ∧ consistent after_two_calls
  ∧ cycles seen_of_two_calls = (settles two_calls + one_if (syncing after_two_calls))%nat
  ∧ (cycles seen_of_two_calls + one_if (pending after_two_calls) ≤ invokes two_calls)%nat.
Proof.
  assert (idle at_rest) as Hi by (repeat split; reflexivity).
  assert (bot_run at_rest two_calls = Some (after_two_calls, seen_of_two_calls)) as H
    by (vm_compute; reflexivity).
  split; [exact Hi|]. split; [exact H|].
  exact (trainOrLoad_never_overlaps shelf_getIntents shelf_modelExists
           shelf_getModelsFromHash shelf_persistModels svm_train svm_load crf_train
           crf_load sequence_of INTENT_TYPES "slot-language-model" "slot-crf" 2
           at_rest after_two_calls two_calls seen_of_two_calls Hi H).
Defined.

(** *** Contexts and stubs for the pipeline *)

(** A context fresh from the text, nothing filled in yet. *)
Definition heard (text : string) (contexts : list string) : NLUStructure :=
  {| rawText := text; lowerText := ""; sanitizedText := "";
     detectedLanguage := None; language := "";
     includedContexts := contexts; tokens := []; entities := [];
     intent := None; intents := []; slots := JObject [] |}.

Definition answers (lang : option string) (text : string) : completion (option string) :=
  Normal lang.

(** An engine configured for French only, its default language English. *)
Definition french_only : Engine :=
  {| languages := ["fr"]; defaultLanguage := "en"; confidenceTreshold := 7 # 10;
     _preloaded := true; _currentModelHash := None; _exactIntentMatchers := ∅;
     _isSyncing := false; _isSyncingTwice := false |}.

(** C7 fails as stated: the default language need not be a configured one. *)
Lemma _detectLang_default_not_configured :
  ∃ ds',
    _detectLang (answers (Some "n/a")) french_only (heard "hello" []) []
    = (Normal ds',
       [ Identify "hello";
         LogDebug "Detected language (n/a) is not supported, fallback to en" ])
    ∧ language ds' = "en"
    ∧ language ds' ∉ languages french_only.
Proof.
  eexists. split; [vm_compute; reflexivity|]. split; [reflexivity|].
  simpl. intros H. apply list_elem_of_singleton in H. discriminate.
Qed.

(** German text for an engine configured for English. *)
Lemma _detectLang_language_witness :
  answers (Some "de") (rawText (heard "hallo" [])) = Normal (Some "de")
  ∧ ∃ ds' l',
      _detectLang (answers (Some "de")) fresh (heard "hallo" []) []
      = (Normal ds', [] ++ Identify (rawText (heard "hallo" [])) :: l')
      ∧ language ds' = (if unsupported fresh (Some "de")
                        then defaultLanguage fresh else show_lang (Some "de"))
      ∧ (language ds' ∈ languages fresh ∨ language ds' = defaultLanguage fresh)
      ∧ (defaultLanguage fresh ∈ languages fresh → language ds' ∈ languages fresh)
      ∧ (∀ c, c ∈ l' → ∃ msg, c = LogDebug msg).
Proof.
  split; [reflexivity|].
  apply (_detectLang_language (answers (Some "de")) fresh (heard "hallo" []) []
           (Some "de")).
  reflexivity.
Defined.

Definition greet_intent : NLU.Intent :=
  {| NLU.name := "greet"; NLU.confidence := 1; NLU.context := "global" |}.

Definition bye_intent : NLU.Intent :=
  {| NLU.name := "bye"; NLU.confidence := 9 # 10; NLU.context := "global" |}.

Definition none_intent : NLU.Intent :=
  {| NLU.name := "none"; NLU.confidence := 1; NLU.context := "global" |}.

(** A lookup that knows the utterances of [greet], and a classifier that
    would rather answer [bye]. *)
Definition is_text (text : string) (v : value) : bool :=
  match v with
  | JString s => String.eqb s text
  | _ => false
  end.

Definition knows_greet (m : ExactMatcher) (text : string) (contexts : list string)
  : completion (option NLU.Intent) :=
  Normal (if existsb (is_text text) (trainingSet m) then Some greet_intent else None).

Definition prefers_bye (lang : string) (toks contexts : list string)
  : completion (list NLU.Intent) :=
  Normal [bye_intent].

Definition top_ranked (ranked : list NLU.Intent) (treshold : Q) : NLU.Intent :=
  hd none_intent ranked.

Definition primed : Engine :=
  set_exactIntentMatcher "en"
    {| trainingSet := [JString "hi"; JString "hello"; JString "hey"] |}
    (set_synced "84d64cc30d3d6723ed3f9870dbb7e081" fresh).

Definition said_hi : NLUStructure :=
  {| rawText := "Hi"; lowerText := "hi"; sanitizedText := "hi";
     detectedLanguage := Some "en"; language := "en";
     includedContexts := ["global"]; tokens := ["hi"]; entities := [];
     intent := None; intents := []; slots := JObject [] |}.

(** The user says an utterance of [greet]. *)
Lemma _extractIntents_exact_match_witness :
  _exactIntentMatchers primed !! language said_hi
  = Some {| trainingSet := [JString "hi"; JString "hello"; JString "hey"] |}
  ∧ knows_greet {| trainingSet := [JString "hi"; JString "hello"; JString "hey"] |}
      (sanitizedText said_hi) (includedContexts said_hi) = Normal (Some greet_intent)
  ∧ ∃ ds',
      _extractIntents knows_greet prefers_bye top_ranked primed said_hi []
      = (Normal ds',
         [] ++ [ExactMatch (language said_hi) (sanitizedText said_hi)
                  (includedContexts said_hi)])
      ∧ intent ds' = Some greet_intent
      ∧ intents ds' = [greet_intent]
      ∧ ds' = set_intents (includedContexts said_hi) [greet_intent] greet_intent said_hi.
Proof.
  split; [reflexivity|]. split; [reflexivity|].
  apply (_extractIntents_exact_match knows_greet prefers_bye top_ranked primed said_hi []
           {| trainingSet := [JString "hi"; JString "hello"; JString "hey"] |}
           greet_intent); reflexivity.
Defined.

Definition no_intent_source (intentName : string) : completion value :=
  Thrown "intent not found".

Definition no_tagger (lang text : string) (intentDef : value) (ents : list value)
    (toks : list string) : completion value :=
  Thrown "tagger not loaded".

Definition said_nothing_known : NLUStructure :=
  set_intents ["global"] [none_intent] none_intent said_hi.

(** No intent was recognised; neither collaborator would have answered. *)
Lemma _extractSlots_none_witness :
  intent said_nothing_known = Some none_intent
  ∧ NLU.name none_intent = "none"
  ∧ _extractSlots no_intent_source no_tagger primed said_nothing_known []
    = (Normal said_nothing_known, []).
Proof.
  split; [reflexivity|]. split; [reflexivity|].
  apply (_extractSlots_none no_intent_source no_tagger primed said_nothing_known []
           none_intent); reflexivity.
Defined.

(** The entity service is down on the first two calls and back on the third. *)
Definition third_time_lucky : Runner := fun text contexts k =>
  if Nat.ltb k 2
  then Rejected "duckling unreachable" (set_language (Some "en") "en" (heard text contexts))
  else Resolved said_nothing_known.

(** The entity service stays down: each call had detected the language
    when it was rejected. *)
Definition always_down : Runner := fun text contexts k =>
  Rejected "duckling unreachable" (set_language (Some "en") "en" (heard text contexts)).

(** The pipeline answers at the first call. *)
Definition at_once : Runner := fun text contexts k => Resolved said_nothing_known.

(** A clock that runs evenly: [extract] starts at 100, each failed attempt
    is caught 10 ms after it began, the attempts begin 100 ms apart, and
    the [finally] block is reached at 312. *)
Definition steady : Clock :=
  {| t0 := 100; giveup_from := 100; start := 100;
     caught_at := fun k => 110 + 100 * Z.of_nat k; t1 := 312 |}.

(** The first attempt takes 5006 ms to fail. *)
Definition slow : Clock :=
  {| t0 := 100; giveup_from := 100; start := 100;
     caught_at := fun k => 5106 + 100 * Z.of_nat k; t1 := 5106 |}.

(** The clock of the system is set back by an hour while the pipeline
    runs. *)
Definition set_back : Clock :=
  {| t0 := 3600100; giveup_from := 3600100; start := 3600100;
     caught_at := fun k => 110 + 100 * Z.of_nat k; t1 := 142 |}.

Example extract_third_time_lucky :
  extract third_time_lucky "Hi" ["global"] steady []
  = (Normal {| understood := Some said_nothing_known; errored := false; ms := Some 212 |},
     []).
Proof. reflexivity. Qed.

(** After one slow failure no second attempt is made, although the
    second or the third would have resolved. *)
Example extract_gives_up_on_timeout :
  extract third_time_lucky "Hi" ["global"] slow []
  = (Normal {| understood := None; errored := true; ms := Some 5006 |},
     [LogError ("Could not extract whole NLU data, Error: operation timed out after "
                +:+ "5006 ms, 1 tries with error: duckling unreachable")]).
Proof. vm_compute. reflexivity. Qed.

(** C3 fails as stated: [ms] is negative when the clock is set back
    between the two readings of [Date.now()], here on a call whose first
    attempt resolves. *)
Lemma extract_ms_negative :
  extract at_once "Hi" ["global"] set_back []
  = (Normal {| understood := Some said_nothing_known; errored := false;
               ms := Some (-3599958) |}, [])
  ∧ (-3599958 < 0)%Z.
Proof. split; [reflexivity|lia]. Qed.

Lemma always_down_gave_up : gave_up_at (always_down "Hi" ["global"]) steady 2 "duckling unreachable".
Proof.
  split_and!; [|by eexists|reflexivity].
  intros [|[|j]] Hj; [split; [by eexists _, _|reflexivity]..|lia].
Qed.

(** Three attempts rejected within a third of a second. *)
Lemma extract_all_attempts_fail_witness :
  gave_up_at (always_down "Hi" ["global"]) steady 2 "duckling unreachable"
  ∧ extract always_down "Hi" ["global"] steady []
    = (Normal {| understood := None; errored := true;
                 ms := Some (t1 steady - t0 steady) |},
       [] ++ [LogError ("Could not extract whole NLU data, Error: "
                        +:+ timed_out (caught_at steady 2 - start steady) 3
                              "duckling unreachable")]).
Proof.
  split; [exact always_down_gave_up|].
  exact (extract_all_attempts_fail always_down "Hi" ["global"] steady [] 2
           "duckling unreachable" always_down_gave_up).
Defined.

Lemma third_time_lucky_tried_again :
  ∀ j, (j < 2)%nat →
    (∃ message reached, third_time_lucky "Hi" ["global"] j = Rejected message reached)
    ∧ gives_up steady j = false.
Proof. intros [|[|j]] Hj; [split; [by eexists _, _|reflexivity]..|lia]. Qed.

(** The third attempt is the first to succeed. *)
Lemma extract_first_success_witness :
  third_time_lucky "Hi" ["global"] 2%nat = Resolved said_nothing_known
  ∧ (∀ j, (j < 2)%nat →
       (∃ message reached, third_time_lucky "Hi" ["global"] j = Rejected message reached)
       ∧ gives_up steady j = false)
  ∧ extract third_time_lucky "Hi" ["global"] steady []
    = (Normal {| understood := Some said_nothing_known; errored := false;
                 ms := Some (t1 steady - t0 steady) |}, []).
Proof.
  split; [reflexivity|]. split; [exact third_time_lucky_tried_again|].
  exact (extract_first_success third_time_lucky "Hi" ["global"] steady [] 2%nat
           said_nothing_known eq_refl third_time_lucky_tried_again).
Defined.

(** The user says something that is no utterance of [greet]: the
    classifier is asked. *)
Definition said_bye : NLUStructure :=
  {| rawText := "Bye"; lowerText := "bye"; sanitizedText := "bye";
     detectedLanguage := Some "en"; language := "en";
     includedContexts := []; tokens := ["bye"]; entities := [];
     intent := None; intents := []; slots := JObject [] |}.

Lemma _extractIntents_classified_witness :
  no_exact_match knows_greet primed said_bye
  ∧ language said_bye ∈ languages primed
  ∧ prefers_bye (language said_bye) (tokens said_bye) (includedContexts said_bye)
    = Normal [bye_intent]
  ∧ ∃ ds',
      _extractIntents knows_greet prefers_bye top_ranked primed said_bye []
      = (Normal ds',
         [] ++ looked_up primed said_bye
         ++ [ClassifierPredict (language said_bye) (tokens said_bye)
               (includedContexts said_bye)])
      ∧ intents ds' = [bye_intent]
      ∧ intent ds' = Some (top_ranked [bye_intent] (confidenceTreshold primed))
      ∧ NoDup (includedContexts ds')
      ∧ ∀ c, c ∈ includedContexts ds' ↔ ∃ i, i ∈ [bye_intent] ∧ NLU.context i = c.
Proof.
  assert (language said_bye ∈ languages primed) as H
    by (apply (bool_decide_unpack _); vm_compute; exact I).
  split; [reflexivity|]. split; [exact H|]. split; [reflexivity|].
  exact (_extractIntents_classified knows_greet prefers_bye top_ranked primed said_bye []
           [bye_intent] eq_refl H eq_refl).
Defined.

(** English was identified on an engine configured for French only. *)
Lemma _extractIntents_unconfigured_witness :
  no_exact_match knows_greet french_only said_hi
  ∧ (language said_hi ∉ languages french_only)
  ∧ _extractIntents knows_greet prefers_bye top_ranked french_only said_hi []
    = (Thrown "TypeError: Cannot read property 'predict' of undefined",
       [] ++ looked_up french_only said_hi).
Proof.
  assert (no_exact_match knows_greet french_only said_hi) as Hm by exact I.
  assert (language said_hi ∉ languages french_only) as H
    by (apply (bool_decide_unpack _); vm_compute; exact I).
  split; [exact Hm|]. split; [exact H|].
  exact (_extractIntents_unconfigured knows_greet prefers_bye top_ranked french_only
           said_hi [] Hm H).
Defined.

(** C8 fails as stated: what the stages had filled in before the failure
    is not on the result. *)
Lemma extract_drops_reached_context :
  let reached := set_language (Some "en") "en" (heard "Hi" ["global"]) in
  (∀ k, always_down "Hi" ["global"] k = Rejected "duckling unreachable" reached)
  ∧ language reached = "en"
  ∧ ∃ res,
      extract always_down "Hi" ["global"] steady []
      = (Normal res,
         [LogError ("Could not extract whole NLU data, Error: operation timed out after "
                    +:+ "210 ms, 3 tries with error: duckling unreachable")])
      ∧ errored res = true
      ∧ ms res = Some 212
      ∧ understood res = None
      ∧ understood res ≠ Some reached.
Proof.
  split; [done|]. split; [done|]. eexists. split; [vm_compute; reflexivity|]. by split_and!.
Qed.

End ScopedEngine.


(** * The incoming middleware

    The middleware registered on server start: it hands the preview of an
    incoming event to the bot's engine, merges what the engine understood
    into the event and masks the text of sensitive entities. *)

Module Middleware.
Import ScopedEngine.

(** ** [removeSensitiveText] *)

(** [entity.data.value]: a string for pattern, list and time entities, a
    number for quantities; booleans behave like numbers here.  Other kinds
    of value are not modelled. *)
Inductive EntityValue :=
| TextValue (s : string)
| NumberValue (n : Z)
| BooleanValue (b : bool).

(** [entity.data], whose [value] may be undefined. *)
Record EntityBody := mkBody {
  value : option EntityValue
}.

(** An entity of [event.nlu.entities]; [data] may be undefined. *)
Record Entity := mkEntity {
  sensitive : bool;
  data : option EntityBody
}.

(** The value as [String.prototype.replace] searches for it. *)
Definition pattern_of (v : EntityValue) : string :=
  match v with
  | TextValue s => s
  | NumberValue n => pretty n
  | BooleanValue true => "true"
  | BooleanValue false => "false"
  end.

(** ['*'.repeat(n)] *)
Fixpoint stars (n : nat) : string :=
  match n with
  | O => ""
  | S n' => String "*" (stars n')
  end.

(** The strings of this development hold the bytes of the UTF-8 encoding
    of the JavaScript strings they stand for (strings without lone
    surrogates), as the hashing of the intents needs them.  [s.length]
    counts UTF-16 code units: one for a character encoded on one, two or
    three bytes, two for a character encoded on four.  By the byte: a
    continuation byte (10xxxxxx) counts for nothing, the first byte of a
    four-byte sequence (11110xxx) for two, any other byte for one. *)
Definition code_units (c : ascii) : nat :=
  let b := nat_of_ascii c in
  if Nat.ltb b 128 then 1
  else if Nat.ltb b 192 then 0
  else if Nat.ltb b 240 then 1
  else 2.

(** [s.length] *)
Fixpoint js_length (s : string) : nat :=
  match s with
  | EmptyString => 0
  | String c s' => code_units c + js_length s'
  end.

(** ['*'.repeat(value.length)]: a number or a boolean has no [length], and
    [repeat(undefined)] is the empty string. *)
Definition stars_of (v : EntityValue) : string :=
  match v with
  | TextValue s => stars (js_length s)
  | NumberValue _ | BooleanValue _ => ""
  end.

(** What is left of [s] after the prefix [pat], if [s] starts with it. *)
Fixpoint strip_prefix (pat s : string) : option string :=
  match pat, s with
  | EmptyString, _ => Some s
  | String c pat', String d s' => if Ascii.eqb c d then strip_prefix pat' s' else None
  | String _ _, EmptyString => None
  end.

(** [s.replace(pat, rep)] for a string [pat] and a replacement without
    [$]: the leftmost occurrence of [pat] is replaced.  UTF-8 is
    self-synchronising, so an occurrence of the bytes of [pat] among the
    bytes of [s] is an occurrence of the string in the string, and the
    leftmost of the ones is the leftmost of the others. *)
Fixpoint replace (pat rep s : string) : string :=
  match strip_prefix pat s with
  | Some rest => rep +:+ rest
  | None =>
      match s with
      | EmptyString => EmptyString
      | String c s' => String c (replace pat rep s')
      end
  end.

(** The loop over the sensitive entities: the text as far as it got, and
    the message of the error that stopped it, if one did. *)
Fixpoint mask (sensitiveEntities : list Entity) (text : string) : string * option string :=
  match sensitiveEntities with
  | [] => (text, None)
  | entity :: rest =>
      match data entity with
      | None => (text, Some "Cannot read property 'value' of undefined")
      | Some body =>
          match value body with
          | None => (text, Some "Cannot read property 'length' of undefined")
          | Some v => mask rest (replace (pattern_of v) (stars_of v) text)
          end
      end
  end.

(** The part of the event [removeSensitiveText] looks at:
    [event.nlu.entities] and [event.payload.text], either of which may be
    undefined. *)
Record Sensitive := mkSensitive {
  entities : option (list Entity);
  text : option string
}.

(** [removeSensitiveText(event)]: the event as it leaves it, and the
    warning it logged, if any. *)
Definition removeSensitiveText (event : Sensitive) : Sensitive * option string :=
  match entities event, text event with
  | None, _ | _, None => (event, None)
  | Some ents, Some t =>
      if String.eqb t "" then (event, None)
      else
        let (t', err) := mask (List.filter sensitive ents) t in
        ({| entities := entities event; text := Some t' |},
         (fun message => "Error removing sensitive informations: " +:+ message) <$> err)
  end.

Lemma strip_prefix_app pat s rest :
  strip_prefix pat s = Some rest → s = pat +:+ rest.
Proof.
  revert s. induction pat as [|c pat IH]; intros s; simpl.
  - by intros [= ->].
  - destruct s as [|d s]; [discriminate|].
    destruct (Ascii.eqb_spec c d) as [->|]; [|discriminate].
    intros H. by rewrite (IH _ H).
Qed.

Lemma strip_prefix_of_app pat rest : strip_prefix pat (pat +:+ rest) = Some rest.
Proof.
  induction pat as [|c pat IH]; simpl; [by destruct rest|].
  by rewrite Ascii.eqb_refl.
Qed.

Lemma js_length_append (a b : string) :
  js_length (a +:+ b) = (js_length a + js_length b)%nat.
Proof.
  induction a as [|c a IH]; [done|].
  change (String c a +:+ b) with (String c (a +:+ b)). cbn [js_length].
  rewrite IH. lia.
Qed.

Lemma js_length_stars n : js_length (stars n) = n.
Proof. induction n as [|n IH]; [done|]. cbn [stars js_length]. by rewrite IH. Qed.

Lemma js_length_replace pat rep s :
  js_length rep = js_length pat →
  js_length (replace pat rep s) = js_length s.
Proof.
  intros Hl. induction s as [|c s IH]; cbn [replace].
  - destruct (strip_prefix pat "") as [rest|] eqn:E; [|done].
    apply strip_prefix_app in E. rewrite js_length_append, Hl.
    by rewrite <- js_length_append, <- E.
  - destruct (strip_prefix pat (String c s)) as [rest|] eqn:E.
    + apply strip_prefix_app in E. rewrite js_length_append, Hl.
      by rewrite <- js_length_append, <- E.
    + cbn [js_length]. by rewrite IH.
Qed.

(** Every sensitive entity that has a value has a string for value. *)
Definition text_valued (ents : list Entity) : Prop :=
  ∀ entity body v,
    entity ∈ ents → sensitive entity = true →
    data entity = Some body → value body = Some v →
    ∃ s, v = TextValue s.

Lemma length_mask ents t :
  (∀ entity body v, entity ∈ ents → data entity = Some body → value body = Some v →
     ∃ s, v = TextValue s) →
  js_length (fst (mask ents t)) = js_length t.
Proof.
  revert t. induction ents as [|entity ents IH]; intros t H; simpl; [done|].
  destruct (data entity) as [body|] eqn:Hd; [|done].
  destruct (value body) as [v|] eqn:Hv; [|done].
  destruct (H entity body v) as [s ->]; [by left|done|done|].
  rewrite IH.
  - apply js_length_replace. simpl. apply js_length_stars.
  - intros ent b v' Hin. apply H. by right.
Qed.

(** X22.  Masking keeps the length of the text, as JavaScript counts it:
    when the values of the sensitive entities are strings, the text
    [removeSensitiveText] leaves has the [length] of the text it found,
    also when the loop is cut short by an entity without data. *)
Theorem removeSensitiveText_length (event : Sensitive) (t : string) :
  text event = Some t →
  (∀ ents, entities event = Some ents → text_valued ents) →
  ∃ t',
    text (fst (removeSensitiveText event)) = Some t'
    ∧ js_length t' = js_length t.
Proof.
  intros Ht Hv. unfold removeSensitiveText. rewrite Ht.
  destruct (entities event) as [ents|] eqn:He; [|by exists t].
  destruct (String.eqb t ""); [by exists t|].
  destruct (mask (List.filter sensitive ents) t) as [t' err] eqn:Hm.
  exists t'. split; [done|].
  change t' with (fst (t', err)). rewrite <- Hm. apply length_mask.
  intros entity body v Hin. apply list_elem_of_In, filter_In in Hin as [Hin Hs].
  apply (Hv ents eq_refl entity body v); [by apply list_elem_of_In|done].
Qed.

Lemma filter_none_sensitive ents :
  Forall (fun entity => sensitive entity = false) ents → List.filter sensitive ents = [].
Proof. induction 1 as [|entity ents Hs _ IH]; simpl; [done|]. by rewrite Hs. Qed.

(** X23.  With nothing sensitive among the entities, or no entities, or no text,
    the event is left as it is and nothing is logged. *)
Theorem removeSensitiveText_nothing_sensitive (event : Sensitive) :
  entities event = None
  ∨ text event = None
  ∨ text event = Some ""
  ∨ (∃ ents, entities event = Some ents ∧ Forall (fun entity => sensitive entity = false) ents) →
  removeSensitiveText event = (event, None).
Proof.
  unfold removeSensitiveText. intros [H|[H|[H|(ents & H & Hall)]]].
  - by rewrite H.
  - rewrite H. by destruct (entities event).
  - rewrite H. by destruct (entities event).
  - rewrite H. destruct (text event) as [t|] eqn:Ht; [|done].
    destruct (String.eqb t ""); [done|].
    rewrite (filter_none_sensitive ents Hall).
    simpl. destruct event. simpl in *. by subst.
Qed.

(** [pat] occurs in [s] with [before] in front of it. *)
Definition occurs_at (pat before after s : string) : Prop :=
  s = before +:+ pat +:+ after.

Lemma occurs_at_front pat after s : occurs_at pat "" after s ↔ s = pat +:+ after.
Proof. done. Qed.

Lemma occurs_at_later pat c before after s :
  occurs_at pat (String c before) after (String c s) ↔ occurs_at pat before after s.
Proof.
  unfold occurs_at. change (String c before +:+ pat +:+ after)
    with (String c (before +:+ pat +:+ after)).
  split; [by intros [= ->]|by intros ->].
Qed.

Lemma occurs_at_head pat c c' before after s :
  occurs_at pat (String c' before) after (String c s) → c' = c.
Proof.
  unfold occurs_at. change (String c' before +:+ pat +:+ after)
    with (String c' (before +:+ pat +:+ after)).
  by intros [= -> _].
Qed.

Lemma strip_prefix_none_occurs pat after s :
  strip_prefix pat s = None → ¬ occurs_at pat "" after s.
Proof.
  intros H Ho. apply (proj1 (occurs_at_front _ _ _)) in Ho.
  by rewrite Ho, strip_prefix_of_app in H.
Qed.

(** [replace] rewrites the leftmost occurrence, and nothing when there is
    none. *)
Lemma replace_leftmost pat rep s :
  (∃ before after,
     occurs_at pat before after s
     ∧ replace pat rep s = before +:+ rep +:+ after
     ∧ ∀ before' after', occurs_at pat before' after' s →
         (String.length before ≤ String.length before')%nat)
  ∨ ((¬ ∃ before after, occurs_at pat before after s) ∧ replace pat rep s = s).
Proof.
  induction s as [|c s IH].
  - cbn [replace]. destruct (strip_prefix pat "") as [rest|] eqn:E.
    + left. exists "", rest. split_and!.
      * by apply occurs_at_front, strip_prefix_app.
      * done.
      * intros; simpl; lia.
    + right. split; [|done]. intros (before & after & Ho).
      destruct before; [|discriminate].
      by eapply strip_prefix_none_occurs.
  - cbn [replace]. destruct (strip_prefix pat (String c s)) as [rest|] eqn:E.
    + left. exists "", rest. split_and!.
      * by apply occurs_at_front, strip_prefix_app.
      * done.
      * intros; simpl; lia.
    + destruct IH as [(before & after & Ho & Hr & Hmin)|[Hno Hr]].
      * left. exists (String c before), after. split_and!.
        -- by apply occurs_at_later.
        -- rewrite Hr. done.
        -- intros before' after' Ho'. destruct before' as [|c' before'].
           ++ by apply strip_prefix_none_occurs in Ho'.
           ++ pose proof (occurs_at_head _ _ _ _ _ _ Ho') as ->.
              apply occurs_at_later in Ho'.
              simpl. specialize (Hmin before' after' Ho'). lia.
      * right. split; [|by rewrite Hr].
        intros (before & after & Ho). destruct before as [|c' before].
        -- by apply strip_prefix_none_occurs in Ho.
        -- pose proof (occurs_at_head _ _ _ _ _ _ Ho) as ->.
           apply occurs_at_later in Ho.
           apply Hno. by exists before, after.
Qed.

Lemma append_prefix (a b c d : string) :
  a +:+ b = c +:+ d → (String.length a ≤ String.length c)%nat → ∃ x, c = a +:+ x.
Proof.
  revert c. induction a as [|x a IH]; intros c H Hl; [by exists c|].
  destruct c as [|y c]; [simpl in Hl; lia|].
  change (String x (a +:+ b) = String y (c +:+ d)) in H. injection H as -> H.
  destruct (IH c H) as [z ->]; [simpl in Hl; lia|]. by exists z.
Qed.

(** Of two occurrences in the same text, the one further left by the byte
    is further left by the code unit. *)
Lemma occurs_before pat before after before' after' t :
  occurs_at pat before' after' t →
  occurs_at pat before after t →
  (String.length before' ≤ String.length before)%nat →
  (js_length before' ≤ js_length before)%nat.
Proof.
  unfold occurs_at. intros -> H Hl. destruct (append_prefix _ _ _ _ H Hl) as [x ->].
  rewrite js_length_append. lia.
Qed.

(** X24.  One sensitive entity whose value is a string that occurs in the text:
    its leftmost occurrence is overwritten with as many stars as the
    value has UTF-16 code units, the rest of the text stays, and nothing
    is logged. *)
Theorem removeSensitiveText_masks (event : Sensitive) (ents : list Entity) (t s : string)
    (entity : Entity) (before after : string) :
  entities event = Some ents →
  text event = Some t →
  List.filter sensitive ents = [entity] →
  data entity = Some {| value := Some (TextValue s) |} →
  s ≠ "" →
  occurs_at s before after t →
  ∃ before' after',
    occurs_at s before' after' t
    ∧ (String.length before' ≤ String.length before)%nat
    ∧ (js_length before' ≤ js_length before)%nat
    ∧ removeSensitiveText event
      = ({| entities := Some ents;
            text := Some (before' +:+ stars (js_length s) +:+ after') |},
         None).
Proof.
  intros He Ht Hf Hd Hs Ho. unfold removeSensitiveText. rewrite He, Ht, Hf.
  assert (String.eqb t "" = false) as ->.
  { apply String.eqb_neq. intros ->. unfold occurs_at in Ho.
    destruct before; [|discriminate]. simpl in Ho. destruct s; [done|discriminate]. }
  cbn [mask]. rewrite Hd. cbn [value pattern_of stars_of].
  destruct (replace_leftmost s (stars (js_length s)) t)
    as [(before' & after' & Ho' & Hr & Hmin)|[Hno _]].
  - exists before', after'.
    split_and!; [done|by eapply Hmin| |by rewrite Hr].
    exact (occurs_before _ _ _ _ _ _ Ho' Ho (Hmin _ _ Ho)).
  - destruct Hno. by exists before, after.
Qed.

(** ** The handler of [nlu.incoming] *)

(** [event.nlu] as the handler finds it, as far as it is read. *)
Record EventNlu := mkEventNlu {
  nlu_includedContexts : list string;
  nlu_entities : option (list Entity)
}.

(** The incoming event, as far as the handler reads or writes it:
    [skip_native_nlu] is [event.hasFlag(WellKnownFlags.SKIP_NATIVE_NLU)],
    [lastMessages] the [incomingPreview] of each of
    [event.state.session.lastMessages], [payload_text] is
    [event.payload.text].  [event.nlu] may be undefined. *)
Record IncomingEvent := mkEvent {
  botId : string;
  type : string;
  preview : string;
  skip_native_nlu : bool;
  lastMessages : list string;
  nlu : option EventNlu;
  payload_text : option string
}.

Definition EVENTS_TO_IGNORE : list string :=
  ["session_reference"; "session_reset"; "bp_dialog_timeout"; "visit"; "say_something"; ""].

(** What the handler does that others can see: the calls of an engine
    with their arguments in the order given, the warnings, and the call
    of [next]. *)
Inductive Action :=
| Extract (bot text : string) (second third : list string)
| Predict (bot text : string) (contexts : list string)
| Warn (message : string)
| Next.

(** The event, the log of the legacy engine and the actions so far. *)
Record Handling := mkHandling {
  event : IncomingEvent;
  engine_log : list Call;
  trace : list Action
}.

Definition act (a : Action) : Eff Handling unit :=
  modify (fun h => {| event := event h; engine_log := engine_log h; trace := trace h ++ [a] |}).

(** [next()], taken to return normally. *)
Definition next : Eff Handling unit := act Next.

Definition set_nlu (n : option EventNlu) : Eff Handling unit :=
  modify (fun h =>
    {| event := {| botId := botId (event h); type := type (event h);
                   preview := preview (event h);
                   skip_native_nlu := skip_native_nlu (event h);
                   lastMessages := lastMessages (event h);
                   nlu := n; payload_text := payload_text (event h) |};
       engine_log := engine_log h; trace := trace h |}).

Definition set_text (t : option string) : Eff Handling unit :=
  modify (fun h =>
    {| event := {| botId := botId (event h); type := type (event h);
                   preview := preview (event h);
                   skip_native_nlu := skip_native_nlu (event h);
                   lastMessages := lastMessages (event h);
                   nlu := nlu (event h); payload_text := t |};
       engine_log := engine_log h; trace := trace h |}).

(** A method of the legacy engine, run on its own log. *)
Definition on_engine_log {A} (m : Eff (list Call) A) : Eff Handling A :=
  fun h => let (c, l) := m (engine_log h) in
           (c, {| event := event h; engine_log := l; trace := trace h |}).

(** [try { m } finally { f }] *)
Definition try_finally {S A} (m : Eff S A) (f : Eff S unit) : Eff S A :=
  fun s => let (c, s') := m s in
           match f s' with
           | (Normal _, s'') => (c, s'')
           | (Thrown e, s'') => (Thrown e, s'')
           end.

(** [removeSensitiveText(event)] on the event being handled: reading
    [event.nlu.entities] throws when [event.nlu] is undefined. *)
Definition removeSensitiveText_event : Eff Handling unit :=
  h <- get_state ;;
  match nlu (event h) with
  | None => throw "Cannot read property 'entities' of undefined"
  | Some n =>
      let (masked, warning) :=
        removeSensitiveText {| entities := nlu_entities n;
                               text := payload_text (event h) |} in
      set_text (text masked) ;;;
      match warning with
      | Some w => act (Warn w)
      | None => ret tt
      end
  end.

(** [event.nlu.includedContexts] *)
Definition included (ev : IncomingEvent) : Eff Handling (list string) :=
  match nlu ev with
  | Some n => ret (nlu_includedContexts n)
  | None => throw "Cannot read property 'includedContexts' of undefined"
  end.

Section Handler.
(** What the second engine predicts. *)
Context {Prediction : Type}.

(** The second engine of a bot, by its [predict]. *)
Definition Engine2 : Type := string → list string → completion Prediction.

(** The legacy engine of a bot, as far as a call of its [extract] goes:
    whether it is primed ([_preloaded]); when it is not, what the cycle
    of [trainOrLoad] that [extract] awaits first writes to the engine's
    log, which is for the orchestrator to decide; and the runner
    [extract] makes. *)
Record LegacyEngine := mkLegacyEngine {
  _preloaded : bool;
  awaited_cycle : list Call;
  runner : Runner
}.

(** [botCtx]: the legacy engine of the bot, or its second engine. *)
Inductive BotContext :=
| Legacy (engine : LegacyEngine)
| Second (engine : Engine2).

(** What [nlu] holds after the call of the engine. *)
Inductive Answer :=
| Understood (u : EventUnderstanding)
| Predicted (p : Prediction).

(** [health.isEnabled], [yn(process.env.USE_LEGACY_NLU)], the engines by
    bot, the readings of the clock during the legacy [extract], and what
    is on [event.nlu] after [_.merge(event, { nlu })]. *)
Variable isEnabled : bool.
Variable USE_E1 : bool.
Variable nluByBot : gmap string LegacyEngine.
Variable e2ByBot : gmap string Engine2.
Variable clock : Clock.
Variable merge : option EventNlu → Answer → option EventNlu.

(** [if (!this._preloaded) { await this.trainOrLoad() }], the first lines
    of the legacy [extract]: the promise awaited is always fulfilled. *)
Definition await_trainOrLoad (engine : LegacyEngine) : Eff (list Call) unit :=
  if _preloaded engine then ret tt
  else modify (fun log => log ++ awaited_cycle engine).

(** [USE_E1 ? nluByBot[event.botId] : e2ByBot[event.botId]] *)
Definition botCtx (ev : IncomingEvent) : option BotContext :=
  if USE_E1 then Legacy <$> nluByBot !! botId ev else Second <$> e2ByBot !! botId ev.

(** [!event.preview || EVENTS_TO_IGNORE.includes(event.type) ||
    event.hasFlag(SKIP_NATIVE_NLU)] *)
Definition passed_over (ev : IncomingEvent) : bool :=
  String.eqb (preview ev) "" || bool_decide (type ev ∈ EVENTS_TO_IGNORE)
  || skip_native_nlu ev.

(** Lines 87-95: the arguments are evaluated, then the engine is called.
    The legacy [extract] has two parameters, [text] and
    [includedContexts]: of the three arguments it takes the first two. *)
Definition ask (ctx : BotContext) (ev : IncomingEvent) : Eff Handling Answer :=
  match ctx with
  | Legacy engine =>
      contexts <- included ev ;;
      act (Extract (botId ev) (preview ev) (lastMessages ev) contexts) ;;;
      on_engine_log (await_trainOrLoad engine) ;;;
      u <- on_engine_log
             (extract (runner engine) (preview ev) (lastMessages ev) clock) ;;
      ret (Understood u)
  | Second engine =>
      contexts <- included ev ;;
      act (Predict (botId ev) (preview ev) contexts) ;;;
      p <- lift (engine (preview ev) contexts) ;;
      ret (Predicted p)
  end.

(** Lines 85-103 *)
Definition understand (ctx : BotContext) (ev : IncomingEvent) : Eff Handling unit :=
  try_finally
    (try_catch
       (answer <- ask ctx ev ;;
        set_nlu (merge (nlu ev) answer) ;;;
        removeSensitiveText_event)
       (fun message =>
          act (Warn ("Error extracting metadata for incoming text: " +:+ message))))
    next.

(** Lines 69-104 *)
Definition handler : Eff Handling unit :=
  h <- get_state ;;
  let ev := event h in
  if negb isEnabled then next
  else
    match botCtx ev with
    | None => next
    | Some ctx => if passed_over ev then next else understand ctx ev
    end.

(** [m] adds to the trace only, and never a call of [next]. *)
Definition never_next {A} (m : Eff Handling A) : Prop :=
  ∀ h c h', m h = (c, h') → ∃ acts, trace h' = trace h ++ acts ∧ Next ∉ acts.

Local Ltac nothing_added :=
  exists []; split; [by rewrite app_nil_r|apply not_elem_of_nil].

Lemma never_next_ret {A} (a : A) : never_next (ret a).
Proof. intros h c h' [= <- <-]. nothing_added. Qed.

Lemma never_next_throw {A} e : never_next (A := A) (throw e).
Proof. intros h c h' [= <- <-]. nothing_added. Qed.

Lemma never_next_lift {A} (c : completion A) : never_next (lift c).
Proof. intros h c' h' [= <- <-]. nothing_added. Qed.

Lemma never_next_get_state : never_next get_state.
Proof. intros h c h' [= <- <-]. nothing_added. Qed.

Lemma never_next_act a : a ≠ Next → never_next (act a).
Proof.
  intros Ha h c h' [= <- <-]. exists [a]. split; [done|].
  rewrite list_elem_of_singleton. congruence.
Qed.

Lemma never_next_set_nlu n : never_next (set_nlu n).
Proof. intros h c h' [= <- <-]. nothing_added. Qed.

Lemma never_next_set_text t : never_next (set_text t).
Proof. intros h c h' [= <- <-]. nothing_added. Qed.

Lemma never_next_on_engine_log {A} (m : Eff (list Call) A) : never_next (on_engine_log m).
Proof.
  intros h c h'. unfold on_engine_log. destruct (m (engine_log h)) as [c' l].
  intros [= <- <-]. nothing_added.
Qed.

Lemma never_next_bind {A B} (m : Eff Handling A) (k : A → Eff Handling B) :
  never_next m → (∀ a, never_next (k a)) → never_next (bind m k).
Proof.
  intros Hm Hk h c h'. unfold bind. destruct (m h) as [[a|e] h1] eqn:E.
  - intros H2. destruct (Hk a _ _ _ H2) as (acts2 & E2 & Hn2).
    destruct (Hm _ _ _ E) as (acts1 & E1 & Hn1).
    exists (acts1 ++ acts2). rewrite E2, E1, <- app_assoc. split; [done|].
    rewrite elem_of_app. tauto.
  - intros [= <- <-]. eapply Hm, E.
Qed.

Lemma never_next_try_catch {A} (m : Eff Handling A) (handle : string → Eff Handling A) :
  never_next m → (∀ e, never_next (handle e)) → never_next (try_catch m handle).
Proof.
  intros Hm Hk h c h'. unfold try_catch. destruct (m h) as [[a|e] h1] eqn:E.
  - intros [= <- <-]. eapply Hm, E.
  - intros H2. destruct (Hk e _ _ _ H2) as (acts2 & E2 & Hn2).
    destruct (Hm _ _ _ E) as (acts1 & E1 & Hn1).
    exists (acts1 ++ acts2). rewrite E2, E1, <- app_assoc. split; [done|].
    rewrite elem_of_app. tauto.
Qed.

Lemma never_next_included ev : never_next (included ev).
Proof. unfold included. destruct (nlu ev); [apply never_next_ret|apply never_next_throw]. Qed.

Lemma never_next_ask ctx ev : never_next (ask ctx ev).
Proof.
  destruct ctx; simpl.
  - apply never_next_bind; [apply never_next_included|]. intros contexts.
    apply never_next_bind; [by apply never_next_act|]. intros _.
    apply never_next_bind; [apply never_next_on_engine_log|]. intros _.
    apply never_next_bind; [apply never_next_on_engine_log|]. intros u.
    apply never_next_ret.
  - apply never_next_bind; [apply never_next_included|]. intros contexts.
    apply never_next_bind; [by apply never_next_act|]. intros _.
    apply never_next_bind; [apply never_next_lift|]. intros p.
    apply never_next_ret.
Qed.

Lemma never_next_removeSensitiveText_event : never_next removeSensitiveText_event.
Proof.
  apply never_next_bind; [apply never_next_get_state|]. intros h.
  destruct (nlu (event h)) as [n|]; [|apply never_next_throw].
  destruct (removeSensitiveText _) as [masked [w|]].
  - apply never_next_bind; [apply never_next_set_text|]. intros _.
    by apply never_next_act.
  - apply never_next_bind; [apply never_next_set_text|]. intros _.
    apply never_next_ret.
Qed.

(** The legacy [extract] returns whatever the attempts come to: errored
    exactly when the retry gave up. *)
Lemma extract_normal run text contexts readings log :
  ∃ u log',
    extract run text contexts readings log = (Normal u, log')
    ∧ (errored u = true ↔ ∃ k message, gave_up_at (run text contexts) readings k message).
Proof.
  unfold extract, bind, try_catch, lift, ret, tell, modify.
  pose proof (retry_outcome (run text contexts) readings) as Ho.
  destruct (retry (run text contexts) readings) as [ds|e] eqn:Hr; simpl.
  - destruct Ho as [k Hk]. eexists _, _. split; [done|]. simpl. split; [done|].
    intros (k' & message & Hg). destruct (resolved_not_gave_up _ _ _ _ _ _ Hk Hg).
  - destruct Ho as (k & message & Hg & ->). eexists _, _. split; [done|]. simpl.
    split; [|done]. intros _. by exists k, message.
Qed.

(** What the [try] block with its [catch] comes to: it never throws. *)
Lemma caught_normal ctx ev h :
  ∃ h',
    try_catch
      (answer <- ask ctx ev ;;
       set_nlu (merge (nlu ev) answer) ;;;
       removeSensitiveText_event)
      (fun message =>
         act (Warn ("Error extracting metadata for incoming text: " +:+ message))) h
    = (Normal tt, h').
Proof.
  unfold try_catch.
  destruct ((answer <- ask ctx ev ;; set_nlu (merge (nlu ev) answer) ;;;
             removeSensitiveText_event) h) as [[[]|e] h1]; by eexists.
Qed.

(** X25.  On every path the handler returns normally, having called [next]
    exactly once, as the last thing it did. *)
Theorem handler_calls_next_last (h : Handling) :
  ∃ h' acts,
    handler h = (Normal tt, h')
    ∧ trace h' = trace h ++ acts ++ [Next]
    ∧ Next ∉ acts.
Proof.
  assert (∃ h', next h = (Normal tt, h') ∧ trace h' = trace h ++ [] ++ [Next]) as Hnext
    by (by eexists).
  unfold handler, bind, get_state.
  destruct (negb isEnabled).
  { destruct Hnext as (h' & ? & ?). exists h', []. split_and!; [done..|apply not_elem_of_nil]. }
  destruct (botCtx (event h)) as [ctx|];
    [|destruct Hnext as (h' & ? & ?); exists h', []; split_and!; [done..|apply not_elem_of_nil]].
  destruct (passed_over (event h));
    [destruct Hnext as (h' & ? & ?); exists h', []; split_and!; [done..|apply not_elem_of_nil]|].
  unfold understand, try_finally.
  destruct (caught_normal ctx (event h) h) as [h1 E]. rewrite E.
  assert (never_next
            (try_catch
               (answer <- ask ctx (event h) ;;
                set_nlu (merge (nlu (event h)) answer) ;;;
                removeSensitiveText_event)
               (fun message =>
                  act (Warn ("Error extracting metadata for incoming text: "
                             +:+ message))))) as Hq.
  { apply never_next_try_catch.
    - apply never_next_bind; [apply never_next_ask|]. intros answer.
      apply never_next_bind; [apply never_next_set_nlu|]. intros _.
      apply never_next_removeSensitiveText_event.
    - intros e. by apply never_next_act. }
  destruct (Hq _ _ _ E) as (acts & Ht & Hn).
  eexists _, acts. split; [reflexivity|]. split; [|done].
  simpl. by rewrite Ht, app_assoc.
Qed.

(** X26.  The events the handler passes over: with the language server not
    healthy, no engine for the bot, no preview, a type to ignore or the
    flag to skip, it calls [next] and nothing else; no engine is called,
    and the event stays as it was. *)
Theorem handler_passes_over (h : Handling) :
  isEnabled = false
  ∨ botCtx (event h) = None
  ∨ preview (event h) = ""
  ∨ type (event h) ∈ EVENTS_TO_IGNORE
  ∨ skip_native_nlu (event h) = true →
  handler h
  = (Normal tt,
     {| event := event h; engine_log := engine_log h; trace := trace h ++ [Next] |}).
Proof.
  intros H. unfold handler, bind, get_state.
  destruct isEnabled; [|done]. simpl.
  destruct (botCtx (event h)) as [ctx|]; [|done].
  assert (passed_over (event h) = true) as ->; [|done].
  unfold passed_over. destruct H as [H|[H|[H|[H|H]]]]; try done.
  - by rewrite H.
  - rewrite (bool_decide_eq_true_2 _ H). by rewrite orb_true_r.
  - rewrite H. by rewrite orb_true_r.
Qed.

(** X27.  With the legacy engine, primed, the handler never warns of a
    failed extraction because of the engine: [extract] is given the
    previews of the last messages where it expects the contexts, whatever
    [event.nlu.includedContexts] holds; it returns also when the retry
    gives up, the result then marked as errored; and what it returns is
    merged into the event. *)
Theorem handler_legacy (h : Handling) (engine : LegacyEngine) (n : EventNlu) :
  isEnabled = true →
  USE_E1 = true →
  nluByBot !! botId (event h) = Some engine →
  _preloaded engine = true →
  passed_over (event h) = false →
  nlu (event h) = Some n →
  ∃ u log',
    extract (runner engine) (preview (event h)) (lastMessages (event h)) clock
      (engine_log h) = (Normal u, log')
    ∧ (errored u = true ↔
         ∃ k message,
           gave_up_at (runner engine (preview (event h)) (lastMessages (event h)))
             clock k message)
    ∧ ∃ h' acts,
        handler h = (Normal tt, h')
        ∧ engine_log h' = log'
        ∧ nlu (event h') = merge (Some n) (Understood u)
        ∧ trace h'
          = trace h
            ++ [Extract (botId (event h)) (preview (event h)) (lastMessages (event h))
                  (nlu_includedContexts n)]
            ++ acts ++ [Next]
        ∧ ∀ a, a ∈ acts → ∃ message, a = Warn message.
Proof.
  intros He H1 Hb Hl Hp Hn.
  destruct (extract_normal (runner engine) (preview (event h)) (lastMessages (event h))
              clock (engine_log h)) as (u & log' & Hx & Hu).
  exists u, log'. split; [done|]. split; [done|]. clear Hu.
  unfold handler, bind, get_state, botCtx. rewrite He, H1, Hb, Hp. simpl.
  unfold understand, try_finally, try_catch, bind, ask, included, bind.
  rewrite Hn. simpl. unfold on_engine_log, await_trainOrLoad. rewrite Hl. simpl.
  rewrite Hx. simpl.
  unfold removeSensitiveText_event, bind, get_state. simpl.
  destruct (merge (Some n) (Understood u)) as [n'|] eqn:Hm; simpl.
  - destruct (removeSensitiveText _) as [masked [w|]]; simpl.
    + eexists _, [Warn w]. split_and!; [done..| |].
      * simpl. by rewrite <- !app_assoc.
      * intros a Ha%list_elem_of_singleton. by exists w.
    + eexists _, []. split_and!; [done..| |].
      * simpl. by rewrite <- !app_assoc.
      * by intros a Ha%elem_of_nil.
  - eexists _, [_]. split_and!; [done..| |].
    + simpl. by rewrite <- !app_assoc.
    + intros a Ha%list_elem_of_singleton. by eexists.
Qed.

(** X28.  When the second engine throws, the handler warns of it, with the
    message of the error, and calls [next]; the event stays as it was. *)
Theorem handler_engine_failure (h : Handling) (engine : Engine2) (n : EventNlu)
    (message : string) :
  isEnabled = true →
  USE_E1 = false →
  e2ByBot !! botId (event h) = Some engine →
  passed_over (event h) = false →
  nlu (event h) = Some n →
  engine (preview (event h)) (nlu_includedContexts n) = Thrown message →
  handler h
  = (Normal tt,
     {| event := event h; engine_log := engine_log h;
        trace := trace h
                 ++ [Predict (botId (event h)) (preview (event h)) (nlu_includedContexts n);
                     Warn ("Error extracting metadata for incoming text: " +:+ message);
                     Next] |}).
Proof.
  intros He H1 Hb Hp Hn Ht.
  unfold handler, bind, get_state, botCtx. rewrite He, H1, Hb, Hp. simpl.
  unfold understand, try_finally, try_catch, bind, ask, included, bind.
  rewrite Hn. simpl. unfold lift. rewrite Ht. simpl.
  by rewrite <- !app_assoc.
Qed.

(** X29.  What the second engine predicts is merged into the event, and the
    text is masked: when the values of the sensitive entities on the
    merged event are strings, the text keeps its length, as JavaScript
    counts it. *)
Theorem handler_prediction (h : Handling) (engine : Engine2) (n n' : EventNlu)
    (p : Prediction) (t : string) :
  isEnabled = true →
  USE_E1 = false →
  e2ByBot !! botId (event h) = Some engine →
  passed_over (event h) = false →
  nlu (event h) = Some n →
  engine (preview (event h)) (nlu_includedContexts n) = Normal p →
  merge (Some n) (Predicted p) = Some n' →
  payload_text (event h) = Some t →
  (∀ ents, nlu_entities n' = Some ents → text_valued ents) →
  ∃ h' t',
    handler h = (Normal tt, h')
    ∧ nlu (event h') = Some n'
    ∧ payload_text (event h') = Some t'
    ∧ js_length t' = js_length t
    ∧ engine_log h' = engine_log h.
Proof.
  intros He H1 Hb Hp Hn Ht Hm Hx Hv.
  assert (∃ t', text (fst (removeSensitiveText
                             {| entities := nlu_entities n';
                                text := payload_text (event h) |})) = Some t'
                ∧ js_length t' = js_length t) as (t' & Ht' & Hl).
  { unfold removeSensitiveText. cbn [entities text]. rewrite Hx.
    destruct (nlu_entities n') as [ents|]; [|by exists t].
    destruct (String.eqb t ""); [by exists t|].
    destruct (mask (List.filter sensitive ents) t) as [t' err] eqn:Hk.
    exists t'. split; [done|].
    change t' with (fst (t', err)). rewrite <- Hk. apply length_mask.
    intros entity body v Hin. apply list_elem_of_In, filter_In in Hin as [Hin Hs].
    apply (Hv ents eq_refl entity body v); [by apply list_elem_of_In|done]. }
  unfold handler, bind, get_state, botCtx. rewrite He, H1, Hb, Hp. simpl.
  unfold understand, try_finally, try_catch, bind, ask, included, bind.
  rewrite Hn. simpl. unfold lift. rewrite Ht. simpl. rewrite Hm.
  unfold removeSensitiveText_event, bind, get_state. simpl.
  destruct (removeSensitiveText _) as [masked [w|]]; simpl in *;
    by eexists _, t'.
Qed.

End Handler.

(** ** A message with a card number *)

Definition card : Entity :=
  {| sensitive := true; data := Some {| value := Some (TextValue "4242") |} |}.

Definition city : Entity :=
  {| sensitive := false; data := Some {| value := Some (TextValue "Paris") |} |}.

Definition told_card : Sensitive :=
  {| entities := Some [city; card]; text := Some "pay with 4242 in Paris" |}.

Definition told_city : Sensitive :=
  {| entities := Some [city]; text := Some "to Paris" |}.

Example removeSensitiveText_told_card :
  removeSensitiveText told_card
  = ({| entities := Some [city; card]; text := Some "pay with **** in Paris" |}, None).
Proof. reflexivity. Qed.

Lemma told_card_text_valued ents : entities told_card = Some ents → text_valued ents.
Proof.
  intros [= <-] entity body v Hin _ Hd Hv.
  apply elem_of_cons in Hin as [->|Hin]; [|apply list_elem_of_singleton in Hin as ->];
    simpl in Hd; injection Hd as <-; simpl in Hv; injection Hv as <-; by eexists.
Qed.

(** A guest whose name is not written in ASCII: "Zoé" is three code
    units, on four bytes. *)
Definition guest : Entity :=
  {| sensitive := true; data := Some {| value := Some (TextValue "Zoé") |} |}.

Definition told_guest : Sensitive :=
  {| entities := Some [guest]; text := Some "a table for Zoé at 8" |}.

Example removeSensitiveText_told_guest :
  removeSensitiveText told_guest
  = ({| entities := Some [guest]; text := Some "a table for *** at 8" |}, None)
  ∧ js_length "Zoé" = 3%nat
  ∧ String.length "Zoé" = 4%nat.
Proof. vm_compute. by split_and!. Qed.

Lemma told_guest_text_valued ents : entities told_guest = Some ents → text_valued ents.
Proof.
  intros [= <-] entity body v Hin _ Hd Hv. apply list_elem_of_singleton in Hin as ->.
  simpl in Hd; injection Hd as <-; simpl in Hv; injection Hv as <-; by eexists.
Qed.

Lemma removeSensitiveText_length_witness :
  text told_guest = Some "a table for Zoé at 8"
  ∧ (∀ ents, entities told_guest = Some ents → text_valued ents)
  ∧ ∃ t',
      text (fst (removeSensitiveText told_guest)) = Some t'
      ∧ js_length t' = js_length "a table for Zoé at 8".
Proof.
  split; [reflexivity|]. split; [exact told_guest_text_valued|].
  exact (removeSensitiveText_length told_guest "a table for Zoé at 8" eq_refl
           told_guest_text_valued).
Defined.

Lemma removeSensitiveText_nothing_sensitive_witness :
  (entities told_city = None
   ∨ text told_city = None
   ∨ text told_city = Some ""
   ∨ (∃ ents, entities told_city = Some ents
              ∧ Forall (fun entity => sensitive entity = false) ents))
  ∧ removeSensitiveText told_city = (told_city, None).
Proof.
  assert (entities told_city = None
          ∨ text told_city = None
          ∨ text told_city = Some ""
          ∨ (∃ ents, entities told_city = Some ents
                     ∧ Forall (fun entity => sensitive entity = false) ents)) as H.
  { right. right. right. exists [city]. split; [reflexivity|].
    constructor; [reflexivity|constructor]. }
  split; [exact H|]. exact (removeSensitiveText_nothing_sensitive told_city H).
Defined.

Lemma removeSensitiveText_masks_witness :
  entities told_card = Some [city; card]
  ∧ text told_card = Some "pay with 4242 in Paris"
  ∧ List.filter sensitive [city; card] = [card]
  ∧ data card = Some {| value := Some (TextValue "4242") |}
  ∧ "4242" ≠ ""
  ∧ occurs_at "4242" "pay with " " in Paris" "pay with 4242 in Paris"
  ∧ ∃ before' after',
      occurs_at "4242" before' after' "pay with 4242 in Paris"
      ∧ (String.length before' ≤ String.length "pay with ")%nat
      ∧ (js_length before' ≤ js_length "pay with ")%nat
      ∧ removeSensitiveText told_card
        = ({| entities := Some [city; card];
              text := Some (before' +:+ stars (js_length "4242") +:+ after') |},
           None).
Proof.
  assert ("4242" ≠ "") as H by discriminate.
  split; [reflexivity|]. split; [reflexivity|]. split; [reflexivity|].
  split; [reflexivity|]. split; [exact H|]. split; [reflexivity|].
  exact (removeSensitiveText_masks told_card [city; card] "pay with 4242 in Paris" "4242"
           card "pay with " " in Paris" eq_refl eq_refl eq_refl eq_refl H eq_refl).
Defined.

(** ** One bot, the legacy engine or the second *)

(** The second engine of the bot finds the city and the card number; the
    merge puts its entities on the event. *)
Definition finds_card : Engine2 (Prediction := list Entity) :=
  fun text contexts => Normal [city; card].

Definition not_loaded : Engine2 (Prediction := list Entity) :=
  fun text contexts => Thrown "model not loaded".

Definition put_entities (old : option EventNlu) (answer : Answer (Prediction := list Entity))
  : option EventNlu :=
  Some {| nlu_includedContexts := from_option nlu_includedContexts [] old;
          nlu_entities := match answer with
                          | Understood u => Some []
                          | Predicted ents => Some ents
                          end |}.

Definition incoming (kind text : string) : Handling :=
  {| event := {| botId := "bot"; type := kind; preview := text;
                 skip_native_nlu := false; lastMessages := ["Hello"];
                 nlu := Some {| nlu_includedContexts := ["global"]; nlu_entities := None |};
                 payload_text := Some text |};
     engine_log := []; trace := [] |}.

(** The legacy engine of the bot, primed. *)
Definition lucky : LegacyEngine :=
  {| _preloaded := true; awaited_cycle := []; runner := third_time_lucky |}.

Definition legacy_handler : Eff Handling unit :=
  handler true true {["bot" := lucky]} ∅ steady put_entities.

Definition second_handler (engine : Engine2) : Eff Handling unit :=
  handler true false ∅ {["bot" := engine]} steady put_entities.

(** A visit is passed over. *)
Lemma handler_passes_over_witness :
  (true = false
   ∨ botCtx true {["bot" := lucky]} (∅ : gmap string (Engine2 (Prediction := list Entity)))
       (event (incoming "visit" "Hi")) = None
   ∨ preview (event (incoming "visit" "Hi")) = ""
   ∨ type (event (incoming "visit" "Hi")) ∈ EVENTS_TO_IGNORE
   ∨ skip_native_nlu (event (incoming "visit" "Hi")) = true)
  ∧ legacy_handler (incoming "visit" "Hi")
    = (Normal tt,
       {| event := event (incoming "visit" "Hi");
          engine_log := engine_log (incoming "visit" "Hi");
          trace := trace (incoming "visit" "Hi") ++ [Next] |}).
Proof.
  assert (true = false
          ∨ botCtx true {["bot" := lucky]}
              (∅ : gmap string (Engine2 (Prediction := list Entity)))
              (event (incoming "visit" "Hi")) = None
          ∨ preview (event (incoming "visit" "Hi")) = ""
          ∨ type (event (incoming "visit" "Hi")) ∈ EVENTS_TO_IGNORE
          ∨ skip_native_nlu (event (incoming "visit" "Hi")) = true) as H.
  { right. right. right. left. apply (bool_decide_unpack _). vm_compute. exact I. }
  split; [exact H|].
  exact (handler_passes_over true true {["bot" := lucky]} ∅ steady
           put_entities (incoming "visit" "Hi") H).
Defined.

(** A text for the legacy engine. *)
Lemma handler_legacy_witness :
  true = true
  ∧ true = true
  ∧ ({["bot" := lucky]} : gmap string LegacyEngine)
      !! botId (event (incoming "text" "Hi")) = Some lucky
  ∧ _preloaded lucky = true
  ∧ passed_over (event (incoming "text" "Hi")) = false
  ∧ nlu (event (incoming "text" "Hi"))
    = Some {| nlu_includedContexts := ["global"]; nlu_entities := None |}
  ∧ ∃ u log',
      extract (runner lucky) (preview (event (incoming "text" "Hi")))
        (lastMessages (event (incoming "text" "Hi"))) steady
        (engine_log (incoming "text" "Hi")) = (Normal u, log')
      ∧ (errored u = true ↔
           ∃ k message,
             gave_up_at (runner lucky (preview (event (incoming "text" "Hi")))
                           (lastMessages (event (incoming "text" "Hi"))))
               steady k message)
      ∧ ∃ h' acts,
          legacy_handler (incoming "text" "Hi") = (Normal tt, h')
          ∧ engine_log h' = log'
          ∧ nlu (event h')
            = put_entities
                (Some {| nlu_includedContexts := ["global"]; nlu_entities := None |})
                (Understood u)
          ∧ trace h'
            = trace (incoming "text" "Hi")
              ++ [Extract (botId (event (incoming "text" "Hi")))
                    (preview (event (incoming "text" "Hi")))
                    (lastMessages (event (incoming "text" "Hi")))
                    (nlu_includedContexts
                       {| nlu_includedContexts := ["global"]; nlu_entities := None |})]
              ++ acts ++ [Next]
          ∧ ∀ a, a ∈ acts → ∃ message, a = Warn message.
Proof.
  assert (({["bot" := lucky]} : gmap string LegacyEngine)
            !! botId (event (incoming "text" "Hi")) = Some lucky) as H
    by (vm_compute; reflexivity).
  split; [reflexivity|]. split; [reflexivity|]. split; [exact H|].
  split; [reflexivity|]. split; [reflexivity|]. split; [reflexivity|].
  exact (handler_legacy true true {["bot" := lucky]} ∅ steady put_entities
           (incoming "text" "Hi") lucky
           {| nlu_includedContexts := ["global"]; nlu_entities := None |}
           eq_refl eq_refl H eq_refl eq_refl eq_refl).
Defined.

(** The same text for an engine that is not primed: the cycle it awaits
    comes first in its log. *)
Example handler_awaits_cycle :
  let cold := {| _preloaded := false; awaited_cycle := [GetIntents];
                 runner := at_once |} in
  engine_log
    (snd (handler (Prediction := list Entity) true true {["bot" := cold]} ∅ steady
            put_entities (incoming "text" "Hi")))
  = [GetIntents].
Proof. vm_compute. reflexivity. Qed.

(** A text for a second engine that has no model. *)
Lemma handler_engine_failure_witness :
  true = true
  ∧ false = false
  ∧ ({["bot" := not_loaded]} : gmap string Engine2)
      !! botId (event (incoming "text" "Hi")) = Some not_loaded
  ∧ passed_over (event (incoming "text" "Hi")) = false
  ∧ nlu (event (incoming "text" "Hi"))
    = Some {| nlu_includedContexts := ["global"]; nlu_entities := None |}
  ∧ not_loaded (preview (event (incoming "text" "Hi")))
      (nlu_includedContexts {| nlu_includedContexts := ["global"]; nlu_entities := None |})
    = Thrown "model not loaded"
  ∧ second_handler not_loaded (incoming "text" "Hi")
    = (Normal tt,
       {| event := event (incoming "text" "Hi");
          engine_log := engine_log (incoming "text" "Hi");
          trace := trace (incoming "text" "Hi")
                   ++ [Predict (botId (event (incoming "text" "Hi")))
                         (preview (event (incoming "text" "Hi")))
                         (nlu_includedContexts
                            {| nlu_includedContexts := ["global"]; nlu_entities := None |});
                       Warn ("Error extracting metadata for incoming text: "
                             +:+ "model not loaded");
                       Next] |}).
Proof.
  assert (({["bot" := not_loaded]} : gmap string Engine2)
            !! botId (event (incoming "text" "Hi")) = Some not_loaded) as H
    by (vm_compute; reflexivity).
  split; [reflexivity|]. split; [reflexivity|]. split; [exact H|].
  split; [reflexivity|]. split; [reflexivity|]. split; [reflexivity|].
  exact (handler_engine_failure true false ∅ {["bot" := not_loaded]} steady
           put_entities (incoming "text" "Hi") not_loaded
           {| nlu_includedContexts := ["global"]; nlu_entities := None |}
           "model not loaded" eq_refl eq_refl H eq_refl eq_refl eq_refl).
Defined.

Lemma put_entities_text_valued ents :
  nlu_entities {| nlu_includedContexts := ["global"]; nlu_entities := Some [city; card] |}
  = Some ents →
  text_valued ents.
Proof. apply told_card_text_valued. Qed.

(** A text with a card number for the second engine. *)
Lemma handler_prediction_witness :
  true = true
  ∧ false = false
  ∧ ({["bot" := finds_card]} : gmap string Engine2)
      !! botId (event (incoming "text" "pay with 4242 in Paris")) = Some finds_card
  ∧ passed_over (event (incoming "text" "pay with 4242 in Paris")) = false
  ∧ nlu (event (incoming "text" "pay with 4242 in Paris"))
    = Some {| nlu_includedContexts := ["global"]; nlu_entities := None |}
  ∧ finds_card (preview (event (incoming "text" "pay with 4242 in Paris")))
      (nlu_includedContexts {| nlu_includedContexts := ["global"]; nlu_entities := None |})
    = Normal [city; card]
  ∧ put_entities (Some {| nlu_includedContexts := ["global"]; nlu_entities := None |})
      (Predicted [city; card])
    = Some {| nlu_includedContexts := ["global"]; nlu_entities := Some [city; card] |}
  ∧ payload_text (event (incoming "text" "pay with 4242 in Paris"))
    = Some "pay with 4242 in Paris"
  ∧ (∀ ents,
       nlu_entities {| nlu_includedContexts := ["global"];
                       nlu_entities := Some [city; card] |} = Some ents →
       text_valued ents)
  ∧ ∃ h' t',
      second_handler finds_card (incoming "text" "pay with 4242 in Paris") = (Normal tt, h')
      ∧ nlu (event h')
        = Some {| nlu_includedContexts := ["global"]; nlu_entities := Some [city; card] |}
      ∧ payload_text (event h') = Some t'
      ∧ js_length t' = js_length "pay with 4242 in Paris"
      ∧ engine_log h' = engine_log (incoming "text" "pay with 4242 in Paris").
Proof.
  assert (({["bot" := finds_card]} : gmap string Engine2)
            !! botId (event (incoming "text" "pay with 4242 in Paris")) = Some finds_card)
    as H by (vm_compute; reflexivity).
  split; [reflexivity|]. split; [reflexivity|]. split; [exact H|].
  split; [reflexivity|]. split; [reflexivity|]. split; [reflexivity|].
  split; [reflexivity|]. split; [reflexivity|]. split; [exact put_entities_text_valued|].
  exact (handler_prediction true false ∅ {["bot" := finds_card]} steady
           put_entities (incoming "text" "pay with 4242 in Paris") finds_card
           {| nlu_includedContexts := ["global"]; nlu_entities := None |}
           {| nlu_includedContexts := ["global"]; nlu_entities := Some [city; card] |}
           [city; card] "pay with 4242 in Paris"
           eq_refl eq_refl H eq_refl eq_refl eq_refl eq_refl eq_refl
           put_entities_text_valued).
Defined.

(** The same message, handled: the card number is masked on the event. *)
Example second_handler_masks :
  payload_text
    (event (snd (second_handler finds_card (incoming "text" "pay with 4242 in Paris"))))
  = Some "pay with **** in Paris"
  ∧ trace (snd (second_handler finds_card (incoming "text" "pay with 4242 in Paris")))
    = [Predict "bot" "pay with 4242 in Paris" ["global"]; Next].
Proof. vm_compute. split; reflexivity. Qed.


End Middleware.
